(** * Morphology indexing and axial conductances of jaxley

    A shallow embedding of the parts of [jaxley/utils/cell_utils.py] and
    [jaxley/modules/cell.py] that build branch levels, branch-point ids,
    the branch-point edge tables and the axial coupling conductances,
    together with the properties stated about them.

    Number model.  Integer arrays are lists of [Z].  JAX holds integers
    in 32 bits: where the source adds JAX integers the sum is wrapped by
    [int32], and a NumPy int64 array that is handed to a [jnp] function
    is converted by [jnp_asarray]; the tables of branches are taken to
    hold 32-bit values, on which this conversion does nothing.

    A float is held as an exact rational [Q]: the formulas are modelled
    in exact arithmetic, without rounding, overflow or underflow, so what
    is proved of them is which value the code computes, not its floating
    point range.  A float result is an [option Q], where [None] stands
    for the outcome of a division by zero (inf or nan under JAX,
    [ZeroDivisionError] on plain Python scalars).  Rationals are compared
    with [Qeq], written [==].  The one formula whose floating point range
    is at stake, [compute_coupling_cond], is also given on binary64
    floats, in [Binary64]. *)

From Stdlib Require Import Floats.
From Stdlib Require Import QArith Qfield Lqa Lia.
From Stdlib Require Import Qabs.
From stdpp Require Import base option list numbers sorting strings gmap.

(** ** Exceptions *)

Inductive exn := IndexError | ShapeError | KeyError.

Inductive result (A : Type) :=
  | Ok (a : A)
  | Raise (e : exn).
Arguments Ok {A} a.
Arguments Raise {A} e.

#[global] Instance result_ret : MRet result := λ A a, Ok a.
#[global] Instance result_bind : MBind result := λ A B f m,
  match m with Ok a => f a | Raise e => Raise e end.
#[global] Instance result_fmap : FMap result := λ A B f m,
  match m with Ok a => Ok (f a) | Raise e => Raise e end.

Definition is_Ok {A} (m : result A) : Prop := ∃ a, m = Ok a.

(** ** Float arithmetic *)

Module Float.

(** [x / y] in exact arithmetic: no value when the divisor is zero. *)
Definition fdiv (x y : Q) : option Q :=
  if Qeq_bool y 0 then None else Some (x / y)%Q.

(** Elementwise [xs / ys] of a float vector by a vector of finite floats of
    the same shape. *)
Definition vdiv (xs : list (option Q)) (ys : list Q) : list (option Q) :=
  zip_with (λ x y, x ≫= λ v, fdiv v y) xs ys.

(** Elementwise [xs *= c]. *)
Definition vscale (c : Q) (xs : list (option Q)) : list (option Q) :=
  fmap (M := list) (fmap (M := option) (λ v, v * c)%Q) xs.

End Float.
Export Float.

(** ** Conductance formulas ([cell_utils.py]) *)

(** [rad1 * rad2**2 / (r_a1 * rad2**2 * l1 + r_a2 * rad1**2 * l2) / l1 * 10**7] *)
Definition compute_coupling_cond (rad1 rad2 r_a1 r_a2 l1 l2 : Q) : option Q :=
  a ← fdiv (rad1 * rad2 ^ 2)%Q (r_a1 * rad2 ^ 2 * l1 + r_a2 * rad1 ^ 2 * l2)%Q;
  b ← fdiv a l1;
  Some (b * 10 ^ 7)%Q.

(** [rad / r_a / l**2 * 10**7] *)
Definition compute_coupling_cond_branchpoint (rad r_a l : Q) : option Q :=
  a ← fdiv rad r_a;
  b ← fdiv a (l ^ 2)%Q;
  Some (b * 10 ^ 7)%Q.

(** [rad**2 / r_a / l] *)
Definition compute_impact_on_node (rad r_a l : Q) : option Q :=
  a ← fdiv (rad ^ 2)%Q r_a;
  fdiv a l.

(** The same expression on binary64 floats, the floats of Python and of
    NumPy's [float64]: every operation rounds to nearest, a product too
    small for the format underflows to zero, and [x ** 2] is taken as the
    rounded product [x * x].  A zero divisor or an overflow gives the
    IEEE infinity or nan here; plain Python raises in these two cases. *)
Module Binary64.
Local Open Scope float_scope.

Definition compute_coupling_cond (rad1 rad2 r_a1 r_a2 l1 l2 : float) : float :=
  rad1 * (rad2 * rad2) / (r_a1 * (rad2 * rad2) * l1 + r_a2 * (rad1 * rad1) * l2)
  / l1 * 10000000.

End Binary64.

(** The coupling formula in the words of the specification, with its
    unit factor:
    [rad_sink · rad_source² / (ra_sink·rad_source²·len_source
       + ra_source·rad_sink²·len_sink) / len_sink], scaled by [10^7]. *)
Definition spec_coupling_formula
    (rad_sink rad_source ra_sink ra_source len_sink len_source : Q) : Q :=
  (rad_sink * rad_source ^ 2
   / (ra_sink * rad_source ^ 2 * len_source + ra_source * rad_sink ^ 2 * len_sink)
   / len_sink * 10 ^ 7)%Q.

(** The cable formula with each resistivity weighted by the length of its
    own compartment:
    [rad_sink · rad_source² / (ra_sink·rad_source²·len_sink
       + ra_source·rad_sink²·len_source) / len_sink], scaled by [10^7]. *)
Definition cable_coupling_formula
    (rad_sink rad_source ra_sink ra_source len_sink len_source : Q) : Q :=
  (rad_sink * rad_source ^ 2
   / (ra_sink * rad_source ^ 2 * len_sink + ra_source * rad_sink ^ 2 * len_source)
   / len_sink * 10 ^ 7)%Q.

(** ** Branch-point conductances ([Cell.init_cell_conds], [cell.py]) *)

Module Cell.

Definition init_cell_conds (ra_parent ra_child r_parent r_child l_parent l_child : Q)
    : option Q * option Q :=
  let branch_conds_fwd :=
    compute_coupling_cond r_child r_parent ra_child ra_parent l_child l_parent in
  let branch_conds_bwd :=
    compute_coupling_cond r_parent r_child ra_parent ra_child l_parent l_child in
  let branch_conds_fwd := (λ v, v * 10 ^ 7)%Q <$> branch_conds_fwd in
  let branch_conds_bwd := (λ v, v * 10 ^ 7)%Q <$> branch_conds_bwd in
  (branch_conds_fwd, branch_conds_bwd).

End Cell.

(** ** Topology builder *)

(** Reading [a[p]] of a NumPy array of length [n]: an index in [0, n) is
    used as it is, one in [-n, 0) counts from the end, any other raises. *)
Definition np_index (n : nat) (p : Z) : result nat :=
  if bool_decide (0 ≤ p < Z.of_nat n)%Z then Ok (Z.to_nat p)
  else if bool_decide (- Z.of_nat n ≤ p < 0)%Z then Ok (Z.to_nat (p + Z.of_nat n))
  else Raise IndexError.

(** One iteration of the loop of [compute_levels], at position [i] with
    parent entry [p]. *)
Definition levels_step (levels : list Z) (i : nat) (p : Z) : result (list Z) :=
  if bool_decide (p = -1)%Z then Ok (<[i := 0%Z]> levels)
  else
    j ← np_index (length levels) p;
    Ok (<[i := (levels !!! j + 1)%Z]> levels).

(** [for i, p in enumerate(parents)], started at counter [i]. *)
Fixpoint levels_loop (i : nat) (ps : list Z) (levels : list Z) : result (list Z) :=
  match ps with
  | [] => Ok levels
  | p :: ps' => levels' ← levels_step levels i p; levels_loop (S i) ps' levels'
  end.

Definition compute_levels (parents : list Z) : result (list Z) :=
  let levels := replicate (length parents) 0%Z in
  levels_loop 0 parents levels.

(** The [branch_edges] table: one row per non-root branch. *)
Record branch_edge := BranchEdge {
  parent_branch_index : Z;
  child_branch_index : Z
}.

(** As built in [Cell.__init__]: parents [comb_parents[1:]] against children
    [arange(1, total_nbranches)]. *)
Definition branch_edges_of (comb_parents : list Z) : list branch_edge :=
  zip_with BranchEdge (drop 1 comb_parents)
    (Z.of_nat <$> seq 1 (length comb_parents - 1)).

(** ** Index remapper *)

(** The value that a 32-bit integer keeps of [z]: the low 32 bits, read
    in two's complement. *)
Definition int32 (z : Z) : Z := ((z + 2 ^ 31) `mod` 2 ^ 32 - 2 ^ 31)%Z.

(** [jnp.asarray(arr)] of a NumPy int64 array under JAX's default 32-bit
    mode: every entry keeps its low 32 bits.  Every [jnp] function applies
    it to an argument that is not yet a JAX array. *)
Definition jnp_asarray (arr : list Z) : list Z := int32 <$> arr.

(** [unique(arr)] of [np] and [jnp]: the distinct values, in increasing
    order. *)
Definition unique (arr : list Z) : list Z :=
  merge_sort Z.le (remove_dups arr).

(** Position of [x] in [u] (0 when absent). *)
Definition index_of (x : Z) (u : list Z) : nat :=
  from_option fst 0%nat (list_find (λ y, y = x) u).

(** [jnp.unique(arr, return_inverse=True)]: the distinct values and, for
    every entry of [arr], its position among them. *)
Definition unique_inverse (arr : list Z) : list Z * list Z :=
  let u := unique arr in
  (u, (λ x, Z.of_nat (index_of x u)) <$> arr).

(** [arr] is the JAX array that [jnp.unique] works on.  Called on a
    NumPy array, the function is [remap_to_consecutive (jnp_asarray arr)]:
    the conversion changes an entry that does not fit 32 bits. *)
Definition remap_to_consecutive (arr : list Z) : list Z :=
  let '(_, inverse_indices) := unique_inverse arr in
  inverse_indices.

(** ** Edge classifier *)

(** The two columns of [branch_edges] are taken to hold 32-bit values, as
    the ones that [Cell.__init__] builds from a JAX array do: on them the
    conversion of [par_inds] inside [remap_to_consecutive] does
    nothing. *)
Definition compute_children_and_parents (branch_edges : list branch_edge)
    : list Z * list Z * list Z :=
  let par_inds := parent_branch_index <$> branch_edges in
  let child_inds := child_branch_index <$> branch_edges in
  let child_belongs_to_branchpoint := remap_to_consecutive par_inds in
  let par_inds := unique par_inds in
  (par_inds, child_inds, child_belongs_to_branchpoint).

(** [jnp.stack([a, b]).T] of two vectors: the rows [(a[i], b[i])]; the two
    vectors must have the same shape. *)
Definition stack_T (a b : list Z) : result (list (Z * Z)) :=
  if bool_decide (length a = length b) then Ok (zip a b) else Raise ShapeError.

Record morphology_indices := MorphologyIndices {
  children : list (Z * Z);
  parents : list (Z * Z)
}.

Definition compute_morphology_indices_in_levels (num_branchpoints : nat)
    (child_belongs_to_branchpoint par_inds child_inds : list Z)
    : result morphology_indices :=
  let branchpoint_inds_parents := Z.of_nat <$> seq 0 num_branchpoints in
  let branchpoint_inds_children := child_belongs_to_branchpoint in
  let branch_inds_parents := par_inds in
  let branch_inds_children := child_inds in
  children ← stack_T branch_inds_children branchpoint_inds_children;
  parents ← stack_T branch_inds_parents branchpoint_inds_parents;
  Ok (MorphologyIndices children parents).

(** ** Network assembler *)

(** Shape of the update operand of [x.at[inds].add(values)] and of
    [x.at[inds].set(values)]: with no index at all the scatter is skipped
    and [values] is not looked at; otherwise [values] is broadcast against
    the [k] indices, so it has [k] entries or a single one that is
    repeated, and any other shape is refused. *)
Definition broadcast_to (k : nat) (values : list Q) : result (list Q) :=
  if bool_decide (k = 0)%nat then Ok []
  else if bool_decide (length values = k) then Ok values
  else match values with
       | [v] => Ok (replicate k v)
       | _ => Raise ShapeError
       end.

(** One update of the scatter-add into a vector of length [n]: a negative
    index counts from the end, an index that is still out of bounds is
    dropped, a repeated index accumulates. *)
Definition scatter_add1 (n : nat) (acc : list Q) (iv : Z * Q) : list Q :=
  let '(i, v) := iv in
  let j := if bool_decide (i < 0)%Z then (i + Z.of_nat n)%Z else i in
  if bool_decide (0 ≤ j < Z.of_nat n)%Z
  then alter (λ s, s + v)%Q (Z.to_nat j) acc
  else acc.

Definition group_and_sum (values_to_sum : list Q) (inds_to_group_by : list Z)
    (num_branchpoints : nat) : result (list Q) :=
  let group_sums := replicate num_branchpoints 0%Q in
  if bool_decide (0 < num_branchpoints)%nat then
    updates ← broadcast_to (length inds_to_group_by) values_to_sum;
    Ok (foldl (scatter_add1 num_branchpoints) group_sums
          (zip inds_to_group_by updates))
  else Ok group_sums.

(** A row of [comp_edges]. *)
Record comp_edge := CompEdge {
  source : nat;
  sink : nat;
  type : Z
}.

(** [d[key]] of a dict. *)
Definition getitem (d : gmap string (list Q)) (key : string) : result (list Q) :=
  match d !! key with
  | Some a => Ok a
  | None => Raise KeyError
  end.

(** [a[inds]] of a JAX vector with an array of node indices: an index past
    the end is clamped to the last entry; an empty [a] has no entry to
    return and raises. *)
Definition take (a : list Q) (inds : list nat) : result (list Q) :=
  mapM (λ i, match a !! (i `min` (length a - 1))%nat with
             | Some x => Ok x
             | None => Raise IndexError
             end) inds.

(** [vmap(f, in_axes=(0, 0, 0))]: the mapped axes must agree in size. *)
Fixpoint vmap3 (f : Q → Q → Q → option Q) (a b c : list Q)
    : result (list (option Q)) :=
  match a, b, c with
  | [], [], [] => Ok []
  | x :: a, y :: b, z :: c => rest ← vmap3 f a b c; Ok (f x y z :: rest)
  | _, _, _ => Raise ShapeError
  end.

(** [vmap(f, in_axes=(0, 0, 0, 0, 0, 0))]. *)
Fixpoint vmap6 (f : Q → Q → Q → Q → Q → Q → option Q) (a b c d e g : list Q)
    : result (list (option Q)) :=
  match a, b, c, d, e, g with
  | [], [], [], [], [], [] => Ok []
  | x1 :: a, x2 :: b, x3 :: c, x4 :: d, x5 :: e, x6 :: g =>
      rest ← vmap6 f a b c d e g; Ok (f x1 x2 x3 x4 x5 x6 :: rest)
  | _, _, _, _, _, _ => Raise ShapeError
  end.

(** Rows of [comp_edges] whose type is one of [tys], in table order. *)
Definition rows_of_type (tys : list Z) (comp_edges : list comp_edge)
    : list comp_edge :=
  filter (λ e, type e ∈ tys) comp_edges.

Definition compute_axial_conductances (comp_edges : list comp_edge)
    (params : gmap string (list Q)) : result (list (option Q)) :=
  (* compartment-to-compartment *)
  let condition := rows_of_type [0%Z] comp_edges in
  let source_comp_inds := source <$> condition in
  let sink_comp_inds := sink <$> condition in
  conds_c2c ←
    (if bool_decide (0 < length sink_comp_inds)%nat then
       rad_sink ← getitem params "radius" ≫= λ a, take a sink_comp_inds;
       rad_source ← getitem params "radius" ≫= λ a, take a source_comp_inds;
       ra_sink ← getitem params "axial_resistivity" ≫= λ a, take a sink_comp_inds;
       ra_source ← getitem params "axial_resistivity" ≫= λ a, take a source_comp_inds;
       len_sink ← getitem params "length" ≫= λ a, take a sink_comp_inds;
       len_source ← getitem params "length" ≫= λ a, take a source_comp_inds;
       conds ← vmap6 compute_coupling_cond
                 rad_sink rad_source ra_sink ra_source len_sink len_source;
       cm_sink ← getitem params "capacitance" ≫= λ a, take a sink_comp_inds;
       Ok (vdiv conds cm_sink)
     else Ok []);
  (* branchpoint-to-compartment *)
  let condition := rows_of_type [1%Z; 2%Z] comp_edges in
  let sink_comp_inds := sink <$> condition in
  conds_bp2c ←
    (if bool_decide (0 < length sink_comp_inds)%nat then
       rad_sink ← getitem params "radius" ≫= λ a, take a sink_comp_inds;
       ra_sink ← getitem params "axial_resistivity" ≫= λ a, take a sink_comp_inds;
       len_sink ← getitem params "length" ≫= λ a, take a sink_comp_inds;
       conds ← vmap3 compute_coupling_cond_branchpoint rad_sink ra_sink len_sink;
       cm_sink ← getitem params "capacitance" ≫= λ a, take a sink_comp_inds;
       Ok (vdiv conds cm_sink)
     else Ok []);
  (* compartment-to-branchpoint *)
  let condition := rows_of_type [3%Z; 4%Z] comp_edges in
  let source_comp_inds := source <$> condition in
  conds_c2bp ←
    (if bool_decide (0 < length source_comp_inds)%nat then
       rad_source ← getitem params "radius" ≫= λ a, take a source_comp_inds;
       ra_source ← getitem params "axial_resistivity" ≫= λ a, take a source_comp_inds;
       len_source ← getitem params "length" ≫= λ a, take a source_comp_inds;
       conds ← vmap3 compute_impact_on_node rad_source ra_source len_source;
       Ok (vscale 1000 conds)
     else Ok []);
  Ok (conds_c2c ++ conds_bp2c ++ conds_c2bp).

(** * Specification vocabulary *)

Section levels_spec.
Local Open Scope Z_scope.

(** The precondition of [compute_levels]: every entry is the root mark
    [-1] or the index of an earlier branch. *)
Definition topologically_sorted (parents : list Z) : Prop :=
  ∀ (b : nat) (p : Z), parents !! b = Some p → p = -1 ∨ 0 ≤ p < Z.of_nat b.

(** What the first [k] entries of [levels] satisfy once the loop has
    passed them. *)
Definition levels_upto (parents levels : list Z) (k : nat) : Prop :=
  length levels = length parents ∧
  ∀ (b : nat) (p : Z), (b < k)%nat → parents !! b = Some p →
    (p = -1 → levels !! b = Some 0) ∧
    (p ≠ -1 → ∃ lp, levels !! Z.to_nat p = Some lp ∧ levels !! b = Some (lp + 1)).

End levels_spec.

Section remap_spec.
Local Open Scope Z_scope.

(** The number of distinct entries of an array. *)
Definition distinct_count (arr : list Z) : nat := length (remove_dups arr).

(** The rank of [x] in an array: how many distinct entries lie strictly
    below it. *)
Definition rank_in (arr : list Z) (x : Z) : nat :=
  length (filter (λ y, y < x) (remove_dups arr)).

End remap_spec.

Section sums_spec.
Local Open Scope Q_scope.

(** Sum of a list of values. *)
Definition Qsum (vs : list Q) : Q := foldr Qplus 0 vs.

(** The values whose group index is [j], in table order. *)
Definition group_values (j : nat) (ivs : list (Z * Q)) : list Q :=
  snd <$> filter (λ iv, fst iv = Z.of_nat j) ivs.

End sums_spec.

#[global] Instance Q_inhabited : Inhabited Q := populate 0%Q.

(** The entry that [a[i]] reads from a non-empty JAX vector. *)
Definition sel (a : list Q) (i : nat) : Q :=
  a !!! (i `min` (length a - 1))%nat.

Section entries.
Context (rad ra len cm : list Q).
Local Open Scope Q_scope.

(** What the three branches of [compute_axial_conductances] compute for a
    single row. *)
Definition c2c_entry (e : comp_edge) : option Q :=
  compute_coupling_cond
    (sel rad (sink e)) (sel rad (source e))
    (sel ra (sink e)) (sel ra (source e))
    (sel len (sink e)) (sel len (source e))
  ≫= λ v, fdiv v (sel cm (sink e)).

Definition bp2c_entry (e : comp_edge) : option Q :=
  compute_coupling_cond_branchpoint
    (sel rad (sink e)) (sel ra (sink e)) (sel len (sink e))
  ≫= λ v, fdiv v (sel cm (sink e)).

Definition c2bp_entry (e : comp_edge) : option Q :=
  (λ v, v * 1000) <$>
  compute_impact_on_node
    (sel rad (source e)) (sel ra (source e)) (sel len (source e)).

(** The values the specification gives to the three kinds of edges. *)
Definition c2c_conductance (e : comp_edge) : Q :=
  cable_coupling_formula
    (sel rad (sink e)) (sel rad (source e))
    (sel ra (sink e)) (sel ra (source e))
    (sel len (sink e)) (sel len (source e))
  / sel cm (sink e).

Definition bp2c_conductance (e : comp_edge) : Q :=
  sel rad (sink e) / (sel ra (sink e) * sel len (sink e) ^ 2) * 10 ^ 7
  / sel cm (sink e).

Definition c2bp_weight (e : comp_edge) : Q :=
  sel rad (source e) ^ 2 / (sel ra (source e) * sel len (source e)) * 1000.

End entries.

(** ** Sample data *)

Definition sample_params : gmap string (list Q) :=
  <["radius" := [1; 2; 1]%Q]>
  (<["length" := [10; 20; 5]%Q]>
  (<["axial_resistivity" := [5000; 5000; 2500]%Q]>
  (<["capacitance" := [1; 2; 1]%Q]> ∅))).

Definition sample_edges : list comp_edge :=
  [CompEdge 0 1 0; CompEdge 1 3 2; CompEdge 1 0 0; CompEdge 2 3 4;
   CompEdge 3 2 1; CompEdge 0 3 3].

(** Two compartments of which the first has a negative radius. *)
Definition negative_radius_params : gmap string (list Q) :=
  <["radius" := [-1; 1]%Q]>
  (<["length" := [1; 1]%Q]>
  (<["axial_resistivity" := [1; 1]%Q]>
  (<["capacitance" := [1; 1]%Q]> ∅))).

(** * Further operations *)

(** ** Branch-point groups ([build_branchpoint_group_inds]) *)

(** [start_ind_for_branchpoints] is an integer that fits 32 bits and
    [child_belongs_to_branchpoint] is a JAX array: the two sums are sums
    of 32-bit integers, which wrap around. *)
Definition build_branchpoint_group_inds (num_branchpoints : nat)
    (child_belongs_to_branchpoint : list Z) (start_ind_for_branchpoints : Z)
    : list Z :=
  let branchpoint_inds_parents :=
    (λ k, int32 (start_ind_for_branchpoints + k))
    <$> (Z.of_nat <$> seq 0 num_branchpoints) in
  let branchpoint_inds_children :=
    (λ c, int32 (start_ind_for_branchpoints + c))
    <$> child_belongs_to_branchpoint in
  let all_branchpoint_inds := branchpoint_inds_parents ++ branchpoint_inds_children in
  let branchpoint_group_inds := remap_to_consecutive all_branchpoint_inds in
  branchpoint_group_inds.

(** ** Children of a branch *)

(** [np.sum(np.asarray(parents) == b)] for every branch [b]. *)
Definition _compute_num_children (parents : list Z) : list nat :=
  let num_branches := length parents in
  (λ b, length (filter (λ p, p = Z.of_nat b) parents)) <$> seq 0 num_branches.

(** [np.where(arr == v)[0]], counted from position [off]: the positions of
    the entries equal to [v], in increasing order. *)
Fixpoint where_eq (off : nat) (v : Z) (arr : list Z) : list Z :=
  match arr with
  | [] => []
  | x :: arr' =>
      if decide (x = v) then Z.of_nat off :: where_eq (S off) v arr'
      else where_eq (S off) v arr'
  end.

Definition compute_children_indices (parents : list Z) : list (list Z) :=
  let num_branches := length parents in
  (λ b, where_eq 0 (Z.of_nat b) parents) <$> seq 0 num_branches.

(** One iteration of the loop of [_compute_index_of_child] for a branch
    whose parent entry is [p]: the counter of the parent is read, appended
    and then incremented. *)
Definition index_of_child_step (st : list Z * list Z) (p : Z)
    : result (list Z * list Z) :=
  let '(current_num_children_for_each_branch, index_of_child) := st in
  j ← np_index (length current_num_children_for_each_branch) p;
  Ok (alter (λ c, c + 1)%Z j current_num_children_for_each_branch,
      index_of_child ++ [current_num_children_for_each_branch !!! j]).

(** [for b in range(1, num_branches)], over the parent entries it reads. *)
Fixpoint index_of_child_loop (ps : list Z) (st : list Z * list Z)
    : result (list Z * list Z) :=
  match ps with
  | [] => Ok st
  | p :: ps' => st' ← index_of_child_step st p; index_of_child_loop ps' st'
  end.

Definition _compute_index_of_child (parents : list Z) : result (list Z) :=
  let num_branches := length parents in
  let current_num_children_for_each_branch := replicate num_branches 0%Z in
  let index_of_child := [(-1)%Z] in
  snd <$> index_of_child_loop (drop 1 parents)
            (current_num_children_for_each_branch, index_of_child).

(** ** Further exceptions

    The operations below can fail in more ways than the ones above.  An
    [outcome] is a value or one of Python's exceptions; the exceptions of
    [exn] are embedded by [Builtin]. *)

Inductive py_error :=
  | ValueError
  | NotImplementedError
  | AssertionError
  | ZeroDivisionError
  | Builtin (e : exn).

Inductive outcome (A : Type) :=
  | Returns (a : A)
  | Raises (e : py_error).
Arguments Returns {A} a.
Arguments Raises {A} e.

#[global] Instance outcome_ret : MRet outcome := λ A a, Returns a.
#[global] Instance outcome_bind : MBind outcome := λ A B f m,
  match m with Returns a => f a | Raises e => Raises e end.
#[global] Instance outcome_fmap : FMap outcome := λ A B f m,
  match m with Returns a => Returns (f a) | Raises e => Raises e end.

Definition lift {A} (m : result A) : outcome A :=
  match m with Ok a => Returns a | Raise e => Raises (Builtin e) end.

(** ** Rows of the edge tables by level *)

(** [np.max(a)]: refused on an empty array. *)
Definition np_max (a : list Z) : outcome Z :=
  match a with
  | [] => Raises ValueError
  | x :: a' => Returns (foldr Z.max x a')
  end.

(** [a[i]] of a NumPy array, for one integer [i]. *)
Definition np_get {A} `{Inhabited A} (a : list A) (i : Z) : result A :=
  j ← np_index (length a) i; Ok (a !!! j).

(** The inner loop of [compute_children_in_level] at level [l]: for every
    branch [b] of that level, in increasing order, the row [b - 1] of the
    table. *)
Definition children_in_current_level (levels : list Z)
    (children_row_and_col : list (Z * Z)) (l : Z) : result (list (Z * Z)) :=
  let num_branches := length levels in
  mapM (λ b : nat, np_get children_row_and_col (Z.of_nat b - 1)%Z)
    (filter (λ b : nat, levels !! b = Some l) (seq 0 num_branches)).

(** [range(lo, hi)]. *)
Definition range (lo hi : Z) : list Z :=
  (λ k : nat, (lo + Z.of_nat k)%Z) <$> seq 0 (Z.to_nat (hi - lo)).

Definition compute_children_in_level (levels : list Z)
    (children_row_and_col : list (Z * Z)) : outcome (list (list (Z * Z))) :=
  max_level ← np_max levels;
  lift (mapM (children_in_current_level levels children_row_and_col)
          (range 1 (max_level + 1))).

(** The body of the loop of [compute_parents_in_level] at level [l]: the
    rows of the table at the positions of the parents of that level. *)
Definition parents_in_current_level (level_of_parent : list Z)
    (parents_row_and_col : list (Z * Z)) (l : Z) : result (list (Z * Z)) :=
  let parents_inds_in_current_level := where_eq 0 l level_of_parent in
  mapM (np_get parents_row_and_col) parents_inds_in_current_level.

Definition compute_parents_in_level (levels par_inds : list Z)
    (parents_row_and_col : list (Z * Z)) : outcome (list (list (Z * Z))) :=
  level_of_parent ← lift (mapM (np_get levels) par_inds);
  max_level ← np_max levels;
  lift (mapM (parents_in_current_level level_of_parent parents_row_and_col)
          (range 0 max_level)).

(** ** Merging the level groups of several cells ([merge_cells]) *)

(** [l[i]] of a Python list, for a counter [i] of [enumerate]. *)
Definition py_get {A} (l : list A) (i : nat) : result A :=
  match l !! i with
  | Some x => Ok x
  | None => Raise IndexError
  end.

(** [max(l)] of a Python list of integers: refused on an empty list. *)
Definition py_max (l : list nat) : outcome nat :=
  match l with
  | [] => Raises ValueError
  | x :: l' => Returns (foldr Nat.max x l')
  end.

(** [p_in_level + np.asarray([a, b])]: the offsets are added to every row
    of a [k × 2] array. *)
Definition shift_rows (a b : Z) (p_in_level : list (Z * Z)) : list (Z * Z) :=
  (λ row, (fst row + a, snd row + b)%Z) <$> p_in_level.

(** The body of the first loop of [merge_cells] for cell [i]. *)
Definition merge_cells_shift (cumsum_num_branches cumsum_num_branchpoints : list Z)
    (exclude_first : bool) (i : nat) (att : list (list (Z * Z)))
    : outcome (list (list (Z * Z))) :=
  if exclude_first then Raises NotImplementedError
  else
    lift (mapM (λ p_in_level,
                  a ← py_get cumsum_num_branches i;
                  b ← py_get cumsum_num_branchpoints i;
                  Ok (shift_rows a b p_in_level)) att).

(** [for i, att in enumerate(arrs)], started at counter [i]. *)
Fixpoint merge_cells_loop (cumsum_num_branches cumsum_num_branchpoints : list Z)
    (exclude_first : bool) (i : nat) (arrs : list (list (list (Z * Z))))
    : outcome (list (list (list (Z * Z)))) :=
  match arrs with
  | [] => Returns []
  | att :: arrs' =>
      p ← merge_cells_shift cumsum_num_branches cumsum_num_branchpoints
             exclude_first i att;
      ps ← merge_cells_loop cumsum_num_branches cumsum_num_branchpoints
              exclude_first (S i) arrs';
      Returns (p :: ps)
  end.

Definition merge_cells (cumsum_num_branches cumsum_num_branchpoints : list Z)
    (arrs : list (list (list (Z * Z)))) (exclude_first : bool)
    : outcome (list (list (Z * Z))) :=
  merge_cells_loop cumsum_num_branches cumsum_num_branchpoints
    exclude_first 0 arrs
  ≫= λ ps : list (list (list (Z * Z))),
  max_len ← py_max ((λ att : list (list (Z * Z)), length att) <$> arrs);
  let combined_parents_in_level :=
    (λ i : nat, mjoin (omap (λ p : list (list (Z * Z)), p !! i) ps))
    <$> seq 0 max_len in
  Returns combined_parents_in_level.

(** ** Locations along a branch ([local_index_of_loc], [loc_of_index]) *)

(** [np.linspace(start, stop, num)]: [num] evenly spaced samples, the
    first at [start]; a negative [num] is refused. *)
Definition linspace (start stop : Q) (num : Z) : outcome (list Q) :=
  if bool_decide (num < 0)%Z then Raises ValueError
  else if bool_decide (num = 1)%Z then Returns [start]
  else
    let step := ((stop - start) / inject_Z (num - 1))%Q in
    Returns ((λ i : nat, (start + inject_Z (Z.of_nat i) * step)%Q)
             <$> seq 0 (Z.to_nat num)).

(** The scan of [np.argmin]: [best] is the smallest value met so far and
    [best_i] its first position; [i] is the position of the head of [l]. *)
Fixpoint argmin_from (best_i : nat) (best : Q) (i : nat) (l : list Q) : nat :=
  match l with
  | [] => best_i
  | x :: l' =>
      if Qlt_le_dec x best then argmin_from i x (S i) l'
      else argmin_from best_i best (S i) l'
  end.

(** [np.argmin(a)]: the first position of the minimum; refused on an empty
    array. *)
Definition np_argmin (a : list Q) : outcome nat :=
  match a with
  | [] => Raises ValueError
  | x :: a' => Returns (argmin_from 0 x 1 a')
  end.

(** [ncomp_per_branch] is a NumPy array of compartment counts.  With a
    count of zero the two ends of the grid are infinite, the grid is empty
    and [np.argmin] refuses it.  The grid and the distances are in exact
    arithmetic: where a location is nearly as far from one centre as from
    the next, the rounded distances of the code can pick the other of the
    two. *)
Definition local_index_of_loc (loc : Q) (global_branch_ind : Z)
    (ncomp_per_branch : list Z) : outcome Z :=
  ncomp ← lift (np_get ncomp_per_branch global_branch_ind);
  if bool_decide (ncomp = 0%Z) then Raises ValueError
  else
    possible_locs ← linspace ((1 # 2) / inject_Z ncomp)
                      (1 - (1 # 2) / inject_Z ncomp) ncomp;
    ind_along_branch ← np_argmin ((λ x, Qabs (x - loc)) <$> possible_locs);
    Returns (Z.of_nat ind_along_branch).

(** [cumsum_leading_zero] comes from [jaxley.utils.misc_utils], which is
    not part of the sources at hand; it is taken as a parameter. *)
Definition loc_of_index (cumsum_leading_zero : list Z → list Z)
    (global_comp_index global_branch_index : Z) (ncomp_per_branch : list Z)
    : result (option Q) :=
  let cumsum_ncomp := cumsum_leading_zero ncomp_per_branch in
  off ← np_get cumsum_ncomp global_branch_index;
  let index := (global_comp_index - off)%Z in
  ncomp ← np_get ncomp_per_branch global_branch_index;
  Ok (fdiv ((1 # 2) + inject_Z index) (inject_Z ncomp)).

(** ** Summed conductances at the ends of the branches
       ([Cell.update_summed_coupling_conds], [cell.py]) *)

(** [a[i]] of a JAX vector for one integer [i]: a negative index counts
    from the end, and the result is clamped into the vector; an empty
    vector has nothing to return. *)
Definition jnp_get {A} `{Inhabited A} (a : list A) (i : Z) : result A :=
  match a with
  | [] => Raise IndexError
  | _ =>
      let n := Z.of_nat (length a) in
      let j := if bool_decide (i < 0)%Z then (i + n)%Z else i in
      Ok (a !!! Z.to_nat (Z.max 0 (Z.min j (n - 1))))
  end.

(** [m[r, c] += v] when [(r, c)] lies inside the matrix, nothing
    otherwise. *)
Definition add_at (m : list (list Q)) (r c : Z) (v : Q) : list (list Q) :=
  match m !! Z.to_nat r with
  | Some row =>
      if bool_decide (0 ≤ r ∧ 0 ≤ c < Z.of_nat (length row))%Z
      then <[Z.to_nat r := alter (λ s, s + v)%Q (Z.to_nat c) row]> m
      else m
  | None => m
  end.

(** One update of [summed_conds.at[child_inds, -1].add(...)]: negative
    indices count from the end of their axis. *)
Definition add_last_column (m : list (list Q)) (cv : Z * Q) : list (list Q) :=
  let '(c, v) := cv in
  let r := if bool_decide (c < 0)%Z then (c + Z.of_nat (length m))%Z else c in
  match m !! Z.to_nat r with
  | Some row => add_at m r (Z.of_nat (length row) - 1) v
  | None => m
  end.

(** One update of [lax.scatter_add] at [[p, 0]]: indices are taken as they
    are, and an update outside the matrix is dropped. *)
Definition add_first_column (m : list (list Q)) (pv : Z * Q) : list (list Q) :=
  let '(p, v) := pv in add_at m p 0 v.

Module CellSums.

Definition update_summed_coupling_conds (summed_conds : list (list Q))
    (child_inds : list Z) (conds_fwd conds_bwd : list Q) (parents : list Z)
    : result (list (list Q)) :=
  bwd ← mapM (jnp_get conds_bwd) child_inds;
  let summed_conds := foldl add_last_column summed_conds (zip child_inds bwd) in
  par ← mapM (jnp_get parents) child_inds;
  fwd ← mapM (jnp_get conds_fwd) child_inds;
  Ok (foldl add_first_column summed_conds (zip par fwd)).

End CellSums.

Section summed_conds_spec.
Local Open Scope Q_scope.

(** A matrix of [B] rows of [nseg] entries each. *)
Definition has_shape (m : list (list Q)) (B nseg : nat) : Prop :=
  length m = B ∧ Forall (λ row, length row = nseg) m.

(** The entry [m[r, k]]. *)
Definition cell (m : list (list Q)) (r k : nat) : Q := (m !!! r) !!! k.

End summed_conds_spec.

(** ** Radii of the compartments ([build_radiuses_from_xyzr]) *)

(** [np.asarray(rows)] of a list of vectors: the rows must have one common
    length. *)
Definition np_asarray_rows (rows : list (list Q)) : outcome (list (list Q)) :=
  match rows with
  | [] => Returns []
  | row :: _ =>
      if bool_decide (Forall (λ r, length r = length row) rows)
      then Returns rows
      else Raises ValueError
  end.

(** A radius function maps the array of compartment locations to the
    array of radii at these locations. *)
Definition build_radiuses_from_xyzr (radius_fns : list (list Q → list Q))
    (branch_indices : list Z) (min_radius : option Q) (ncomp : Z)
    : outcome (list Q) :=
  if bool_decide (ncomp = 0%Z) then Raises ZeroDivisionError
  else
    let non_split := (1 / inject_Z ncomp)%Q in
    range_ ← linspace (non_split / 2) (1 - non_split / 2) ncomp;
    rows ← lift (mapM (λ b, f ← np_get (H := populate (λ _, [])) radius_fns b;
                            Ok (f range_)) branch_indices);
    radiuses ← np_asarray_rows rows;
    let radiuses_each := mjoin radiuses in
    match min_radius with
    | None =>
        if forallb (λ r, if Qlt_le_dec 0 r then true else false) radiuses_each
        then Returns radiuses_each
        else Raises AssertionError
    | Some m =>
        Returns ((λ r, if Qlt_le_dec r m then m else r) <$> radiuses_each)
    end.

Section radiuses_spec.
Local Open Scope Q_scope.

(** The position that a valid Python index [b] denotes in a list of
    length [n]. *)
Definition py_pos (n : nat) (b : Z) : nat :=
  if bool_decide (b < 0)%Z then Z.to_nat (b + Z.of_nat n) else Z.to_nat b.

(** The radii of the branches listed in [branch_indices], one after the
    other, before any check or clipping. *)
Definition raw_radiuses (radius_fns : list (list Q → list Q))
    (branch_indices : list Z) (range_ : list Q) : list Q :=
  mjoin ((λ b, default (λ _, []) (radius_fns !! py_pos (length radius_fns) b) range_)
         <$> branch_indices).

End radiuses_spec.

(** ** Linearly interpolated segments ([linear_segments]) *)



(** [m.T] of a matrix given by its rows, each of [cols] entries. *)
Definition transpose (cols : nat) (m : list (list Q)) : list (list Q) :=
  (λ b : nat, (λ row : list Q, row !!! b) <$> m) <$> seq 0 cols.



(** ** Number of neighbours of each compartment ([get_num_neighbours]) *)

(** One update of [x.at[i].set(v)] on a vector: a negative index counts
    from the end, an index that is still out of bounds is dropped. *)
Definition set_at1 (acc : list Q) (iv : Z * Q) : list Q :=
  let '(i, v) := iv in
  let n := Z.of_nat (length acc) in
  let j := if bool_decide (i < 0)%Z then (i + n)%Z else i in
  if bool_decide (0 ≤ j < n)%Z then <[Z.to_nat j := v]> acc else acc.

(** [x.at[i].set(v)] for one integer [i]: an empty vector has no position
    to index and the index is refused; otherwise the update is that of
    [set_at1]. *)
Definition set_at (x : list Q) (i : Z) (v : Q) : result (list Q) :=
  match x with
  | [] => Raise IndexError
  | _ => Ok (set_at1 x (i, v))
  end.

(** The two sizes are array dimensions, hence natural numbers;
    [num_children] is an integer array that [+ 1.0] turns into floats and
    that is broadcast against the [num_branches] indices. *)
Definition get_num_neighbours (num_children : list Z)
    (ncomp_per_branch num_branches : nat) : result (list Q) :=
  let num_neighbours := (λ one : Q, 2 * one)%Q <$>
                        replicate (num_branches * ncomp_per_branch) 1%Q in
  num_neighbours ←
    set_at num_neighbours (Z.of_nat ncomp_per_branch - 1)%Z 1%Q;
  let inds := (λ b : nat, (Z.of_nat b * Z.of_nat ncomp_per_branch)%Z)
              <$> seq 0 num_branches in
  values ← broadcast_to (length inds)
             ((λ c : Z, (inject_Z c + 1)%Q) <$> num_children);
  Ok (foldl set_at1 num_neighbours (zip inds values)).

(** * Properties *)

(** ** Conductance formulas *)

Section conductance.
Local Open Scope Q_scope.
Local Arguments Qpower : simpl never.

Lemma fdiv_Some (x y : Q) : ¬ y == 0 → fdiv x y = Some (x / y).
Proof.
  intros Hy. unfold fdiv. destruct (Qeq_bool y 0) eqn:E; [|done].
  apply Qeq_bool_iff in E. contradiction.
Qed.

Lemma compute_coupling_cond_value (rad1 rad2 r_a1 r_a2 l1 l2 : Q) :
  ¬ r_a1 * rad2 ^ 2 * l1 + r_a2 * rad1 ^ 2 * l2 == 0 → ¬ l1 == 0 →
  compute_coupling_cond rad1 rad2 r_a1 r_a2 l1 l2
  = Some (rad1 * rad2 ^ 2 / (r_a1 * rad2 ^ 2 * l1 + r_a2 * rad1 ^ 2 * l2) / l1 * 10 ^ 7).
Proof.
  intros HD Hl. unfold compute_coupling_cond.
  rewrite (fdiv_Some _ _ HD). simpl. by rewrite (fdiv_Some _ _ Hl).
Qed.

Lemma coupling_denominator_pos (rad1 rad2 r_a1 r_a2 l1 l2 : Q) :
  0 < rad1 → 0 < rad2 → 0 < r_a1 → 0 < r_a2 → 0 < l1 → 0 < l2 →
  0 < r_a1 * rad2 ^ 2 * l1 + r_a2 * rad1 ^ 2 * l2.
Proof.
  intros. 
  assert (0 < r_a1 * rad2 ^ 2 * l1).
  { repeat apply Qmult_lt_0_compat; done. }
  assert (0 < r_a2 * rad1 ^ 2 * l2).
  { repeat apply Qmult_lt_0_compat; done. }
  lra.
Qed.

Lemma Qdiv_pos (x y : Q) : 0 < x → 0 < y → 0 < x / y.
Proof. intros. apply Qmult_lt_0_compat; [done|]. by apply Qinv_lt_0_compat. Qed.

Lemma compute_coupling_cond_pos (rad1 rad2 r_a1 r_a2 l1 l2 : Q) :
  0 < rad1 → 0 < rad2 → 0 < r_a1 → 0 < r_a2 → 0 < l1 → 0 < l2 →
  ∃ g, compute_coupling_cond rad1 rad2 r_a1 r_a2 l1 l2 = Some g ∧ 0 < g ∧
       g == rad1 * rad2 ^ 2 / (r_a1 * rad2 ^ 2 * l1 + r_a2 * rad1 ^ 2 * l2) / l1 * 10 ^ 7.
Proof.
  intros H1 H2 H3 H4 H5 H6.
  pose proof (coupling_denominator_pos _ _ _ _ _ _ H1 H2 H3 H4 H5 H6) as HD.
  eexists. split; [apply compute_coupling_cond_value; lra|]. split; [|reflexivity].
  apply Qmult_lt_0_compat; [|reflexivity].
  repeat apply Qdiv_pos; try done.
  repeat apply Qmult_lt_0_compat; done.
Qed.

Lemma compute_coupling_cond_branchpoint_pos (rad r_a l : Q) :
  0 < rad → 0 < r_a → 0 < l →
  ∃ g, compute_coupling_cond_branchpoint rad r_a l = Some g ∧ 0 < g ∧
       g == rad / r_a / l ^ 2 * 10 ^ 7.
Proof.
  intros H1 H2 H3. unfold compute_coupling_cond_branchpoint.
  assert (0 < l ^ 2) as H4 by (by apply Qmult_lt_0_compat).
  rewrite fdiv_Some by lra. simpl. rewrite fdiv_Some by lra. simpl.
  eexists. split; [done|]. split; [|reflexivity].
  apply Qmult_lt_0_compat; [|reflexivity]. by repeat apply Qdiv_pos.
Qed.

Lemma compute_impact_on_node_pos (rad r_a l : Q) :
  0 < rad → 0 < r_a → 0 < l →
  ∃ g, compute_impact_on_node rad r_a l = Some g ∧ 0 < g ∧
       g == rad ^ 2 / r_a / l.
Proof.
  intros H1 H2 H3. unfold compute_impact_on_node.
  assert (0 < rad ^ 2) as H4 by (by apply Qmult_lt_0_compat).
  rewrite fdiv_Some by lra. simpl. rewrite fdiv_Some by lra.
  eexists. split; [done|]. split; [|reflexivity]. by repeat apply Qdiv_pos.
Qed.

(** C1, as stated, fails: the specification's formula exchanges the two
    lengths in the denominator.  With sink [(rad 1, r_a 1, len 1)] and
    source [(rad 1, r_a 3, len 5)] the code divides by
    [1*1*1 + 3*1*5 = 16] and returns [10^7 / 16 = 625000], while the
    formula of the specification divides by [1*1*5 + 3*1*1 = 8] and gives
    [1250000]. *)
Lemma compute_coupling_cond_spec_formula_differs :
  (0 < 1 ∧ 0 < 3 ∧ 0 < 5) ∧
  ∃ g, compute_coupling_cond 1 1 1 3 1 5 = Some g ∧
       g == 625000 ∧
       spec_coupling_formula 1 1 1 3 1 5 == 1250000 ∧
       ¬ g == spec_coupling_formula 1 1 1 3 1 5.
Proof.
  split; [done|]. eexists. split; [reflexivity|]. done.
Qed.

(** C1 (amended): for strictly positive inputs [compute_coupling_cond]
    returns
    [rad_sink * rad_source^2 / (ra_sink*rad_source^2*len_sink
       + ra_source*rad_sink^2*len_source) / len_sink], scaled by [10^7]:
    each resistivity is paired with the length of its own compartment. *)
Theorem compute_coupling_cond_cable_formula
    (rad_sink rad_source ra_sink ra_source len_sink len_source : Q) :
  0 < rad_sink → 0 < rad_source → 0 < ra_sink → 0 < ra_source →
  0 < len_sink → 0 < len_source →
  ∃ g, compute_coupling_cond rad_sink rad_source ra_sink ra_source
         len_sink len_source = Some g ∧
       g == cable_coupling_formula rad_sink rad_source ra_sink ra_source
              len_sink len_source.
Proof.
  intros H1 H2 H3 H4 H5 H6.
  destruct (compute_coupling_cond_pos _ _ _ _ _ _ H1 H2 H3 H4 H5 H6)
    as (g & Hg & _ & Heq).
  exists g. split; [done|]. rewrite Heq. unfold cable_coupling_formula.
  reflexivity.
Qed.

Lemma compute_coupling_cond_cable_formula_witness :
  ∃ g, compute_coupling_cond 1 1 1 3 1 5 = Some g ∧
       g == cable_coupling_formula 1 1 1 3 1 5.
Proof. apply (compute_coupling_cond_cable_formula 1 1 1 3 1 5); reflexivity. Defined.

(** C9, as stated, fails on floats: with both radii [2^-400] and unit
    resistivities and lengths every input is strictly positive, the
    square [2^-800] of a radius is still a binary64 number, but the
    numerator [2^-1200] underflows to zero, and so does the result. *)
Lemma compute_coupling_cond_underflows :
  (PrimFloat.ltb 0 0x1p-400 = true ∧ PrimFloat.ltb 0 1 = true ∧
   Binary64.compute_coupling_cond 0x1p-400 0x1p-400 1 1 1 1 = 0 ∧
   PrimFloat.ltb 0 (Binary64.compute_coupling_cond 0x1p-400 0x1p-400 1 1 1 1)
   = false)%float.
Proof. repeat split. Qed.

(** The same happens at the double nearest to [1e-110]. *)
Example compute_coupling_cond_underflows_1e110 :
  (Binary64.compute_coupling_cond 0x1.80c903f7379f2p-366 0x1.80c903f7379f2p-366
     1 1 1 1 = 0)%float.
Proof. reflexivity. Qed.

(** C9 (amended): in exact arithmetic the formula of
    [compute_coupling_cond] has a strictly positive value for strictly
    positive inputs, and exchanging the roles of sink and source can
    change the conductance: [(r1, l1) = (1, 1)] against
    [(r2, l2) = (2, 1)], with unit resistivities, gives [8000000] one way
    and [4000000] the other, in exact arithmetic and on binary64
    floats. *)
Theorem compute_coupling_cond_positive_not_symmetric :
  (∀ r1 r2 ra1 ra2 l1 l2 : Q,
     0 < r1 → 0 < r2 → 0 < ra1 → 0 < ra2 → 0 < l1 → 0 < l2 →
     ∃ g, compute_coupling_cond r1 r2 ra1 ra2 l1 l2 = Some g ∧ 0 < g ∧
          g == r1 * r2 ^ 2 / (ra1 * r2 ^ 2 * l1 + ra2 * r1 ^ 2 * l2) / l1 * 10 ^ 7) ∧
  (∃ g g' : Q,
     compute_coupling_cond 1 2 1 1 1 1 = Some g ∧
     compute_coupling_cond 2 1 1 1 1 1 = Some g' ∧
     g == 8000000 ∧ g' == 4000000 ∧ ¬ g == g') ∧
  (Binary64.compute_coupling_cond 1 2 1 1 1 1 = 8000000 ∧
   Binary64.compute_coupling_cond 2 1 1 1 1 1 = 4000000 ∧
   PrimFloat.eqb (Binary64.compute_coupling_cond 1 2 1 1 1 1)
                 (Binary64.compute_coupling_cond 2 1 1 1 1 1) = false)%float.
Proof.
  split; [|split].
  - intros r1 r2 ra1 ra2 l1 l2 H1 H2 H3 H4 H5 H6.
    destruct (compute_coupling_cond_pos _ _ _ _ _ _ H1 H2 H3 H4 H5 H6)
      as (g & Hg & Hpos & Hval).
    by exists g.
  - eexists _, _. split; [reflexivity|]. split; [reflexivity|]. done.
  - repeat split.
Qed.

Lemma compute_coupling_cond_positive_not_symmetric_witness :
  ∃ g, compute_coupling_cond 1 2 1 1 1 1 = Some g ∧ 0 < g ∧
       g == 1 * 2 ^ 2 / (1 * 2 ^ 2 * 1 + 1 * 1 ^ 2 * 1) / 1 * 10 ^ 7.
Proof.
  apply (proj1 compute_coupling_cond_positive_not_symmetric); reflexivity.
Defined.

(** C10: for strictly positive inputs [Cell.init_cell_conds] returns, in
    each direction, [10^7] times the value of [compute_coupling_cond] on
    the same child and parent geometry; that value already carries the
    factor [10^7], so the branch-point conductance is [10^7 * 10^7] times
    the bare cable formula. *)
Theorem init_cell_conds_scaled_twice (ra_parent ra_child r_parent r_child l_parent l_child : Q) :
  0 < ra_parent → 0 < ra_child → 0 < r_parent → 0 < r_child →
  0 < l_parent → 0 < l_child →
  ∃ g_fwd g_bwd,
    compute_coupling_cond r_child r_parent ra_child ra_parent l_child l_parent
      = Some g_fwd ∧
    compute_coupling_cond r_parent r_child ra_parent ra_child l_parent l_child
      = Some g_bwd ∧
    Cell.init_cell_conds ra_parent ra_child r_parent r_child l_parent l_child
      = (Some (g_fwd * 10 ^ 7), Some (g_bwd * 10 ^ 7)) ∧
    g_fwd * 10 ^ 7
      == 10 ^ 7 * 10 ^ 7
         * (r_child * r_parent ^ 2
            / (ra_child * r_parent ^ 2 * l_child + ra_parent * r_child ^ 2 * l_parent)
            / l_child) ∧
    g_bwd * 10 ^ 7
      == 10 ^ 7 * 10 ^ 7
         * (r_parent * r_child ^ 2
            / (ra_parent * r_child ^ 2 * l_parent + ra_child * r_parent ^ 2 * l_child)
            / l_parent).
Proof.
  intros H1 H2 H3 H4 H5 H6.
  destruct (compute_coupling_cond_pos _ _ _ _ _ _ H4 H3 H2 H1 H6 H5)
    as (gf & Hgf & _ & Hf).
  destruct (compute_coupling_cond_pos _ _ _ _ _ _ H3 H4 H1 H2 H5 H6)
    as (gb & Hgb & _ & Hb).
  exists gf, gb. split; [done|]. split; [done|]. split.
  { unfold Cell.init_cell_conds. by rewrite Hgf, Hgb. }
  split.
  - rewrite Hf. ring.
  - rewrite Hb. ring.
Qed.

Lemma init_cell_conds_scaled_twice_witness :
  ∃ g_fwd g_bwd,
    compute_coupling_cond 1 2 5000 5000 10 20 = Some g_fwd ∧
    compute_coupling_cond 2 1 5000 5000 20 10 = Some g_bwd ∧
    Cell.init_cell_conds 5000 5000 2 1 20 10
      = (Some (g_fwd * 10 ^ 7), Some (g_bwd * 10 ^ 7)) ∧
    g_fwd * 10 ^ 7
      == 10 ^ 7 * 10 ^ 7 * (1 * 2 ^ 2 / (5000 * 2 ^ 2 * 10 + 5000 * 1 ^ 2 * 20) / 10) ∧
    g_bwd * 10 ^ 7
      == 10 ^ 7 * 10 ^ 7 * (2 * 1 ^ 2 / (5000 * 1 ^ 2 * 20 + 5000 * 2 ^ 2 * 10) / 20).
Proof. apply (init_cell_conds_scaled_twice 5000 5000 2 1 20 10); reflexivity. Defined.

End conductance.

(** ** Levels *)

Section levels.
Local Open Scope Z_scope.

Lemma np_index_in_range (n : nat) (p : Z) :
  0 ≤ p < Z.of_nat n → np_index n p = Ok (Z.to_nat p).
Proof. intros Hp. unfold np_index. by rewrite bool_decide_eq_true_2. Qed.

Lemma levels_step_upto (parents levels : list Z) (i : nat) (p : Z) :
  topologically_sorted parents →
  parents !! i = Some p →
  levels_upto parents levels i →
  ∃ levels', levels_step levels i p = Ok levels' ∧
             levels_upto parents levels' (S i).
Proof.
  intros Hsorted Hi [Hlen Hinv].
  assert (i < length levels)%nat as Hilt.
  { rewrite Hlen. by eapply lookup_lt_Some. }
  unfold levels_step. case_bool_decide as Hroot.
  - eexists. split; [done|]. split; [by rewrite length_insert|].
    intros b q Hb Hq. destruct (decide (b = i)) as [->|Hne].
    + assert (q = p) as -> by congruence. split; [|done].
      intros _. by apply list_lookup_insert_eq.
    + destruct (Hinv b q ltac:(lia) Hq) as [Hr Hn]. split.
      * intros ?. rewrite list_lookup_insert_ne by done. auto.
      * intros Hq'. destruct (Hn Hq') as (lp & Hlp & Hlb).
        destruct (Hsorted b q Hq) as [?|?]; [done|].
        exists lp. rewrite !list_lookup_insert_ne by lia. done.
  - destruct (Hsorted i p Hi) as [?|Hp]; [done|].
    rewrite np_index_in_range by lia. simpl.
    destruct (lookup_lt_is_Some_2 levels (Z.to_nat p) ltac:(lia)) as [lp Hlp].
    rewrite (list_lookup_total_correct _ _ _ Hlp).
    eexists. split; [done|]. split; [by rewrite length_insert|].
    intros b q Hb Hq. destruct (decide (b = i)) as [->|Hne].
    + assert (q = p) as -> by congruence. split; [done|].
      intros _. exists lp. rewrite list_lookup_insert_ne by lia.
      split; [done|]. by apply list_lookup_insert_eq.
    + destruct (Hinv b q ltac:(lia) Hq) as [Hr Hn]. split.
      * intros ?. rewrite list_lookup_insert_ne by done. auto.
      * intros Hq'. destruct (Hn Hq') as (lq & Hlq & Hlb).
        destruct (Hsorted b q Hq) as [?|?]; [done|].
        exists lq. rewrite !list_lookup_insert_ne by lia. done.
Qed.

Lemma levels_loop_upto (parents : list Z) :
  topologically_sorted parents →
  ∀ (ps : list Z) (i : nat) (levels : list Z),
    drop i parents = ps →
    levels_upto parents levels i →
    ∃ final, levels_loop i ps levels = Ok final ∧
             levels_upto parents final (length parents).
Proof.
  intros Hsorted ps. induction ps as [|p ps IH]; intros i levels Hdrop Hinv.
  - exists levels. split; [done|].
    assert (length parents ≤ i)%nat as Hge.
    { apply (f_equal length) in Hdrop. rewrite length_drop in Hdrop.
      simpl in Hdrop. lia. }
    destruct Hinv as [Hlen Hinv]. split; [done|].
    intros b q Hb Hq. apply Hinv; [lia|done].
  - assert (parents !! i = Some p) as Hi.
    { rewrite <- (Nat.add_0_r i), <- lookup_drop, Hdrop. done. }
    destruct (levels_step_upto parents levels i p Hsorted Hi Hinv)
      as (levels' & Hstep & Hinv').
    simpl. rewrite Hstep. simpl. apply IH; [|done].
    rewrite (drop_S _ _ _ Hi) in Hdrop. congruence.
Qed.

(** C3: on a parent array whose non-root entries point to earlier branches,
    [compute_levels] returns an array of the same length with level 0 at
    every root and [level[b] = level[parent[b]] + 1] at every other
    branch. *)
Theorem compute_levels_correct (parents : list Z) :
  topologically_sorted parents →
  ∃ levels,
    compute_levels parents = Ok levels ∧
    length levels = length parents ∧
    (∀ b : nat, parents !! b = Some (-1) → levels !! b = Some 0) ∧
    (∀ (b : nat) (p : Z), parents !! b = Some p → p ≠ -1 →
       ∃ lp, levels !! Z.to_nat p = Some lp ∧ levels !! b = Some (lp + 1)).
Proof.
  intros Hsorted. unfold compute_levels.
  destruct (levels_loop_upto parents Hsorted parents 0
              (replicate (length parents) 0)) as (final & Hrun & Hlen & Hinv).
  - done.
  - split; [by rewrite length_replicate|]. intros b p Hb. lia.
  - exists final. split; [done|]. split; [done|]. split.
    + intros b Hb. by apply (Hinv b (-1) (lookup_lt_Some _ _ _ Hb) Hb).
    + intros b p Hb Hp. by apply (Hinv b p (lookup_lt_Some _ _ _ Hb) Hb).
Qed.

Lemma compute_levels_correct_witness :
  ∃ levels,
    compute_levels [-1; 0; 1; 1; 0; 4] = Ok levels ∧
    length levels = length [-1; 0; 1; 1; 0; 4] ∧
    (∀ b : nat, [-1; 0; 1; 1; 0; 4] !! b = Some (-1) → levels !! b = Some 0) ∧
    (∀ (b : nat) (p : Z), [-1; 0; 1; 1; 0; 4] !! b = Some p → p ≠ -1 →
       ∃ lp, levels !! Z.to_nat p = Some lp ∧ levels !! b = Some (lp + 1)).
Proof.
  apply (compute_levels_correct [-1; 0; 1; 1; 0; 4]).
  intros b p Hb. do 6 (destruct b as [|b]; [inversion Hb; lia|]). inversion Hb.
Defined.

Example compute_levels_sample :
  compute_levels [-1; 0; 1; 1; 0; 4] = Ok [0; 1; 2; 2; 1; 2].
Proof. reflexivity. Qed.

End levels.

(** ** Remapping to consecutive ids *)

Section remap.
Local Open Scope Z_scope.

Lemma le_sorted_NoDup_lt (l : list Z) :
  StronglySorted Z.le l → NoDup l → StronglySorted Z.lt l.
Proof.
  induction 1 as [|x l Hl IH Hx]; intros Hnd; [constructor|].
  apply NoDup_cons in Hnd as [Hnotin Hnd]. constructor; [by apply IH|].
  rewrite Forall_forall in Hx |- *. intros y Hy.
  specialize (Hx y Hy). assert (x ≠ y) by (intros ->; done). lia.
Qed.

Lemma lt_sorted_NoDup (l : list Z) : StronglySorted Z.lt l → NoDup l.
Proof.
  induction 1 as [|x l Hl IH Hx]; [constructor|].
  apply NoDup_cons. split; [|done].
  intros Hin. rewrite Forall_forall in Hx. specialize (Hx x Hin). lia.
Qed.

Lemma unique_Permutation (arr : list Z) : unique arr ≡ₚ remove_dups arr.
Proof. apply merge_sort_Permutation. Qed.

Lemma elem_of_unique (arr : list Z) (x : Z) : x ∈ unique arr ↔ x ∈ arr.
Proof. by rewrite unique_Permutation, elem_of_remove_dups. Qed.

Lemma NoDup_unique (arr : list Z) : NoDup (unique arr).
Proof. rewrite unique_Permutation. apply NoDup_remove_dups. Qed.

Lemma unique_sorted (arr : list Z) : StronglySorted Z.lt (unique arr).
Proof.
  apply le_sorted_NoDup_lt; [|apply NoDup_unique].
  apply StronglySorted_merge_sort; apply _.
Qed.

Lemma length_unique (arr : list Z) : length (unique arr) = distinct_count arr.
Proof. unfold distinct_count. by rewrite unique_Permutation. Qed.

Lemma index_of_lookup (u : list Z) (i : nat) (x : Z) :
  NoDup u → u !! i = Some x → index_of x u = i.
Proof.
  intros Hnd Hi. unfold index_of.
  assert (list_find (λ y, y = x) u = Some (i, x)) as ->; [|done].
  apply list_find_Some. split; [done|]. split; [done|].
  intros j y Hj Hlt ->. pose proof (NoDup_lookup _ _ _ _ Hnd Hi Hj). lia.
Qed.

Lemma index_of_elem_of (u : list Z) (x : Z) :
  NoDup u → x ∈ u → u !! index_of x u = Some x.
Proof.
  intros Hnd [i Hi]%list_elem_of_lookup. by rewrite (index_of_lookup u i x).
Qed.

Lemma filter_lt_above (x : Z) (u : list Z) :
  Forall (Z.lt x) u → filter (λ y, y < x) u = [].
Proof.
  induction 1 as [|a u Ha Hu IH]; [done|].
  rewrite filter_cons_False by lia. done.
Qed.

Lemma sorted_rank (u : list Z) (i : nat) (x : Z) :
  StronglySorted Z.lt u → u !! i = Some x →
  length (filter (λ y, y < x) u) = i.
Proof.
  intros Hs. revert i. induction Hs as [|a u Hu IH Ha]; intros i Hi; [done|].
  rewrite Forall_forall in Ha. destruct i as [|i]; simpl in Hi.
  - injection Hi as ->. rewrite filter_cons_False by lia.
    rewrite filter_lt_above; [done|]. by apply Forall_forall.
  - assert (a < x) by (apply Ha; by eapply list_elem_of_lookup_2).
    rewrite filter_cons_True by done. simpl. f_equal. by apply IH.
Qed.

Lemma sorted_lookup_lt (u : list Z) (i j : nat) (x y : Z) :
  StronglySorted Z.lt u → (i < j)%nat →
  u !! i = Some x → u !! j = Some y → x < y.
Proof.
  intros Hs. revert i j. induction Hs as [|a u Hu IH Ha]; intros i j Hij Hi Hj; [done|].
  destruct j as [|j]; [lia|]. simpl in Hj. destruct i as [|i]; simpl in Hi.
  - injection Hi as ->. rewrite Forall_forall in Ha.
    apply Ha. by eapply list_elem_of_lookup_2.
  - apply (IH i j); [lia|done..].
Qed.

Lemma sorted_lookup_lt_iff (u : list Z) (i j : nat) (x y : Z) :
  StronglySorted Z.lt u →
  u !! i = Some x → u !! j = Some y → (x < y ↔ (i < j)%nat).
Proof.
  intros Hs Hi Hj. split; [|by intros; eapply sorted_lookup_lt].
  intros Hxy. destruct (Nat.lt_trichotomy i j) as [?|[->|Hji]]; [done| |].
  - assert (x = y) by congruence. lia.
  - pose proof (sorted_lookup_lt u j i y x Hs Hji Hj Hi). lia.
Qed.

Lemma rank_in_unique (arr : list Z) (i : nat) (x : Z) :
  unique arr !! i = Some x → rank_in arr x = i.
Proof.
  intros Hi. unfold rank_in. rewrite <- (unique_Permutation arr).
  apply sorted_rank; [apply unique_sorted|done].
Qed.

Lemma remap_to_consecutive_lookup (arr : list Z) (i : nat) (x : Z) :
  arr !! i = Some x →
  remap_to_consecutive arr !! i = Some (Z.of_nat (index_of x (unique arr))).
Proof.
  intros Hi. unfold remap_to_consecutive, unique_inverse.
  by rewrite list_lookup_fmap, Hi.
Qed.

Lemma index_of_unique_inj (arr : list Z) (x y : Z) :
  x ∈ arr → y ∈ arr →
  index_of x (unique arr) = index_of y (unique arr) → x = y.
Proof.
  intros Hx Hy Heq.
  pose proof (index_of_elem_of (unique arr) x (NoDup_unique arr)
                (proj2 (elem_of_unique arr x) Hx)) as Hlx.
  pose proof (index_of_elem_of (unique arr) y (NoDup_unique arr)
                (proj2 (elem_of_unique arr y) Hy)) as Hly.
  rewrite Heq in Hlx. congruence.
Qed.

Lemma elem_of_remap_to_consecutive (arr : list Z) (v : Z) :
  v ∈ remap_to_consecutive arr ↔ 0 ≤ v < Z.of_nat (distinct_count arr).
Proof.
  rewrite <- length_unique. unfold remap_to_consecutive, unique_inverse.
  rewrite list_elem_of_fmap. split.
  - intros (x & -> & Hx).
    apply elem_of_unique, (index_of_elem_of _ _ (NoDup_unique arr)) in Hx.
    apply lookup_lt_Some in Hx. lia.
  - intros Hv.
    destruct (lookup_lt_is_Some_2 (unique arr) (Z.to_nat v) ltac:(lia)) as [x Hx].
    exists x. split.
    + rewrite (index_of_lookup _ _ _ (NoDup_unique arr) Hx). lia.
    + apply elem_of_unique. by eapply list_elem_of_lookup_2.
Qed.

(** On a JAX array [remap_to_consecutive] keeps the length; two positions
    get the same output exactly when they held the same input; the
    outputs are exactly the numbers [0 .. k-1]; and the output of an entry
    is its rank among the distinct inputs. *)
Lemma remap_to_consecutive_ranks (arr : list Z) :
  length (remap_to_consecutive arr) = length arr ∧
  (∀ (i j : nat) (x y : Z), arr !! i = Some x → arr !! j = Some y →
     (remap_to_consecutive arr !! i = remap_to_consecutive arr !! j ↔ x = y)) ∧
  (∀ v : Z, v ∈ remap_to_consecutive arr ↔ 0 ≤ v < Z.of_nat (distinct_count arr)) ∧
  (∀ (i : nat) (x : Z), arr !! i = Some x →
     remap_to_consecutive arr !! i = Some (Z.of_nat (rank_in arr x))) ∧
  (∀ (i j : nat) (x y : Z) (v w : Z), arr !! i = Some x → arr !! j = Some y →
     remap_to_consecutive arr !! i = Some v →
     remap_to_consecutive arr !! j = Some w →
     (x < y ↔ v < w)).
Proof.
  assert (∀ (i : nat) (x : Z), arr !! i = Some x →
     remap_to_consecutive arr !! i = Some (Z.of_nat (rank_in arr x))) as Hrank.
  { intros i x Hi. rewrite (remap_to_consecutive_lookup arr i x Hi).
    do 2 f_equal. symmetry. apply rank_in_unique.
    apply index_of_elem_of; [apply NoDup_unique|].
    apply elem_of_unique. by eapply list_elem_of_lookup_2. }
  split; [|split; [|split; [|split]]].
  - unfold remap_to_consecutive, unique_inverse. by rewrite length_fmap.
  - intros i j x y Hi Hj.
    rewrite (remap_to_consecutive_lookup arr i x Hi),
            (remap_to_consecutive_lookup arr j y Hj).
    split; [|by intros ->].
    intros Heq. apply (index_of_unique_inj arr).
    + by eapply list_elem_of_lookup_2.
    + by eapply list_elem_of_lookup_2.
    + injection Heq. lia.
  - apply elem_of_remap_to_consecutive.
  - done.
  - intros i j x y v w Hi Hj Hv Hw.
    rewrite (remap_to_consecutive_lookup arr i x Hi) in Hv.
    rewrite (remap_to_consecutive_lookup arr j y Hj) in Hw.
    injection Hv as <-. injection Hw as <-.
    pose proof (index_of_elem_of (unique arr) x (NoDup_unique arr)
      (proj2 (elem_of_unique arr x) (list_elem_of_lookup_2 _ _ _ Hi))) as Hlx.
    pose proof (index_of_elem_of (unique arr) y (NoDup_unique arr)
      (proj2 (elem_of_unique arr y) (list_elem_of_lookup_2 _ _ _ Hj))) as Hly.
    rewrite (sorted_lookup_lt_iff _ _ _ _ _ (unique_sorted arr) Hlx Hly). lia.
Qed.

Lemma int32_in_range (z : Z) : - 2 ^ 31 ≤ z < 2 ^ 31 → int32 z = z.
Proof.
  intros Hz. unfold int32. rewrite Z.mod_small by lia. lia.
Qed.

Lemma jnp_asarray_in_range (arr : list Z) :
  Forall (λ x, - 2 ^ 31 ≤ x < 2 ^ 31) arr → jnp_asarray arr = arr.
Proof.
  intros Harr. unfold jnp_asarray.
  rewrite <- (list_fmap_id arr) at 2.
  apply Forall_fmap_ext. eapply Forall_impl; [exact Harr|].
  intros x Hx. by apply int32_in_range.
Qed.

(** C4, as stated, fails: an integer array need not fit 32 bits.  On the
    int64 array [[2^32 + 1; 1; 0]] the conversion to a JAX array turns the
    first entry into [1], so the first two positions get the same output
    although their inputs differ, and only two ids are given to three
    distinct inputs. *)
Lemma remap_to_consecutive_truncates :
  remap_to_consecutive (jnp_asarray [2 ^ 32 + 1; 1; 0]) = [1; 1; 0] ∧
  distinct_count [2 ^ 32 + 1; 1; 0] = 3%nat ∧
  ¬ (∀ (arr : list Z) (i j : nat) (x y : Z),
       arr !! i = Some x → arr !! j = Some y →
       (remap_to_consecutive (jnp_asarray arr) !! i
        = remap_to_consecutive (jnp_asarray arr) !! j ↔ x = y)).
Proof.
  split; [reflexivity|]. split; [reflexivity|].
  intros H.
  pose proof (proj1 (H [2 ^ 32 + 1; 1; 0] 0%nat 1%nat (2 ^ 32 + 1) 1
                       eq_refl eq_refl) eq_refl) as E.
  discriminate E.
Qed.

(** C4 (amended): for every integer array whose entries fit 32 bits,
    [remap_to_consecutive] returns an array of the same length; two
    positions get the same output exactly when they held the same input;
    the outputs are exactly the numbers [0 .. k-1], [k] the number of
    distinct inputs; and the output of an entry is its rank among the
    distinct inputs, so the smallest distinct input is sent to 0, the next
    one to 1, and so on. *)
Theorem remap_to_consecutive_correct (arr : list Z) :
  Forall (λ x, - 2 ^ 31 ≤ x < 2 ^ 31) arr →
  length (remap_to_consecutive (jnp_asarray arr)) = length arr ∧
  (∀ (i j : nat) (x y : Z), arr !! i = Some x → arr !! j = Some y →
     (remap_to_consecutive (jnp_asarray arr) !! i
      = remap_to_consecutive (jnp_asarray arr) !! j ↔ x = y)) ∧
  (∀ v : Z, v ∈ remap_to_consecutive (jnp_asarray arr)
            ↔ 0 ≤ v < Z.of_nat (distinct_count arr)) ∧
  (∀ (i : nat) (x : Z), arr !! i = Some x →
     remap_to_consecutive (jnp_asarray arr) !! i
     = Some (Z.of_nat (rank_in arr x))) ∧
  (∀ (i j : nat) (x y : Z) (v w : Z), arr !! i = Some x → arr !! j = Some y →
     remap_to_consecutive (jnp_asarray arr) !! i = Some v →
     remap_to_consecutive (jnp_asarray arr) !! j = Some w →
     (x < y ↔ v < w)).
Proof.
  intros Harr. rewrite (jnp_asarray_in_range arr Harr).
  apply remap_to_consecutive_ranks.
Qed.

Global Instance Zlt_antisymm : AntiSymm (=) Z.lt.
Proof. intros x y ??. lia. Qed.

Lemma sorted_seq (k : nat) : StronglySorted Z.lt (Z.of_nat <$> seq 0 k).
Proof.
  generalize 0%nat. induction k as [|k IH]; intros s; simpl; constructor.
  - apply IH.
  - apply Forall_forall. intros y (n & -> & Hn)%list_elem_of_fmap.
    apply elem_of_seq in Hn. lia.
Qed.

Lemma unique_remap_to_consecutive (arr : list Z) :
  unique (remap_to_consecutive arr) = Z.of_nat <$> seq 0 (distinct_count arr).
Proof.
  apply (StronglySorted_unique Z.lt); [apply unique_sorted|apply sorted_seq|].
  apply NoDup_Permutation.
  - apply NoDup_unique.
  - apply lt_sorted_NoDup, sorted_seq.
  - intros v. rewrite elem_of_unique, elem_of_remap_to_consecutive.
    rewrite list_elem_of_fmap. split.
    + intros Hv. exists (Z.to_nat v). split; [lia|]. apply elem_of_seq. lia.
    + intros (n & -> & Hn). apply elem_of_seq in Hn. lia.
Qed.

Lemma remap_to_consecutive_correct_witness :
  remap_to_consecutive (jnp_asarray [5; -3; 5; 0]) !! 0%nat
  = remap_to_consecutive (jnp_asarray [5; -3; 5; 0]) !! 2%nat ↔ 5 = 5.
Proof.
  refine (proj1 (proj2 (remap_to_consecutive_correct [5; -3; 5; 0] _))
            0%nat 2%nat 5 5 _ _).
  - repeat constructor; lia.
  - reflexivity.
  - reflexivity.
Defined.

(** C5: [remap_to_consecutive] leaves its own output unchanged. *)
Theorem remap_to_consecutive_idempotent (arr : list Z) :
  remap_to_consecutive (remap_to_consecutive arr) = remap_to_consecutive arr.
Proof.
  unfold remap_to_consecutive at 1, unique_inverse.
  rewrite (unique_remap_to_consecutive arr).
  rewrite <- (list_fmap_id (remap_to_consecutive arr)) at 2.
  apply Forall_fmap_ext, Forall_forall.
  intros v Hv. apply elem_of_remap_to_consecutive in Hv.
  rewrite (index_of_lookup _ (Z.to_nat v) v).
  - simpl. lia.
  - apply lt_sorted_NoDup, sorted_seq.
  - rewrite list_lookup_fmap, lookup_seq_lt by lia. simpl. f_equal. lia.
Qed.

Example remap_to_consecutive_docstring :
  remap_to_consecutive [0; 0; 1; 4; 4; 6; 6] = [0; 0; 1; 2; 2; 3; 3].
Proof. reflexivity. Qed.

Example remap_to_consecutive_unsorted :
  remap_to_consecutive [5; -3; 5; 0] = [2; 0; 2; 1].
Proof. reflexivity. Qed.

End remap.

(** ** Grouped sums *)

Section grouped_sums.
Local Open Scope Q_scope.

Lemma scatter_add1_length (n : nat) (acc : list Q) (iv : Z * Q) :
  length (scatter_add1 n acc iv) = length acc.
Proof.
  destruct iv as [i v]. unfold scatter_add1.
  repeat case_bool_decide; by rewrite ?length_alter.
Qed.

Lemma scatter_add1_lookup (n : nat) (acc : list Q) (i : Z) (v : Q) (j : nat) (s : Q) :
  length acc = n → (0 ≤ i < Z.of_nat n)%Z →
  acc !! j = Some s →
  scatter_add1 n acc (i, v) !! j
  = Some (if decide (i = Z.of_nat j) then s + v else s).
Proof.
  intros Hlen Hi Hj. unfold scatter_add1.
  rewrite (bool_decide_eq_false_2 (i < 0)%Z) by lia.
  rewrite bool_decide_eq_true_2 by lia.
  case_decide as Hij.
  - subst i. rewrite Nat2Z.id. by rewrite list_lookup_alter_eq, Hj.
  - rewrite list_lookup_alter_ne by lia. done.
Qed.

Lemma scatter_add_fold (n : nat) (ivs : list (Z * Q)) :
  Forall (λ iv, (0 ≤ fst iv < Z.of_nat n)%Z) ivs →
  ∀ (acc : list Q) (j : nat) (s : Q),
    length acc = n → acc !! j = Some s →
    ∃ t, foldl (scatter_add1 n) acc ivs !! j = Some t ∧
         t == s + Qsum (group_values j ivs).
Proof.
  induction 1 as [|[i v] ivs Hi Hivs IH]; intros acc j s Hlen Hj; simpl.
  - exists s. split; [done|]. unfold Qsum. simpl. ring.
  - simpl in Hi.
    pose proof (scatter_add1_lookup n acc i v j s Hlen Hi Hj) as Hstep.
    destruct (IH _ j _ (eq_trans (scatter_add1_length n acc (i, v)) Hlen) Hstep)
      as (t & Ht & Heq).
    exists t. split; [done|]. rewrite Heq. unfold group_values.
    case_decide as Hij.
    + rewrite filter_cons_True by done. rewrite fmap_cons.
      unfold Qsum. cbn [foldr snd]. ring.
    + rewrite filter_cons_False by done. reflexivity.
Qed.

Lemma foldl_scatter_add_length (n : nat) (ivs : list (Z * Q)) (acc : list Q) :
  length (foldl (scatter_add1 n) acc ivs) = length acc.
Proof.
  revert acc. induction ivs as [|iv ivs IH]; intros acc; simpl; [done|].
  by rewrite IH, scatter_add1_length.
Qed.

Lemma broadcast_to_same_length (k : nat) (values : list Q) :
  length values = k → broadcast_to k values = Ok values.
Proof.
  intros Hlen. unfold broadcast_to. case_bool_decide as Hk.
  - subst k. by rewrite (nil_length_inv values Hk).
  - by rewrite bool_decide_eq_true_2.
Qed.

(** C7: for indices in [0, n) and as many values, [group_and_sum] returns
    a vector of length [n] whose [j]-th entry is the sum of the values
    with group index [j]; with [n = 0] it returns the empty vector, without
    an error, whatever the other arguments are. *)
Theorem group_and_sum_correct (values_to_sum : list Q) (inds_to_group_by : list Z)
    (num_branchpoints : nat) :
  length inds_to_group_by = length values_to_sum →
  Forall (λ i, (0 ≤ i < Z.of_nat num_branchpoints)%Z) inds_to_group_by →
  ∃ group_sums,
    group_and_sum values_to_sum inds_to_group_by num_branchpoints = Ok group_sums ∧
    length group_sums = num_branchpoints ∧
    (∀ j : nat, (j < num_branchpoints)%nat →
       ∃ t, group_sums !! j = Some t ∧
            t == Qsum (group_values j (zip inds_to_group_by values_to_sum))) ∧
    (num_branchpoints = 0%nat → group_sums = []) ∧
    (∀ values inds, group_and_sum values inds 0 = Ok []).
Proof.
  intros Hlen Hinds. unfold group_and_sum. case_bool_decide as Hn.
  - rewrite broadcast_to_same_length by done. simpl.
    eexists. split; [done|].
    split; [by rewrite foldl_scatter_add_length, length_replicate|].
    split; [|split; [lia|done]].
    intros j Hj.
    destruct (scatter_add_fold num_branchpoints
                (zip inds_to_group_by values_to_sum)) with
      (acc := replicate num_branchpoints 0) (j := j) (s := 0)
      as (t & Ht & Heq).
    + clear Hlen. revert values_to_sum.
      induction Hinds as [|i inds Hi Hinds IH]; intros [|v vs]; simpl;
        constructor; [done|apply IH].
    + by rewrite length_replicate.
    + by apply lookup_replicate_2.
    + exists t. split; [done|]. rewrite Heq. ring.
  - assert (num_branchpoints = 0%nat) as -> by lia.
    exists []. split; [done|]. split; [done|]. split; [|done].
    intros j Hj. lia.
Qed.

Lemma group_and_sum_correct_witness :
  ∃ group_sums,
    group_and_sum [3; 4; 5] [0; 0; 1]%Z 2 = Ok group_sums ∧
    length group_sums = 2%nat ∧
    (∀ j : nat, (j < 2)%nat →
       ∃ t, group_sums !! j = Some t ∧
            t == Qsum (group_values j (zip [0; 0; 1]%Z [3; 4; 5]))) ∧
    (2%nat = 0%nat → group_sums = []) ∧
    (∀ values inds, group_and_sum values inds 0 = Ok []).
Proof.
  apply (group_and_sum_correct [3; 4; 5] [0; 0; 1]%Z 2).
  - reflexivity.
  - repeat constructor; simpl; lia.
Defined.

Example group_and_sum_sample : group_and_sum [3; 4; 5] [0; 0; 1]%Z 2 = Ok [7; 5].
Proof. reflexivity. Qed.

Example group_and_sum_no_branchpoints : group_and_sum [] [] 0 = Ok [].
Proof. reflexivity. Qed.

End grouped_sums.

(** ** Axial conductances *)

Section axial.
Local Open Scope Q_scope.
Local Arguments Qpower : simpl never.

Lemma take_fmap {A} (a : list Q) (f : A → nat) (rows : list A) :
  a ≠ [] → take a (f <$> rows) = Ok ((λ e, sel a (f e)) <$> rows).
Proof.
  intros Ha. unfold take. induction rows as [|e rows IH]; [done|].
  rewrite !fmap_cons. cbn [mapM]. rewrite IH.
  destruct (lookup_lt_is_Some_2 a (f e `min` (length a - 1))%nat) as [x Hx].
  { destruct a; [done|]. simpl. lia. }
  unfold sel. rewrite (list_lookup_total_correct _ _ _ Hx), Hx. done.
Qed.

Lemma sel_elem_of (a : list Q) (i : nat) : a ≠ [] → sel a i ∈ a.
Proof.
  intros Ha. unfold sel.
  destruct (lookup_lt_is_Some_2 a (i `min` (length a - 1))%nat) as [x Hx].
  { destruct a; [done|]. simpl. lia. }
  rewrite (list_lookup_total_correct _ _ _ Hx). by eapply list_elem_of_lookup_2.
Qed.

Lemma vmap3_fmap {A} (f : Q → Q → Q → option Q) (g1 g2 g3 : A → Q) (rows : list A) :
  vmap3 f (g1 <$> rows) (g2 <$> rows) (g3 <$> rows)
  = Ok ((λ e, f (g1 e) (g2 e) (g3 e)) <$> rows).
Proof.
  induction rows as [|e rows IH]; [done|].
  rewrite !fmap_cons. cbn [vmap3]. by rewrite IH.
Qed.

Lemma vmap6_fmap {A} (f : Q → Q → Q → Q → Q → Q → option Q)
    (g1 g2 g3 g4 g5 g6 : A → Q) (rows : list A) :
  vmap6 f (g1 <$> rows) (g2 <$> rows) (g3 <$> rows)
          (g4 <$> rows) (g5 <$> rows) (g6 <$> rows)
  = Ok ((λ e, f (g1 e) (g2 e) (g3 e) (g4 e) (g5 e) (g6 e)) <$> rows).
Proof.
  induction rows as [|e rows IH]; [done|].
  rewrite !fmap_cons. cbn [vmap6]. by rewrite IH.
Qed.

Lemma vdiv_fmap {A} (h : A → option Q) (k : A → Q) (rows : list A) :
  vdiv (h <$> rows) (k <$> rows) = (λ e, h e ≫= λ v, fdiv v (k e)) <$> rows.
Proof.
  unfold vdiv. induction rows as [|e rows IH]; [done|].
  rewrite !fmap_cons. cbn [zip_with]. by rewrite IH.
Qed.

Lemma vscale_fmap {A} (c : Q) (h : A → option Q) (rows : list A) :
  vscale c (h <$> rows) = (λ e, (λ v, v * c) <$> h e) <$> rows.
Proof. unfold vscale. by rewrite <- list_fmap_compose. Qed.

Lemma fmap_nil_of_length {A B} (f : A → B) (l : list A) :
  ¬ (0 < length (f <$> l))%nat → l = [].
Proof. destruct l; [done|]. simpl. lia. Qed.

(** With the four arrays present and non-empty, [compute_axial_conductances]
    never raises: it returns the three groups of entries, in order. *)
Lemma compute_axial_conductances_entries (comp_edges : list comp_edge)
    (params : gmap string (list Q)) (rad ra len cm : list Q) :
  params !! "radius" = Some rad →
  params !! "axial_resistivity" = Some ra →
  params !! "length" = Some len →
  params !! "capacitance" = Some cm →
  rad ≠ [] → ra ≠ [] → len ≠ [] → cm ≠ [] →
  compute_axial_conductances comp_edges params
  = Ok ((c2c_entry rad ra len cm <$> rows_of_type [0%Z] comp_edges)
        ++ (bp2c_entry rad ra len cm <$> rows_of_type [1%Z; 2%Z] comp_edges)
        ++ (c2bp_entry rad ra len <$> rows_of_type [3%Z; 4%Z] comp_edges)).
Proof.
  intros Hrad Hra Hlen Hcm Nrad Nra Nlen Ncm.
  unfold compute_axial_conductances, getitem.
  rewrite Hrad, Hra, Hlen, Hcm. cbn [mbind result_bind].
  rewrite !take_fmap by done. cbn [mbind result_bind].
  rewrite vmap6_fmap, !vmap3_fmap. cbn [mbind result_bind].
  rewrite !vdiv_fmap, vscale_fmap.
  repeat case_bool_decide;
    repeat match goal with
    | H : ¬ (0 < length (_ <$> ?l))%nat |- _ =>
        rewrite (fmap_nil_of_length _ l H); clear H
    end; done.
Qed.

Lemma fmap_Some_Forall2 {A} (f : A → option Q) (h : A → Q) (rows : list A) :
  (∀ e, ∃ g, f e = Some g ∧ g == h e) →
  ∃ gs, f <$> rows = Some <$> gs ∧ Forall2 (λ e g, g == h e) rows gs.
Proof.
  intros Hf. induction rows as [|e rows (gs & Hgs & Hall)].
  - exists []. split; [done|constructor].
  - destruct (Hf e) as (g & Hg & Heq). exists (g :: gs). split.
    + by rewrite !fmap_cons, Hg, Hgs.
    + by constructor.
Qed.

Section positive.
Context (rad ra len cm : list Q).
Hypothesis rad_pos : Forall (λ x, 0 < x) rad.
Hypothesis ra_pos : Forall (λ x, 0 < x) ra.
Hypothesis len_pos : Forall (λ x, 0 < x) len.
Hypothesis cm_pos : Forall (λ x, 0 < x) cm.
Hypothesis rad_nonempty : rad ≠ [].
Hypothesis ra_nonempty : ra ≠ [].
Hypothesis len_nonempty : len ≠ [].
Hypothesis cm_nonempty : cm ≠ [].

Lemma sel_pos (a : list Q) (i : nat) :
  Forall (λ x, 0 < x) a → a ≠ [] → 0 < sel a i.
Proof.
  intros Hall Ha. rewrite Forall_forall in Hall. by apply Hall, sel_elem_of.
Qed.

Lemma c2c_entry_pos (e : comp_edge) :
  ∃ g, c2c_entry rad ra len cm e = Some g ∧ g == c2c_conductance rad ra len cm e.
Proof.
  unfold c2c_entry, c2c_conductance.
  destruct (compute_coupling_cond_pos
              (sel rad (sink e)) (sel rad (source e))
              (sel ra (sink e)) (sel ra (source e))
              (sel len (sink e)) (sel len (source e)))
    as (v & -> & _ & Heq); try by apply sel_pos.
  pose proof (sel_pos cm (sink e) cm_pos cm_nonempty) as Hcm.
  cbn [mbind option_bind]. rewrite fdiv_Some by lra.
  eexists. split; [done|]. unfold cable_coupling_formula. by rewrite Heq.
Qed.

Lemma bp2c_entry_pos (e : comp_edge) :
  ∃ g, bp2c_entry rad ra len cm e = Some g ∧ g == bp2c_conductance rad ra len cm e.
Proof.
  unfold bp2c_entry, bp2c_conductance.
  pose proof (sel_pos rad (sink e) rad_pos rad_nonempty) as Hrad.
  pose proof (sel_pos ra (sink e) ra_pos ra_nonempty) as Hra.
  pose proof (sel_pos len (sink e) len_pos len_nonempty) as Hlen.
  pose proof (sel_pos cm (sink e) cm_pos cm_nonempty) as Hcm.
  destruct (compute_coupling_cond_branchpoint_pos _ _ _ Hrad Hra Hlen)
    as (v & -> & _ & Heq).
  cbn [mbind option_bind]. rewrite fdiv_Some by lra.
  eexists. split; [done|]. rewrite Heq. field. repeat split; lra.
Qed.

Lemma c2bp_entry_pos (e : comp_edge) :
  ∃ g, c2bp_entry rad ra len e = Some g ∧ g == c2bp_weight rad ra len e.
Proof.
  unfold c2bp_entry, c2bp_weight.
  pose proof (sel_pos rad (source e) rad_pos rad_nonempty) as Hrad.
  pose proof (sel_pos ra (source e) ra_pos ra_nonempty) as Hra.
  pose proof (sel_pos len (source e) len_pos len_nonempty) as Hlen.
  destruct (compute_impact_on_node_pos _ _ _ Hrad Hra Hlen)
    as (v & -> & _ & Heq).
  eexists. split; [done|]. rewrite Heq. field. split; lra.
Qed.

End positive.

(** The rows that each of the three conditions selects. *)
Lemma rows_of_type_filter (comp_edges : list comp_edge) :
  rows_of_type [0%Z] comp_edges = filter (λ e, type e = 0%Z) comp_edges ∧
  rows_of_type [1%Z; 2%Z] comp_edges
  = filter (λ e, type e = 1%Z ∨ type e = 2%Z) comp_edges ∧
  rows_of_type [3%Z; 4%Z] comp_edges
  = filter (λ e, type e = 3%Z ∨ type e = 4%Z) comp_edges.
Proof.
  unfold rows_of_type. repeat split; apply list_filter_iff; intros e;
    rewrite ?elem_of_cons, ?elem_of_nil; tauto.
Qed.

(** C6: on strictly positive (non-empty) parameter arrays,
    [compute_axial_conductances] returns one conductance per row of type
    0..4, laid out as the type-0 rows, then the rows of type 1 or 2, then
    the rows of type 3 or 4, each group in table order.  In exact
    arithmetic, a type-0 entry is the coupling conductance of its sink and
    source divided by the capacitance of the sink; an entry of type 1 or 2
    is the branch-point coupling conductance of its sink divided by the
    capacitance of the sink; an entry of type 3 or 4 is the scaled weight
    of its source, with no division by a capacitance. *)
Theorem compute_axial_conductances_layout (comp_edges : list comp_edge)
    (params : gmap string (list Q)) (rad ra len cm : list Q) :
  params !! "radius" = Some rad →
  params !! "axial_resistivity" = Some ra →
  params !! "length" = Some len →
  params !! "capacitance" = Some cm →
  rad ≠ [] → ra ≠ [] → len ≠ [] → cm ≠ [] →
  Forall (λ x, 0 < x) rad → Forall (λ x, 0 < x) ra →
  Forall (λ x, 0 < x) len → Forall (λ x, 0 < x) cm →
  ∃ conds_c2c conds_bp2c conds_c2bp : list Q,
    compute_axial_conductances comp_edges params
      = Ok (Some <$> (conds_c2c ++ conds_bp2c ++ conds_c2bp)) ∧
    Forall2 (λ e g, g == c2c_conductance rad ra len cm e)
      (filter (λ e, type e = 0%Z) comp_edges) conds_c2c ∧
    Forall2 (λ e g, g == bp2c_conductance rad ra len cm e)
      (filter (λ e, type e = 1%Z ∨ type e = 2%Z) comp_edges) conds_bp2c ∧
    Forall2 (λ e g, g == c2bp_weight rad ra len e)
      (filter (λ e, type e = 3%Z ∨ type e = 4%Z) comp_edges) conds_c2bp.
Proof.
  intros Hrad Hra Hlen Hcm Nrad Nra Nlen Ncm Prad Pra Plen Pcm.
  rewrite (compute_axial_conductances_entries comp_edges params rad ra len cm)
    by done.
  destruct (rows_of_type_filter comp_edges) as (-> & -> & ->).
  destruct (fmap_Some_Forall2 (c2c_entry rad ra len cm)
              (c2c_conductance rad ra len cm)
              (filter (λ e, type e = 0%Z) comp_edges))
    as (g0 & -> & H0); [by apply c2c_entry_pos|].
  destruct (fmap_Some_Forall2 (bp2c_entry rad ra len cm)
              (bp2c_conductance rad ra len cm)
              (filter (λ e, type e = 1%Z ∨ type e = 2%Z) comp_edges))
    as (g1 & -> & H1); [by apply bp2c_entry_pos|].
  destruct (fmap_Some_Forall2 (c2bp_entry rad ra len)
              (c2bp_weight rad ra len)
              (filter (λ e, type e = 3%Z ∨ type e = 4%Z) comp_edges))
    as (g2 & -> & H2); [by apply c2bp_entry_pos|].
  exists g0, g1, g2. by rewrite !fmap_app.
Qed.

End axial.

Section validation.
Local Open Scope Q_scope.

Lemma compute_axial_conductances_layout_witness :
  ∃ conds_c2c conds_bp2c conds_c2bp : list Q,
    compute_axial_conductances sample_edges sample_params
      = Ok (Some <$> (conds_c2c ++ conds_bp2c ++ conds_c2bp)) ∧
    Forall2 (λ e g, g == c2c_conductance [1; 2; 1] [5000; 5000; 2500] [10; 20; 5] [1; 2; 1] e)
      (filter (λ e, type e = 0%Z) sample_edges) conds_c2c ∧
    Forall2 (λ e g, g == bp2c_conductance [1; 2; 1] [5000; 5000; 2500] [10; 20; 5] [1; 2; 1] e)
      (filter (λ e, type e = 1%Z ∨ type e = 2%Z) sample_edges) conds_bp2c ∧
    Forall2 (λ e g, g == c2bp_weight [1; 2; 1] [5000; 5000; 2500] [10; 20; 5] e)
      (filter (λ e, type e = 3%Z ∨ type e = 4%Z) sample_edges) conds_c2bp.
Proof.
  apply (compute_axial_conductances_layout sample_edges sample_params
           [1; 2; 1] [5000; 5000; 2500] [10; 20; 5] [1; 2; 1]);
    try reflexivity; try discriminate; repeat constructor.
Defined.

Example compute_axial_conductances_sample :
  compute_axial_conductances sample_edges sample_params
  = Ok [Some (20000000 # 12000000); Some (40000000 # 3000000);
        Some (10000000 # 62500); Some (10000000 # 62500);
        Some (1000 # 12500); Some (1000 # 50000)].
Proof. vm_compute. reflexivity. Qed.

(** C2, as stated, fails: nothing in [compute_axial_conductances] or in
    the formulas looks at the sign of its inputs.  With the radius array
    [[-1; 1]] and one type-0 edge from compartment 1 into compartment 0
    the call returns normally, and what it returns is the negative
    conductance [-(10^7) / 2]. *)
Lemma compute_axial_conductances_accepts_negative_radius :
  negative_radius_params !! "radius" = Some [-1; 1] ∧
  Exists (λ x, x <= 0) [-1; 1] ∧
  ∃ g, compute_axial_conductances [CompEdge 1 0 0] negative_radius_params
         = Ok [Some g] ∧
       g == -5000000 ∧ g < 0.
Proof.
  split; [reflexivity|]. split; [by left|].
  eexists. split; [vm_compute; reflexivity|]. done.
Qed.

(** C2 (amended): the conductance computation does not validate its
    inputs.  Whenever the four parameter arrays are present and non-empty,
    [compute_axial_conductances] returns a vector without raising,
    whatever the signs of the entries. *)
Theorem conductances_not_validated (comp_edges : list comp_edge)
    (params : gmap string (list Q)) (rad ra len cm : list Q) :
  params !! "radius" = Some rad →
  params !! "axial_resistivity" = Some ra →
  params !! "length" = Some len →
  params !! "capacitance" = Some cm →
  rad ≠ [] → ra ≠ [] → len ≠ [] → cm ≠ [] →
  ∃ conds, compute_axial_conductances comp_edges params = Ok conds.
Proof.
  intros Hrad Hra Hlen Hcm Nrad Nra Nlen Ncm.
  rewrite (compute_axial_conductances_entries comp_edges params rad ra len cm)
    by done.
  by eexists.
Qed.

Lemma conductances_not_validated_witness :
  ∃ conds,
    compute_axial_conductances [CompEdge 1 0 0] negative_radius_params = Ok conds.
Proof.
  apply (conductances_not_validated [CompEdge 1 0 0] negative_radius_params
           [-1; 1] [1; 1] [1; 1] [1; 1]);
    try reflexivity; discriminate.
Defined.

End validation.

(** ** A tree of three branches *)

Section three_branches.
Local Open Scope Z_scope.

(** C8: for the parent array [[-1; 0; 0]] the levels are [[0; 1; 1]]; the
    branch edges built from it give one branch point
    ([par_inds = [0]], [child_belongs_to_branchpoint = [0; 0]]); and the
    index tables have the two rows [(1, 0)] and [(2, 0)] for the children
    and the single row [(0, 0)] for the parents. *)
Theorem three_branch_tree :
  compute_levels [-1; 0; 0] = Ok [0; 1; 1] ∧
  compute_children_and_parents (branch_edges_of [-1; 0; 0])
    = ([0], [1; 2], [0; 0]) ∧
  (let '(par_inds, child_inds, child_belongs_to_branchpoint) :=
     compute_children_and_parents (branch_edges_of [-1; 0; 0]) in
   length par_inds = 1%nat ∧
   compute_morphology_indices_in_levels (length par_inds)
     child_belongs_to_branchpoint par_inds child_inds
   = Ok {| children := [(1, 0); (2, 0)]; parents := [(0, 0)] |}).
Proof. repeat split. Qed.

End three_branches.

(** * Further properties *)

(** ** Levels: failures and bounds *)

Section levels_more.
Local Open Scope Z_scope.

Lemma np_index_Ok (n : nat) (p : Z) :
  is_Ok (np_index n p) ↔ - Z.of_nat n ≤ p < Z.of_nat n.
Proof.
  unfold np_index, is_Ok. repeat case_bool_decide; split; try lia; eauto.
  intros [? ?]. done.
Qed.

Lemma np_index_Raise (n : nat) (p : Z) :
  ¬ (- Z.of_nat n ≤ p < Z.of_nat n) → np_index n p = Raise IndexError.
Proof. intros Hp. unfold np_index. repeat case_bool_decide; try lia; done. Qed.

Lemma levels_step_length (levels levels' : list Z) (i : nat) (p : Z) :
  levels_step levels i p = Ok levels' → length levels' = length levels.
Proof.
  unfold levels_step. case_bool_decide.
  - intros [= <-]. by rewrite length_insert.
  - destruct (np_index (length levels) p); [|done].
    intros [= <-]. by rewrite length_insert.
Qed.

Lemma levels_loop_length (ps : list Z) :
  ∀ (i : nat) (levels final : list Z),
    levels_loop i ps levels = Ok final → length final = length levels.
Proof.
  induction ps as [|p ps IH]; intros i levels final; simpl.
  - by intros [= <-].
  - destruct (levels_step levels i p) as [levels'|] eqn:Hstep; [|done].
    simpl. intros Hrun. rewrite (IH _ _ _ Hrun).
    eauto using levels_step_length.
Qed.

Lemma levels_loop_outcome (ps : list Z) :
  ∀ (i : nat) (levels : list Z),
    (0 < length levels)%nat →
    (Forall (λ p, - Z.of_nat (length levels) ≤ p < Z.of_nat (length levels)) ps
       → is_Ok (levels_loop i ps levels)) ∧
    (¬ Forall (λ p, - Z.of_nat (length levels) ≤ p < Z.of_nat (length levels)) ps
       → levels_loop i ps levels = Raise IndexError).
Proof.
  induction ps as [|p ps IH]; intros i levels Hpos; simpl.
  - split; [by eexists|]. intros []. constructor.
  - unfold levels_step at 1 2. case_bool_decide as Hroot.
    + cbn [mbind result_bind].
      destruct (IH (S i) (<[i:=0]> levels)) as [IHok IHerr];
        [by rewrite length_insert|].
      rewrite length_insert in IHok, IHerr. split.
      * intros Hall. apply IHok. by inversion Hall.
      * intros Hnot. apply IHerr. intros Hall. apply Hnot.
        constructor; [lia|done].
    + destruct (decide (- Z.of_nat (length levels) ≤ p < Z.of_nat (length levels)))
        as [Hp|Hp].
      * destruct (proj2 (np_index_Ok (length levels) p) Hp) as [j ->].
        cbn [mbind result_bind].
        destruct (IH (S i) (<[i:=levels !!! j + 1]> levels)) as [IHok IHerr];
          [by rewrite length_insert|].
        rewrite length_insert in IHok, IHerr. split.
        -- intros Hall. apply IHok. by inversion Hall.
        -- intros Hnot. apply IHerr. intros Hall. apply Hnot. by constructor.
      * rewrite (np_index_Raise _ _ Hp). cbn [mbind result_bind]. split.
        -- intros Hall. by inversion Hall.
        -- done.
Qed.

(** X4: [compute_levels] fails, with an [IndexError], exactly when some entry
    lies outside [[-n, n)], [n] the number of branches; otherwise it
    returns [n] levels, whatever the order of the branches. *)
Theorem compute_levels_outcome (parents : list Z) :
  let n := Z.of_nat (length parents) in
  (Forall (λ p, - n ≤ p < n) parents →
     ∃ levels, compute_levels parents = Ok levels ∧
               length levels = length parents) ∧
  (¬ Forall (λ p, - n ≤ p < n) parents →
     compute_levels parents = Raise IndexError).
Proof.
  unfold compute_levels. destruct parents as [|p ps].
  { split; [by exists []|]. intros []. constructor. }
  set (parents := p :: ps).
  destruct (levels_loop_outcome parents 0 (replicate (length parents) 0))
    as [Hok Herr]; [rewrite length_replicate; simpl; lia|].
  rewrite length_replicate in Hok, Herr. split; [|done].
  intros Hall. destruct (Hok Hall) as [levels Hrun]. exists levels.
  split; [done|]. apply levels_loop_length in Hrun.
  by rewrite length_replicate in Hrun.
Qed.

Lemma compute_levels_outcome_witness :
  (∃ levels, compute_levels [-1; 2; 0] = Ok levels ∧
             length levels = length [-1; 2; 0]) ∧
  compute_levels [-1; 0; 3] = Raise IndexError.
Proof.
  split.
  - apply (proj1 (compute_levels_outcome [-1; 2; 0])).
    repeat constructor; simpl; lia.
  - apply (proj2 (compute_levels_outcome [-1; 0; 3])).
    rewrite !Forall_cons. simpl. lia.
Defined.

(** X5: On a topologically sorted parent array every branch gets a level:
    the result has one level per branch, the level of branch [b] lies
    between 0 and [b], and it is 0 exactly for the roots. *)
Theorem compute_levels_bounds (parents : list Z) :
  topologically_sorted parents →
  ∃ levels,
    compute_levels parents = Ok levels ∧
    length levels = length parents ∧
    ∀ (b : nat) (p : Z), parents !! b = Some p →
      ∃ lb, levels !! b = Some lb ∧
            0 ≤ lb ≤ Z.of_nat b ∧ (lb = 0 ↔ p = -1).
Proof.
  intros Hsorted. unfold compute_levels.
  destruct (levels_loop_upto parents Hsorted parents 0
              (replicate (length parents) 0)) as (final & Hrun & Hlen & Hinv).
  { done. }
  { split; [by rewrite length_replicate|]. intros b p Hb. lia. }
  exists final. split; [done|]. split; [done|].
  assert (∀ (b : nat) (p lb : Z), parents !! b = Some p → final !! b = Some lb →
            0 ≤ lb ≤ Z.of_nat b) as Hbound.
  { intros b. induction b as [b IH] using lt_wf_ind. intros p lb Hb Hlb.
    destruct (Hinv b p (lookup_lt_Some _ _ _ Hb) Hb) as [Hroot Hnon].
    destruct (decide (p = -1)) as [->|Hp].
    - rewrite Hroot in Hlb by done. injection Hlb as <-. lia.
    - destruct (Hnon Hp) as (lp & Hlp & Hlb'). rewrite Hlb' in Hlb.
      injection Hlb as <-.
      destruct (Hsorted b p Hb) as [?|Hrange]; [done|].
      destruct (lookup_lt_is_Some_2 parents (Z.to_nat p)) as [q Hq].
      { apply lookup_lt_Some in Hb. lia. }
      pose proof (IH (Z.to_nat p) ltac:(lia) q lp Hq Hlp). lia. }
  intros b p Hb.
  destruct (lookup_lt_is_Some_2 final b) as [lb Hlb].
  { rewrite Hlen. by eapply lookup_lt_Some. }
  exists lb. split; [done|]. split; [by eapply Hbound|].
  destruct (Hinv b p (lookup_lt_Some _ _ _ Hb) Hb) as [Hroot Hnon]. split.
  - intros ->. destruct (decide (p = -1)) as [|Hp]; [done|].
    destruct (Hnon Hp) as (lp & Hlp & Hlb'). rewrite Hlb' in Hlb.
    destruct (Hsorted b p Hb) as [?|Hrange]; [done|].
    destruct (lookup_lt_is_Some_2 parents (Z.to_nat p)) as [q Hq].
    { apply lookup_lt_Some in Hb. lia. }
    pose proof (Hbound (Z.to_nat p) q lp Hq Hlp). injection Hlb. lia.
  - intros ->. rewrite Hroot in Hlb by done. by injection Hlb.
Qed.

Lemma compute_levels_bounds_witness :
  ∃ levels,
    compute_levels [-1; 0; 1; 1; 0; 4] = Ok levels ∧
    length levels = length [-1; 0; 1; 1; 0; 4] ∧
    ∀ (b : nat) (p : Z),
      [-1; 0; 1; 1; 0; 4] !! b = Some p →
      ∃ lb, levels !! b = Some lb ∧
            0 ≤ lb ≤ Z.of_nat b ∧ (lb = 0 ↔ p = -1).
Proof.
  apply (compute_levels_bounds [-1; 0; 1; 1; 0; 4]).
  intros b p Hb. do 6 (destruct b as [|b]; [inversion Hb; lia|]). inversion Hb.
Defined.

End levels_more.

(** ** Branch points and edge tables *)

Section branchpoints.
Local Open Scope Z_scope.

Lemma unique_of_sorted (arr u : list Z) :
  StronglySorted Z.lt u → (∀ x, x ∈ u ↔ x ∈ arr) → unique arr = u.
Proof.
  intros Hs Hel.
  apply (StronglySorted_unique Z.lt); [apply unique_sorted|done|].
  apply NoDup_Permutation; [apply NoDup_unique|by apply lt_sorted_NoDup|].
  intros x. by rewrite elem_of_unique, Hel.
Qed.

Lemma sorted_shifted_seq (start : Z) (k : nat) :
  StronglySorted Z.lt ((λ v, start + v) <$> (Z.of_nat <$> seq 0 k)).
Proof.
  eapply StronglySorted_fmap; [|apply sorted_seq].
  intros x y ?. simpl. lia.
Qed.

(** The ids of a block of consecutive numbers followed by numbers of the
    same block. *)
Lemma remap_to_consecutive_shifted (n : nat) (cs : list Z) (s : Z) :
  Forall (λ c, 0 ≤ c < Z.of_nat n) cs →
  remap_to_consecutive
    (((λ k, s + k) <$> (Z.of_nat <$> seq 0 n)) ++ ((λ c, s + c) <$> cs))
  = (Z.of_nat <$> seq 0 n) ++ cs.
Proof.
  intros Hin.
  set (ids := Z.of_nat <$> seq 0 n).
  set (all := ((λ k, s + k) <$> ids) ++ ((λ c, s + c) <$> cs)).
  assert (unique all = (λ k, s + k) <$> ids) as Hu.
  { apply unique_of_sorted; [apply sorted_shifted_seq|].
    intros x. unfold all. rewrite elem_of_app. split; [auto|].
    intros [?|(c & -> & Hc)%list_elem_of_fmap]; [done|].
    rewrite Forall_forall in Hin. specialize (Hin c Hc).
    apply list_elem_of_fmap. exists c. split; [done|].
    apply list_elem_of_fmap. exists (Z.to_nat c). split; [lia|].
    apply elem_of_seq. lia. }
  assert (∀ v, 0 ≤ v < Z.of_nat n →
            Z.of_nat (index_of (s + v) (unique all)) = v) as Hidx.
  { intros v Hv. rewrite Hu, (index_of_lookup _ (Z.to_nat v)); [lia| |].
    - apply lt_sorted_NoDup, sorted_shifted_seq.
    - unfold ids. rewrite !list_lookup_fmap, lookup_seq_lt by lia.
      simpl. f_equal. lia. }
  unfold remap_to_consecutive, unique_inverse.
  unfold all at 2. rewrite fmap_app, <- !list_fmap_compose. f_equal.
  - rewrite <- (list_fmap_id ids) at 2. apply Forall_fmap_ext, Forall_forall.
    intros v (k & -> & Hk)%list_elem_of_fmap. apply elem_of_seq in Hk.
    simpl. apply Hidx. lia.
  - rewrite <- (list_fmap_id cs) at 2.
    apply Forall_fmap_ext. eapply Forall_impl; [exact Hin|].
    intros v Hv. simpl. by apply Hidx.
Qed.

(** X6: When every child points to one of the [n] branch points and the ids
    [start .. start + n - 1] fit 32 bits, the groups are the branch-point
    ids themselves: [0 .. n-1] for the parents followed by the ids of the
    children, whatever the start index is within this range. *)
Theorem build_branchpoint_group_inds_in_range (num_branchpoints : nat)
    (child_belongs_to_branchpoint : list Z) (start_ind_for_branchpoints : Z) :
  Forall (λ c, 0 ≤ c < Z.of_nat num_branchpoints) child_belongs_to_branchpoint →
  - 2 ^ 31 ≤ start_ind_for_branchpoints →
  start_ind_for_branchpoints + Z.of_nat num_branchpoints ≤ 2 ^ 31 →
  build_branchpoint_group_inds num_branchpoints child_belongs_to_branchpoint
    start_ind_for_branchpoints
  = (Z.of_nat <$> seq 0 num_branchpoints) ++ child_belongs_to_branchpoint.
Proof.
  intros Hin Hlo Hhi. unfold build_branchpoint_group_inds.
  set (s := start_ind_for_branchpoints) in *. set (n := num_branchpoints) in *.
  assert (∀ v, 0 ≤ v < Z.of_nat n → int32 (s + v) = s + v) as Hfit
    by (intros v Hv; apply int32_in_range; lia).
  replace ((λ k, int32 (s + k)) <$> (Z.of_nat <$> seq 0 n))
    with ((λ k, s + k) <$> (Z.of_nat <$> seq 0 n)).
  2:{ apply Forall_fmap_ext, Forall_forall.
      intros v (k & -> & Hk)%list_elem_of_fmap. apply elem_of_seq in Hk.
      symmetry. apply Hfit. lia. }
  replace ((λ c, int32 (s + c)) <$> child_belongs_to_branchpoint)
    with ((λ c, s + c) <$> child_belongs_to_branchpoint).
  2:{ apply Forall_fmap_ext. eapply Forall_impl; [exact Hin|].
      intros v Hv. symmetry. by apply Hfit. }
  by apply remap_to_consecutive_shifted.
Qed.

Lemma build_branchpoint_group_inds_in_range_witness :
  build_branchpoint_group_inds 2 [0; 0; 1; 1; 1] 17 = [0; 1] ++ [0; 0; 1; 1; 1].
Proof.
  apply (build_branchpoint_group_inds_in_range 2 [0; 0; 1; 1; 1] 17).
  - repeat constructor; simpl; lia.
  - lia.
  - simpl. lia.
Defined.

(** Past that range the sums wrap around and the ids come out in another
    order. *)
Example build_branchpoint_group_inds_wraps :
  build_branchpoint_group_inds 2 [0; 1] (2 ^ 31 - 1) = [1; 0; 1; 0].
Proof. reflexivity. Qed.

(** X7: For a table whose parent indices fit 32 bits, the conversion of the
    parent column to a JAX array changes nothing, and the branch-point id
    of every edge leads back to the parent of that edge:
    [par_inds[child_belongs_to_branchpoint[i]]] is the parent of row [i];
    [par_inds] is strictly increasing and holds exactly the parents that
    occur, and [child_inds] is the column of children. *)
Theorem compute_children_and_parents_round_trip (branch_edges : list branch_edge) :
  Forall (λ e, - 2 ^ 31 ≤ parent_branch_index e < 2 ^ 31) branch_edges →
  ∃ par_inds child_inds child_belongs_to_branchpoint,
    compute_children_and_parents branch_edges
      = (par_inds, child_inds, child_belongs_to_branchpoint) ∧
    child_belongs_to_branchpoint
      = remap_to_consecutive (jnp_asarray (parent_branch_index <$> branch_edges)) ∧
    StronglySorted Z.lt par_inds ∧
    (∀ p, p ∈ par_inds ↔ ∃ e, e ∈ branch_edges ∧ parent_branch_index e = p) ∧
    child_inds = child_branch_index <$> branch_edges ∧
    length child_belongs_to_branchpoint = length branch_edges ∧
    (∀ (i : nat) (e : branch_edge), branch_edges !! i = Some e →
       ∃ k : nat, child_belongs_to_branchpoint !! i = Some (Z.of_nat k) ∧
                  par_inds !! k = Some (parent_branch_index e)).
Proof.
  intros Hfit.
  eexists _, _, _. split; [reflexivity|].
  split; [by rewrite jnp_asarray_in_range by (by apply Forall_fmap)|].
  split; [apply unique_sorted|]. split; [|split; [done|split]].
  - intros p. rewrite elem_of_unique, list_elem_of_fmap. split.
    + intros (e & -> & He). by exists e.
    + intros (e & He & <-). by exists e.
  - unfold remap_to_consecutive, unique_inverse. by rewrite !length_fmap.
  - intros i e Hi.
    exists (index_of (parent_branch_index e)
              (unique (parent_branch_index <$> branch_edges))).
    split.
    + apply remap_to_consecutive_lookup. by rewrite list_lookup_fmap, Hi.
    + apply index_of_elem_of; [apply NoDup_unique|].
      apply elem_of_unique, list_elem_of_fmap. exists e. split; [done|].
      by eapply list_elem_of_lookup_2.
Qed.

Lemma compute_children_and_parents_round_trip_witness :
  ∃ par_inds child_inds child_belongs_to_branchpoint,
    compute_children_and_parents
      [BranchEdge 0 1; BranchEdge 0 2; BranchEdge 2 3]
      = (par_inds, child_inds, child_belongs_to_branchpoint) ∧
    par_inds = [0; 2] ∧ child_belongs_to_branchpoint = [0; 0; 1].
Proof.
  destruct (compute_children_and_parents_round_trip
              [BranchEdge 0 1; BranchEdge 0 2; BranchEdge 2 3])
    as (par_inds & child_inds & cbb & Hrun & _).
  - repeat constructor; simpl; lia.
  - exists par_inds, child_inds, cbb. split; [exact Hrun|].
    injection Hrun as <- _ <-. split; reflexivity.
Defined.

Lemma stack_T_Ok (a b : list Z) :
  length a = length b → stack_T a b = Ok (zip a b).
Proof. intros H. unfold stack_T. by rewrite bool_decide_eq_true_2. Qed.


Lemma compute_morphology_indices_in_levels_Ok (num_branchpoints : nat)
    (child_belongs_to_branchpoint par_inds child_inds : list Z) :
  length child_inds = length child_belongs_to_branchpoint →
  length par_inds = num_branchpoints →
  compute_morphology_indices_in_levels num_branchpoints
    child_belongs_to_branchpoint par_inds child_inds
  = Ok {| children := zip child_inds child_belongs_to_branchpoint;
          parents := zip par_inds (Z.of_nat <$> seq 0 num_branchpoints) |}.
Proof.
  intros Hc Hp. unfold compute_morphology_indices_in_levels.
  rewrite (stack_T_Ok _ _ Hc). cbn [mbind result_bind].
  rewrite stack_T_Ok; [done|]. by rewrite length_fmap, length_seq.
Qed.





End branchpoints.

(** ** Grouped sums: wrapped and dropped indices, conservation *)

Section grouped_sums_more.
Local Open Scope Q_scope.

Lemma scatter_add1_lookup_any (n : nat) (acc : list Q) (i : Z) (v : Q)
    (j : nat) (s : Q) :
  length acc = n → acc !! j = Some s →
  scatter_add1 n acc (i, v) !! j
  = Some (if decide (i = Z.of_nat j ∨ i = (Z.of_nat j - Z.of_nat n)%Z)
          then s + v else s).
Proof.
  intros Hlen Hj. pose proof (lookup_lt_Some _ _ _ Hj) as Hlt.
  unfold scatter_add1.
  destruct (bool_decide (0 ≤ (if bool_decide (i < 0)%Z
                              then (i + Z.of_nat n)%Z else i) < Z.of_nat n)%Z)
    eqn:Hin.
  - apply bool_decide_eq_true_1 in Hin.
    destruct (decide ((if bool_decide (i < 0)%Z then (i + Z.of_nat n)%Z else i)
                      = Z.of_nat j)) as [Heq|Hne].
    + rewrite Heq, Nat2Z.id, list_lookup_alter_eq, Hj. simpl.
      rewrite decide_True; [done|]. case_bool_decide; lia.
    + rewrite list_lookup_alter_ne by lia. rewrite Hj.
      rewrite decide_False; [done|]. case_bool_decide; lia.
  - apply bool_decide_eq_false_1 in Hin. rewrite Hj.
    rewrite decide_False; [done|]. case_bool_decide; lia.
Qed.

Lemma scatter_add_fold_any (n : nat) (ivs : list (Z * Q)) :
  ∀ (acc : list Q) (j : nat) (s : Q),
    length acc = n → acc !! j = Some s →
    ∃ t, foldl (scatter_add1 n) acc ivs !! j = Some t ∧
         t == s + Qsum (snd <$> filter
                (λ iv, fst iv = Z.of_nat j ∨ fst iv = (Z.of_nat j - Z.of_nat n)%Z)
                ivs).
Proof.
  induction ivs as [|[i v] ivs IH]; intros acc j s Hlen Hj; simpl.
  - exists s. split; [done|]. unfold Qsum. simpl. ring.
  - pose proof (scatter_add1_lookup_any n acc i v j s Hlen Hj) as Hstep.
    destruct (IH _ j _ (eq_trans (scatter_add1_length n acc (i, v)) Hlen) Hstep)
      as (t & Ht & Heq).
    exists t. split; [done|]. rewrite Heq.
    case_decide as Hij.
    + rewrite filter_cons_True by done. rewrite fmap_cons.
      unfold Qsum. cbn [foldr snd]. ring.
    + rewrite filter_cons_False by done. reflexivity.
Qed.

(** X10: For any integer indices, as many as there are values, entry [j] of
    [group_and_sum] is the sum of the values whose index is [j] or
    [j - n]: a negative index counts from the end, and an index outside
    [[-n, n)] is dropped without an error. *)
Theorem group_and_sum_wraps_and_drops (values_to_sum : list Q)
    (inds_to_group_by : list Z) (num_branchpoints : nat) :
  length inds_to_group_by = length values_to_sum →
  ∃ group_sums,
    group_and_sum values_to_sum inds_to_group_by num_branchpoints = Ok group_sums ∧
    length group_sums = num_branchpoints ∧
    ∀ j : nat, (j < num_branchpoints)%nat →
      ∃ t, group_sums !! j = Some t ∧
           t == Qsum (snd <$> filter
                  (λ iv, fst iv = Z.of_nat j
                         ∨ fst iv = (Z.of_nat j - Z.of_nat num_branchpoints)%Z)
                  (zip inds_to_group_by values_to_sum)).
Proof.
  intros Hlen. unfold group_and_sum. case_bool_decide as Hn.
  - rewrite broadcast_to_same_length by done.
    cbn [mbind result_bind]. eexists. split; [done|].
    split; [by rewrite foldl_scatter_add_length, length_replicate|].
    intros j Hj.
    destruct (scatter_add_fold_any num_branchpoints
                (zip inds_to_group_by values_to_sum)
                (replicate num_branchpoints 0) j 0) as (t & Ht & Heq).
    + by rewrite length_replicate.
    + by apply lookup_replicate_2.
    + exists t. split; [done|]. rewrite Heq. ring.
  - exists (replicate num_branchpoints 0). split; [done|].
    split; [by rewrite length_replicate|]. intros j Hj. lia.
Qed.

Lemma group_and_sum_wraps_and_drops_witness :
  ∃ group_sums,
    group_and_sum [3; 4; 5; 6] [0; -1; 2; -7]%Z 2 = Ok group_sums ∧
    length group_sums = 2%nat ∧
    ∀ j : nat, (j < 2)%nat →
      ∃ t, group_sums !! j = Some t ∧
           t == Qsum (snd <$> filter
                  (λ iv, fst iv = Z.of_nat j ∨ fst iv = (Z.of_nat j - Z.of_nat 2)%Z)
                  (zip [0; -1; 2; -7]%Z [3; 4; 5; 6])).
Proof. apply (group_and_sum_wraps_and_drops [3; 4; 5; 6] [0; -1; 2; -7]%Z 2). reflexivity. Defined.

Example group_and_sum_wraps_and_drops_sample :
  group_and_sum [3; 4; 5; 6] [0; -1; 2; -7]%Z 2 = Ok [3; 4].
Proof. reflexivity. Qed.

Lemma Qsum_alter (acc : list Q) (k : nat) (v : Q) :
  (k < length acc)%nat → Qsum (alter (λ s, s + v) k acc) == Qsum acc + v.
Proof.
  revert k. induction acc as [|a acc IH]; intros k Hk; simpl in Hk; [lia|].
  destruct k as [|k]; unfold Qsum; cbn [alter list_alter foldr].
  - ring.
  - fold (Qsum (alter (λ s, s + v) k acc)). fold (Qsum acc).
    rewrite IH by lia. ring.
Qed.

Lemma Qsum_replicate_0 (n : nat) : Qsum (replicate n 0) == 0.
Proof.
  induction n as [|n IH]; [reflexivity|].
  unfold Qsum. cbn [replicate foldr]. fold (Qsum (replicate n 0)).
  rewrite IH. ring.
Qed.

Lemma foldl_scatter_add_sum (n : nat) (ivs : list (Z * Q)) :
  Forall (λ iv, (- Z.of_nat n ≤ fst iv < Z.of_nat n)%Z) ivs →
  ∀ acc : list Q, length acc = n →
    Qsum (foldl (scatter_add1 n) acc ivs) == Qsum acc + Qsum (snd <$> ivs).
Proof.
  induction 1 as [|[i v] ivs Hi Hivs IH]; intros acc Hlen.
  - unfold Qsum at 3. simpl. ring.
  - cbn [foldl]. rewrite IH by (by rewrite scatter_add1_length).
    rewrite fmap_cons. unfold Qsum at 4. cbn [foldr snd].
    fold (Qsum (snd <$> ivs)). simpl in Hi.
    assert (Qsum (scatter_add1 n acc (i, v)) == Qsum acc + v) as ->; [|ring].
    unfold scatter_add1. rewrite bool_decide_eq_true_2 by (case_bool_decide; lia).
    apply Qsum_alter. case_bool_decide; lia.
Qed.

(** X11: Nothing is lost: when every index lies in [[-n, n)], the entries of
    the result add up to the sum of all the values. *)
Theorem group_and_sum_conserves_total (values_to_sum : list Q)
    (inds_to_group_by : list Z) (num_branchpoints : nat) :
  length inds_to_group_by = length values_to_sum →
  Forall (λ i, (- Z.of_nat num_branchpoints ≤ i < Z.of_nat num_branchpoints)%Z)
    inds_to_group_by →
  ∃ group_sums,
    group_and_sum values_to_sum inds_to_group_by num_branchpoints = Ok group_sums ∧
    Qsum group_sums == Qsum values_to_sum.
Proof.
  intros Hlen Hin. unfold group_and_sum. case_bool_decide as Hn.
  - rewrite broadcast_to_same_length by done.
    cbn [mbind result_bind]. eexists. split; [done|].
    rewrite foldl_scatter_add_sum.
    + rewrite Qsum_replicate_0, snd_zip by lia. ring.
    + clear Hlen. revert values_to_sum.
      induction Hin as [|i inds Hi Hinds IH]; intros [|v vs]; simpl;
        constructor; [done|apply IH].
    + by rewrite length_replicate.
  - exists (replicate num_branchpoints 0). split; [done|].
    assert (num_branchpoints = 0%nat) as -> by lia.
    destruct inds_to_group_by as [|i inds].
    + destruct values_to_sum; [reflexivity|done].
    + apply Forall_cons in Hin as [Hi _]. lia.
Qed.

Lemma group_and_sum_conserves_total_witness :
  ∃ group_sums,
    group_and_sum [3; 4; 5] [0; -1; 1]%Z 2 = Ok group_sums ∧
    Qsum group_sums == Qsum [3; 4; 5].
Proof.
  apply (group_and_sum_conserves_total [3; 4; 5] [0; -1; 1]%Z 2).
  - reflexivity.
  - repeat constructor; simpl; lia.
Defined.

(** X12: With at least one branch point, the values are broadcast against
    the indices.  With no index at all the values are not looked at and
    the result is all zeros; otherwise a single value is added at every
    index, and any other mismatch of the two lengths is refused with a
    shape error. *)
Theorem group_and_sum_broadcast (values_to_sum : list Q)
    (inds_to_group_by : list Z) (num_branchpoints : nat) :
  (0 < num_branchpoints)%nat →
  (inds_to_group_by = [] →
     group_and_sum values_to_sum inds_to_group_by num_branchpoints
     = Ok (replicate num_branchpoints 0)) ∧
  (inds_to_group_by ≠ [] →
   length values_to_sum ≠ length inds_to_group_by →
     match values_to_sum with
     | [v] => group_and_sum values_to_sum inds_to_group_by num_branchpoints
              = group_and_sum (replicate (length inds_to_group_by) v)
                  inds_to_group_by num_branchpoints
     | _ => group_and_sum values_to_sum inds_to_group_by num_branchpoints
            = Raise ShapeError
     end).
Proof.
  intros Hn. unfold group_and_sum.
  rewrite !bool_decide_eq_true_2 by done. split.
  - intros ->. done.
  - intros Hinds Hlen.
    assert (length inds_to_group_by ≠ 0%nat) as Hk
      by (by destruct inds_to_group_by).
    unfold broadcast_to. rewrite !(bool_decide_eq_false_2 _ Hk).
    rewrite bool_decide_eq_false_2 by done.
    destruct values_to_sum as [|v [|w vs]]; [done| |done].
    by rewrite bool_decide_eq_true_2 by (by rewrite length_replicate).
Qed.

Lemma group_and_sum_broadcast_witness :
  group_and_sum [3; 4] [] 2 = Ok [0; 0] ∧
  group_and_sum [3; 4] [0; 0; 1]%Z 2 = Raise ShapeError ∧
  group_and_sum [3] [0; 0; 1]%Z 2 = group_and_sum [3; 3; 3] [0; 0; 1]%Z 2.
Proof.
  split; [|split].
  - apply (proj1 (group_and_sum_broadcast [3; 4] [] 2 ltac:(lia))). reflexivity.
  - apply (proj2 (group_and_sum_broadcast [3; 4] [0; 0; 1]%Z 2 ltac:(lia)));
      [discriminate | simpl; lia].
  - apply (proj2 (group_and_sum_broadcast [3] [0; 0; 1]%Z 2 ltac:(lia)));
      [discriminate | simpl; lia].
Defined.

End grouped_sums_more.

(** ** Axial conductances: size, order of the rows, missing keys *)

Section axial_more.
Local Open Scope Q_scope.

Lemma rows_of_type_length (comp_edges : list comp_edge) :
  (length (rows_of_type [0%Z] comp_edges)
   + length (rows_of_type [1%Z; 2%Z] comp_edges)
   + length (rows_of_type [3%Z; 4%Z] comp_edges))%nat
  = length (rows_of_type [0%Z; 1%Z; 2%Z; 3%Z; 4%Z] comp_edges).
Proof.
  unfold rows_of_type. induction comp_edges as [|e es IH]; [done|].
  rewrite !filter_cons.
  repeat case_decide; simpl; rewrite <- ?IH; try lia; exfalso;
    repeat match goal with
    | H : _ ∈ _ |- _ => apply list_elem_of_In in H; simpl in H
    | H : ¬ _ ∈ _ |- _ => rewrite list_elem_of_In in H; simpl in H
    end; intuition lia.
Qed.

(** X13: With the four arrays present and non-empty, the result has one entry
    for every row whose type is 0, 1, 2, 3 or 4; rows of any other type
    are left out. *)
Theorem compute_axial_conductances_length (comp_edges : list comp_edge)
    (params : gmap string (list Q)) (rad ra len cm : list Q) :
  params !! "radius" = Some rad →
  params !! "axial_resistivity" = Some ra →
  params !! "length" = Some len →
  params !! "capacitance" = Some cm →
  rad ≠ [] → ra ≠ [] → len ≠ [] → cm ≠ [] →
  ∃ conds,
    compute_axial_conductances comp_edges params = Ok conds ∧
    length conds
    = length (filter (λ e, (0 ≤ type e ≤ 4)%Z) comp_edges).
Proof.
  intros. eexists. split.
  - by apply (compute_axial_conductances_entries comp_edges params rad ra len cm).
  - rewrite !length_app, !length_fmap, Nat.add_assoc, rows_of_type_length.
    unfold rows_of_type. f_equal. apply list_filter_iff. intros e.
    rewrite !elem_of_cons, elem_of_nil. lia.
Qed.

Lemma compute_axial_conductances_length_witness :
  ∃ conds,
    compute_axial_conductances (CompEdge 0 1 7 :: sample_edges) sample_params
      = Ok conds ∧
    length conds = 6%nat.
Proof.
  apply (compute_axial_conductances_length (CompEdge 0 1 7 :: sample_edges)
           sample_params [1; 2; 1] [5000; 5000; 2500] [10; 20; 5] [1; 2; 1]);
    try reflexivity; discriminate.
Defined.

(** X14: Listing the rows of the table in another order only reorders the
    conductances. *)
Theorem compute_axial_conductances_Permutation (edges1 edges2 : list comp_edge)
    (params : gmap string (list Q)) (rad ra len cm : list Q) :
  params !! "radius" = Some rad →
  params !! "axial_resistivity" = Some ra →
  params !! "length" = Some len →
  params !! "capacitance" = Some cm →
  rad ≠ [] → ra ≠ [] → len ≠ [] → cm ≠ [] →
  edges1 ≡ₚ edges2 →
  ∃ conds1 conds2,
    compute_axial_conductances edges1 params = Ok conds1 ∧
    compute_axial_conductances edges2 params = Ok conds2 ∧
    conds1 ≡ₚ conds2.
Proof.
  intros ? ? ? ? ? ? ? ? Hperm. eexists _, _.
  split; [by apply (compute_axial_conductances_entries edges1 params rad ra len cm)|].
  split; [by apply (compute_axial_conductances_entries edges2 params rad ra len cm)|].
  unfold rows_of_type. by rewrite Hperm.
Qed.

Lemma compute_axial_conductances_Permutation_witness :
  ∃ conds1 conds2,
    compute_axial_conductances sample_edges sample_params = Ok conds1 ∧
    compute_axial_conductances (reverse sample_edges) sample_params = Ok conds2 ∧
    conds1 ≡ₚ conds2.
Proof.
  apply (compute_axial_conductances_Permutation sample_edges (reverse sample_edges)
           sample_params [1; 2; 1] [5000; 5000; 2500] [10; 20; 5] [1; 2; 1]);
    try reflexivity; try discriminate.
  symmetry. apply reverse_Permutation.
Defined.

(** X15: The parameters are only looked up for the kinds of rows that occur:
    a table without rows of type 0..4 gives the empty vector whatever
    [params] holds, and a missing ["radius"] raises [KeyError] as soon as
    there is one such row. *)
Theorem compute_axial_conductances_missing_radius (comp_edges : list comp_edge)
    (params : gmap string (list Q)) :
  (rows_of_type [0%Z; 1%Z; 2%Z; 3%Z; 4%Z] comp_edges = [] →
     compute_axial_conductances comp_edges params = Ok []) ∧
  (params !! "radius" = None →
   rows_of_type [0%Z; 1%Z; 2%Z; 3%Z; 4%Z] comp_edges ≠ [] →
     compute_axial_conductances comp_edges params = Raise KeyError).
Proof.
  pose proof (rows_of_type_length comp_edges) as Hlen. split.
  - intros Hnone. rewrite Hnone in Hlen. simpl in Hlen.
    unfold compute_axial_conductances.
    destruct (rows_of_type [0%Z] comp_edges); [|simpl in Hlen; lia].
    destruct (rows_of_type [1%Z; 2%Z] comp_edges); [|simpl in Hlen; lia].
    destruct (rows_of_type [3%Z; 4%Z] comp_edges); [|simpl in Hlen; lia].
    done.
  - intros Hrad Hsome.
    assert (0 < length (rows_of_type [0%Z; 1%Z; 2%Z; 3%Z; 4%Z] comp_edges))%nat
      as Hpos.
    { destruct (rows_of_type [0%Z; 1%Z; 2%Z; 3%Z; 4%Z] comp_edges);
        [done|simpl; lia]. }
    rewrite <- Hlen in Hpos. clear Hlen Hsome.
    unfold compute_axial_conductances, getitem. rewrite Hrad.
    destruct (rows_of_type [0%Z] comp_edges) as [|e0 r0]; [|done].
    destruct (rows_of_type [1%Z; 2%Z] comp_edges) as [|e1 r1]; [|done].
    destruct (rows_of_type [3%Z; 4%Z] comp_edges) as [|e2 r2]; [|done].
    simpl in Hpos. lia.
Qed.

Lemma compute_axial_conductances_missing_radius_witness :
  compute_axial_conductances [CompEdge 0 1 7] ∅ = Ok [] ∧
  compute_axial_conductances sample_edges (delete "radius" sample_params)
  = Raise KeyError.
Proof.
  split.
  - by apply (proj1 (compute_axial_conductances_missing_radius [CompEdge 0 1 7] ∅)).
  - by apply (proj2 (compute_axial_conductances_missing_radius sample_edges
                       (delete "radius" sample_params))).
Defined.

End axial_more.

(** ** Children of a branch *)

Section children.
Local Open Scope Z_scope.

Lemma where_eq_app (off : nat) (v : Z) (l1 l2 : list Z) :
  where_eq off v (l1 ++ l2)
  = where_eq off v l1 ++ where_eq (off + length l1) v l2.
Proof.
  revert off. induction l1 as [|x l1 IH]; intros off; simpl.
  - by rewrite Nat.add_0_r.
  - rewrite IH, Nat.add_succ_comm. by case_decide.
Qed.

Lemma where_eq_length (off : nat) (v : Z) (arr : list Z) :
  length (where_eq off v arr) = length (filter (λ p, p = v) arr).
Proof.
  revert off. induction arr as [|x arr IH]; intros off; simpl; [done|].
  rewrite filter_cons. case_decide; simpl; by rewrite IH.
Qed.

Lemma elem_of_where_eq (off : nat) (v : Z) (arr : list Z) (c : Z) :
  c ∈ where_eq off v arr
  ↔ ∃ k : nat, c = Z.of_nat (off + k) ∧ arr !! k = Some v.
Proof.
  revert off. induction arr as [|x arr IH]; intros off; simpl.
  - split; [by intros ?%elem_of_nil|]. by intros (k & _ & ?).
  - case_decide as Hx.
    + rewrite elem_of_cons, IH. split.
      * intros [->|(k & -> & Hk)].
        -- exists 0%nat. split; [f_equal; lia|by rewrite Hx].
        -- exists (S k). split; [f_equal; lia|done].
      * intros ([|k] & -> & Hk).
        -- left. f_equal. lia.
        -- right. exists k. split; [f_equal; lia|done].
    + rewrite IH. split.
      * intros (k & -> & Hk). exists (S k). split; [f_equal; lia|done].
      * intros ([|k] & -> & Hk).
        -- simpl in Hk. congruence.
        -- exists k. split; [f_equal; lia|done].
Qed.

Lemma where_eq_sorted (off : nat) (v : Z) (arr : list Z) :
  StronglySorted Z.lt (where_eq off v arr).
Proof.
  revert off. induction arr as [|x arr IH]; intros off; simpl; [constructor|].
  case_decide; [|apply IH]. constructor; [apply IH|].
  apply Forall_forall. intros c (k & -> & _)%elem_of_where_eq. lia.
Qed.

Lemma where_eq_lookup (v : Z) (arr : list Z) (b : nat) :
  arr !! b = Some v →
  where_eq 0 v arr !! length (filter (λ p, p = v) (firstn b arr))
  = Some (Z.of_nat b).
Proof.
  intros Hb.
  replace (where_eq 0 v arr)
    with (where_eq 0 v (firstn b arr ++ v :: drop (S b) arr))
    by (by rewrite take_drop_middle).
  rewrite where_eq_app. rewrite lookup_app_r by (by rewrite where_eq_length).
  rewrite where_eq_length, Nat.sub_diag. simpl. rewrite decide_True by done.
  simpl. do 2 f_equal. rewrite length_take. apply lookup_lt_Some in Hb. lia.
Qed.

(** X16: [compute_children_indices] has one list per branch; list [b] holds
    exactly the positions whose parent entry is [b], in increasing order. *)
Theorem compute_children_indices_correct (parents : list Z) :
  length (compute_children_indices parents) = length parents ∧
  ∀ b : nat, (b < length parents)%nat →
    ∃ cs, compute_children_indices parents !! b = Some cs ∧
          StronglySorted Z.lt cs ∧
          ∀ c : Z, c ∈ cs ↔ ∃ k : nat, c = Z.of_nat k
                                      ∧ parents !! k = Some (Z.of_nat b).
Proof.
  unfold compute_children_indices. split; [by rewrite length_fmap, length_seq|].
  intros b Hb. eexists. split.
  - by rewrite list_lookup_fmap, lookup_seq_lt.
  - split; [apply where_eq_sorted|]. intros c. apply elem_of_where_eq.
Qed.

Lemma sum_indicator (m : nat) (p : Z) :
  sum_list ((λ b, if decide (p = Z.of_nat b) then 1%nat else 0%nat) <$> seq 0 m)
  = (if decide (0 ≤ p < Z.of_nat m) then 1%nat else 0%nat).
Proof.
  induction m as [|m IH]; [by case_decide; [lia|]|].
  rewrite seq_S, fmap_app, sum_list_with_app, IH. simpl.
  repeat case_decide; lia.
Qed.

Lemma sum_counts (m : nat) (l : list Z) :
  sum_list ((λ b, length (filter (λ p, p = Z.of_nat b) l)) <$> seq 0 m)
  = length (filter (λ p, 0 ≤ p < Z.of_nat m) l).
Proof.
  induction l as [|p l IH].
  - induction (seq 0 m) as [|b bs IHs]; [done|].
    rewrite fmap_cons. cbn [sum_list_with]. by rewrite IHs.
  - rewrite (filter_cons (λ p, 0 ≤ p < Z.of_nat m)).
    transitivity
      (sum_list ((λ b, if decide (p = Z.of_nat b) then 1%nat else 0%nat) <$> seq 0 m)
       + sum_list ((λ b, length (filter (λ p, p = Z.of_nat b) l)) <$> seq 0 m))%nat.
    + clear IH. induction (seq 0 m) as [|b bs IHs]; [done|].
      rewrite !fmap_cons. cbn [sum_list_with]. rewrite IHs.
      unfold id. rewrite filter_cons. case_decide; simpl; lia.
    + rewrite IH, sum_indicator. by case_decide.
Qed.

(** X17: [_compute_num_children] counts, for every branch, the entries that
    name it as their parent: entry [b] is the length of list [b] of
    [compute_children_indices], and together the counts add up to the
    number of entries that point into the array. *)
Theorem compute_num_children_correct (parents : list Z) :
  length (_compute_num_children parents) = length parents ∧
  (∀ (b : nat) (cs : list Z), compute_children_indices parents !! b = Some cs →
     _compute_num_children parents !! b = Some (length cs)) ∧
  sum_list (_compute_num_children parents)
  = length (filter (λ p, 0 ≤ p < Z.of_nat (length parents)) parents).
Proof.
  unfold _compute_num_children, compute_children_indices.
  split; [by rewrite length_fmap, length_seq|]. split.
  - intros b cs. rewrite !list_lookup_fmap.
    destruct (seq 0 (length parents) !! b) as [b'|]; [|done]. simpl.
    intros [= <-]. by rewrite where_eq_length.
  - apply sum_counts.
Qed.

Lemma index_of_child_loop_spec (n : nat) (ps : list Z) :
  Forall (λ p, 0 ≤ p < Z.of_nat n) ps →
  ∀ current out : list Z, length current = n →
    ∃ current' ranks,
      index_of_child_loop ps (current, out) = Ok (current', out ++ ranks) ∧
      length ranks = length ps ∧
      ∀ (k : nat) (p : Z), ps !! k = Some p →
        ranks !! k
        = Some (current !!! Z.to_nat p
                + Z.of_nat (length (filter (λ q, q = p) (firstn k ps)))).
Proof.
  induction 1 as [|p ps Hp Hps IH]; intros current out Hlen.
  - exists current, []. rewrite app_nil_r. split; [done|]. split; [done|].
    intros k p Hk. done.
  - cbn [index_of_child_loop index_of_child_step].
    rewrite Hlen, np_index_in_range by done. cbn [mbind result_bind].
    destruct (IH (alter (λ c, c + 1) (Z.to_nat p) current)
                 (out ++ [current !!! Z.to_nat p]))
      as (current' & ranks & Hrun & Hlr & Hranks).
    { by rewrite length_alter. }
    exists current', (current !!! Z.to_nat p :: ranks).
    split; [by rewrite Hrun, <- app_assoc|]. split; [simpl; lia|].
    intros [|k] q Hk.
    + injection Hk as <-. simpl. f_equal. lia.
    + simpl in Hk. rewrite lookup_cons, (Hranks k q Hk). f_equal.
      cbn [firstn]. rewrite filter_cons.
      destruct (decide (q = p)) as [->|Hne].
      * rewrite list_lookup_total_alter_eq by lia.
        rewrite decide_True by done. simpl. lia.
      * rewrite list_lookup_total_alter_ne.
        2:{ rewrite Forall_forall in Hps.
            assert (0 ≤ q < Z.of_nat n) by (apply Hps; by eapply list_elem_of_lookup_2).
            lia. }
        rewrite decide_False by done. done.
Qed.

Lemma index_of_child_run (parents : list Z) :
  (∀ (b : nat) (p : Z), (1 ≤ b)%nat → parents !! b = Some p →
     0 ≤ p < Z.of_nat (length parents)) →
  ∃ ranks,
    _compute_index_of_child parents = Ok (-1 :: ranks) ∧
    length ranks = (length parents - 1)%nat ∧
    ∀ (b : nat) (p : Z), (1 ≤ b)%nat → parents !! b = Some p →
      (-1 :: ranks) !! b
      = Some (Z.of_nat (length (filter (λ q, q = p) (drop 1 (firstn b parents))))).
Proof.
  intros Hin. unfold _compute_index_of_child.
  destruct (index_of_child_loop_spec (length parents) (drop 1 parents))
    with (current := replicate (length parents) 0) (out := [-1])
    as (current' & ranks & Hrun & Hlr & Hranks).
  { apply Forall_forall. intros p [k Hk]%list_elem_of_lookup.
    rewrite lookup_drop in Hk. apply (Hin (1 + k)%nat p); [lia|done]. }
  { by rewrite length_replicate. }
  exists ranks. rewrite Hrun. split; [done|].
  split; [by rewrite Hlr, length_drop|].
  intros [|b] p Hb Hp; [lia|]. rewrite lookup_cons.
  rewrite (Hranks b p) by (by rewrite lookup_drop).
  rewrite lookup_total_replicate_2.
  2:{ pose proof (Hin (S b) p ltac:(lia) Hp). lia. }
  do 2 f_equal. by destruct parents as [|p0 ps].
Qed.

(** X18: [_compute_index_of_child]: when every entry after the first is the
    index of a branch, the result starts with [-1] and gives every later
    branch the number of earlier branches (from position 1 on) that share
    its parent, so the children of a branch are numbered [0, 1, 2, ...] in
    order of appearance.  On an empty array the result is [[-1]]. *)
Theorem compute_index_of_child_correct (parents : list Z) :
  (∀ (b : nat) (p : Z), (1 ≤ b)%nat → parents !! b = Some p →
     0 ≤ p < Z.of_nat (length parents)) →
  ∃ index_of_child,
    _compute_index_of_child parents = Ok index_of_child ∧
    length index_of_child = (length parents `max` 1)%nat ∧
    index_of_child !! 0%nat = Some (-1) ∧
    ∀ (b : nat) (p : Z), (1 ≤ b)%nat → parents !! b = Some p →
      index_of_child !! b
      = Some (Z.of_nat (length (filter (λ q, q = p) (drop 1 (firstn b parents))))).
Proof.
  intros Hin. destruct (index_of_child_run parents Hin) as (ranks & Hrun & Hlen & Hb).
  exists (-1 :: ranks). split; [done|]. split; [simpl; lia|]. split; [done|].
  exact Hb.
Qed.

Lemma compute_index_of_child_correct_witness :
  ∃ index_of_child,
    _compute_index_of_child [-1; 0; 0; 1; 1; 1] = Ok index_of_child ∧
    length index_of_child = 6%nat ∧
    index_of_child !! 0%nat = Some (-1) ∧
    ∀ (b : nat) (p : Z), (1 ≤ b)%nat → [-1; 0; 0; 1; 1; 1] !! b = Some p →
      index_of_child !! b
      = Some (Z.of_nat (length (filter (λ q, q = p)
                                  (drop 1 (firstn b [-1; 0; 0; 1; 1; 1]))))).
Proof.
  apply (compute_index_of_child_correct [-1; 0; 0; 1; 1; 1]).
  intros b p Hb Hp. do 6 (destruct b as [|b]; [inversion Hp; simpl; lia|]).
  inversion Hp.
Defined.

Example compute_index_of_child_docstring :
  _compute_index_of_child [-1; 0; 0; 1; 1; 1] = Ok [-1; 0; 1; 0; 1; 2].
Proof. reflexivity. Qed.

Example compute_index_of_child_empty : _compute_index_of_child [] = Ok [-1].
Proof. reflexivity. Qed.

(** X19: The two tables of children agree: in a tree whose first entry is the
    root mark and whose other entries are indices of branches, branch [b]
    is found in the list of children of its parent at the position that
    [_compute_index_of_child] gives it. *)
Theorem index_of_child_round_trip (parents : list Z) :
  parents !! 0%nat = Some (-1) →
  (∀ (b : nat) (p : Z), (1 ≤ b)%nat → parents !! b = Some p →
     0 ≤ p < Z.of_nat (length parents)) →
  ∃ index_of_child,
    _compute_index_of_child parents = Ok index_of_child ∧
    ∀ (b : nat) (p : Z), (1 ≤ b)%nat → parents !! b = Some p →
      ∃ (k : nat) (cs : list Z),
        index_of_child !! b = Some (Z.of_nat k) ∧
        compute_children_indices parents !! Z.to_nat p = Some cs ∧
        cs !! k = Some (Z.of_nat b).
Proof.
  intros Hroot Hin.
  destruct (index_of_child_run parents Hin) as (ranks & Hrun & Hlen & Hb).
  exists (-1 :: ranks). split; [done|]. intros b p Hb1 Hp.
  pose proof (Hin b p Hb1 Hp) as Hrange.
  eexists _, _. split; [by apply Hb|]. split.
  - unfold compute_children_indices.
    rewrite list_lookup_fmap, lookup_seq_lt by lia. done.
  - cbv beta. rewrite Nat.add_0_l, Z2Nat.id by lia.
    replace (length (filter (λ q, q = p) (drop 1 (firstn b parents))))
      with (length (filter (λ q, q = p) (firstn b parents))).
    + by apply where_eq_lookup.
    + destruct parents as [|p0 ps]; [done|]. injection Hroot as ->.
      destruct b as [|b]; [lia|]. cbn [firstn drop].
      rewrite filter_cons_False by lia. by rewrite drop_0.
Qed.

Lemma index_of_child_round_trip_witness :
  ∃ index_of_child,
    _compute_index_of_child [-1; 0; 0; 1; 1; 1] = Ok index_of_child ∧
    ∀ (b : nat) (p : Z), (1 ≤ b)%nat → [-1; 0; 0; 1; 1; 1] !! b = Some p →
      ∃ (k : nat) (cs : list Z),
        index_of_child !! b = Some (Z.of_nat k) ∧
        compute_children_indices [-1; 0; 0; 1; 1; 1] !! Z.to_nat p = Some cs ∧
        cs !! k = Some (Z.of_nat b).
Proof.
  apply (index_of_child_round_trip [-1; 0; 0; 1; 1; 1]); [reflexivity|].
  intros b p Hb Hp. do 6 (destruct b as [|b]; [inversion Hp; simpl; lia|]).
  inversion Hp.
Defined.

End children.

(** ** Rows of the edge tables by level *)

Section by_level.
Local Open Scope Z_scope.

Lemma mapM_Ok {A B} (f : A → result B) (g : A → B) (l : list A) :
  Forall (λ x, f x = Ok (g x)) l → mapM f l = Ok (g <$> l).
Proof.
  induction 1 as [|x l Hx Hl IH]; [done|].
  cbn [mapM]. rewrite Hx, IH. done.
Qed.

Lemma np_get_in_range {A} `{Inhabited A} (a : list A) (i : nat) (x : A) :
  a !! i = Some x → np_get a (Z.of_nat i) = Ok x.
Proof.
  intros Hi. unfold np_get. pose proof (lookup_lt_Some _ _ _ Hi).
  rewrite np_index_in_range by lia. cbn [mbind result_bind].
  by rewrite Nat2Z.id, (list_lookup_total_correct _ _ _ Hi).
Qed.

Lemma np_max_Returns (a : list Z) :
  a ≠ [] → ∃ M, np_max a = Returns M ∧ Forall (λ x, x ≤ M) a ∧ M ∈ a.
Proof.
  destruct a as [|x a]; [done|]. intros _. eexists. split; [done|].
  induction a as [|y a [IH1 IH2]]; simpl.
  - split; [by constructor|by left].
  - apply Forall_cons in IH1 as [Hx Ha]. split.
    + constructor; [lia|]. constructor; [lia|].
      eapply Forall_impl; [exact Ha|]. intros z Hz. simpl in Hz. lia.
    + destruct (Z.max_spec y (foldr Z.max x a)) as [[_ ->]|[_ ->]].
      * apply elem_of_cons in IH2 as [->|?]; [by left|]. by do 2 right.
      * right. by left.
Qed.

Lemma rows_of_level_aux (l : Z) (ls : list Z) :
  ∀ (cs : list (Z * Z)) (pre_l : list Z) (pre_c : list (Z * Z)),
    length pre_l = S (length pre_c) → length ls = length cs →
    mapM (λ b : nat, np_get (pre_c ++ cs) (Z.of_nat b - 1))
      (filter (λ b : nat, (pre_l ++ ls) !! b = Some l)
         (seq (length pre_l) (length ls)))
    = Ok (snd <$> filter (λ lr, fst lr = l) (zip ls cs)).
Proof.
  induction ls as [|x ls IH]; intros cs pre_l pre_c Hpre Hlen.
  - done.
  - destruct cs as [|c cs]; [done|]. cbn [length seq zip zip_with].
    rewrite !filter_cons.
    assert ((pre_l ++ x :: ls) !! length pre_l = Some x) as Hx.
    { by rewrite lookup_app_r, Nat.sub_diag by lia. }
    specialize (IH cs (pre_l ++ [x]) (pre_c ++ [c])).
    rewrite !length_app, <- !app_assoc in IH. cbn [length app] in IH.
    rewrite Nat.add_1_r in IH.
    rewrite Hx. cbn [fst]. case_decide as Hd1; case_decide as Hd2;
      try congruence.
    + cbn [mapM]. rewrite IH by (simpl in *; lia).
      replace (Z.of_nat (length pre_l) - 1) with (Z.of_nat (length pre_c)) by lia.
      rewrite (np_get_in_range _ _ c).
      * done.
      * by rewrite lookup_app_r, Nat.sub_diag by lia.
    + apply IH; simpl in *; lia.
Qed.

Lemma children_in_current_level_Ok (l0 : Z) (ls : list Z)
    (children_row_and_col : list (Z * Z)) (l : Z) :
  l0 ≠ l → length ls = length children_row_and_col →
  children_in_current_level (l0 :: ls) children_row_and_col l
  = Ok (snd <$> filter (λ lr, fst lr = l) (zip ls children_row_and_col)).
Proof.
  intros Hl0 Hlen. unfold children_in_current_level.
  cbn [length seq]. rewrite filter_cons_False by (simpl; congruence).
  apply (rows_of_level_aux l ls children_row_and_col [l0] []); [done|done].
Qed.

Lemma children_in_level_run (l0 : Z) (ls : list Z)
    (children_row_and_col : list (Z * Z)) (max_level : Z) :
  l0 ≤ 0 → length ls = length children_row_and_col →
  np_max (l0 :: ls) = Returns max_level →
  compute_children_in_level (l0 :: ls) children_row_and_col
  = Returns ((λ k : nat, snd <$> filter (λ lr, fst lr = Z.of_nat k + 1)
                                  (zip ls children_row_and_col))
             <$> seq 0 (Z.to_nat max_level)).
Proof.
  intros Hl0 Hlen HM. unfold compute_children_in_level.
  rewrite HM. cbn [mbind outcome_bind].
  rewrite (mapM_Ok _ (λ l, snd <$> filter (λ lr, fst lr = l)
                              (zip ls children_row_and_col))).
  2:{ apply Forall_forall. intros l (k & -> & _)%list_elem_of_fmap.
      apply children_in_current_level_Ok; [lia|done]. }
  cbn [lift]. f_equal. unfold range. rewrite <- list_fmap_compose.
  replace (Z.to_nat (max_level + 1 - 1)) with (Z.to_nat max_level) by lia.
  apply list_fmap_ext. intros _ k _. simpl.
  by replace (Z.of_nat k + 1) with (1 + Z.of_nat k) by lia.
Qed.

(** X20: [compute_children_in_level]: when branch 0 is not above level 0 and
    the table has one row per later branch, the result has one group for
    each level from 1 to the largest level that occurs, and the group of
    a level holds, in table order, the rows of the branches at that
    level.  An empty [levels] is refused with a [ValueError]. *)
Theorem compute_children_in_level_correct (l0 : Z) (ls : list Z)
    (children_row_and_col : list (Z * Z)) :
  l0 ≤ 0 → length ls = length children_row_and_col →
  ∃ max_level groups,
    max_level ∈ l0 :: ls ∧ Forall (λ l, l ≤ max_level) (l0 :: ls) ∧
    compute_children_in_level (l0 :: ls) children_row_and_col = Returns groups ∧
    length groups = Z.to_nat max_level ∧
    (∀ (k : nat) (g : list (Z * Z)), groups !! k = Some g →
       g = snd <$> filter (λ lr, fst lr = Z.of_nat k + 1)
                     (zip ls children_row_and_col)) ∧
    compute_children_in_level [] children_row_and_col = Raises ValueError.
Proof.
  intros Hl0 Hlen.
  destruct (np_max_Returns (l0 :: ls) ltac:(done)) as (M & HM & Hub & Hin).
  exists M. eexists. split; [done|]. split; [done|].
  split; [by apply children_in_level_run|].
  split; [by rewrite length_fmap, length_seq|]. split; [|done].
  intros k g. rewrite list_lookup_fmap.
  destruct (seq 0 (Z.to_nat M) !! k) as [k'|] eqn:Hk; [|done].
  apply lookup_seq in Hk as [-> _]. simpl. by intros [= <-].
Qed.

Lemma compute_children_in_level_correct_witness :
  ∃ max_level groups,
    max_level ∈ 0 :: [1; 1; 2] ∧ Forall (λ l, l ≤ max_level) (0 :: [1; 1; 2]) ∧
    compute_children_in_level (0 :: [1; 1; 2]) [(1, 0); (2, 0); (3, 1)]
      = Returns groups ∧
    length groups = Z.to_nat max_level ∧
    (∀ (k : nat) (g : list (Z * Z)), groups !! k = Some g →
       g = snd <$> filter (λ lr, fst lr = Z.of_nat k + 1)
                     (zip [1; 1; 2] [(1, 0); (2, 0); (3, 1)])) ∧
    compute_children_in_level [] [(1, 0); (2, 0); (3, 1)] = Raises ValueError.
Proof.
  apply (compute_children_in_level_correct 0 [1; 1; 2] [(1, 0); (2, 0); (3, 1)]);
    [lia|reflexivity].
Defined.

Example compute_children_in_level_sample :
  compute_children_in_level [0; 1; 1; 2] [(1, 0); (2, 0); (3, 1)]
  = Returns [[(1, 0); (2, 0)]; [(3, 1)]].
Proof. reflexivity. Qed.

Lemma filter_ext_Forall {A} (P1 P2 : A → Prop)
    `{!∀ x, Decision (P1 x), !∀ x, Decision (P2 x)} (l : list A) :
  Forall (λ x, P1 x ↔ P2 x) l → filter P1 l = filter P2 l.
Proof.
  induction 1 as [|x l Hx Hl IH]; [done|].
  rewrite !filter_cons, IH. destruct (decide (P1 x)), (decide (P2 x)); tauto.
Qed.

Lemma parents_of_level_aux (levels : list Z) (l : Z) (ps : list Z) :
  ∀ (rows pre : list (Z * Z)),
    length ps = length rows →
    mapM (np_get (pre ++ rows))
      (where_eq (length pre) l ((λ p, levels !!! Z.to_nat p) <$> ps))
    = Ok (snd <$> filter (λ pr, levels !!! Z.to_nat (fst pr) = l) (zip ps rows)).
Proof.
  induction ps as [|p ps IH]; intros rows pre Hlen; [done|].
  destruct rows as [|r rows]; [done|].
  rewrite fmap_cons. cbn [where_eq zip zip_with]. rewrite filter_cons. cbn [fst].
  specialize (IH rows (pre ++ [r])).
  rewrite length_app, <- app_assoc in IH. cbn [length app] in IH.
  rewrite Nat.add_1_r in IH.
  case_decide.
  - cbn [mapM]. rewrite (np_get_in_range _ _ r).
    + rewrite IH by (simpl in *; lia). done.
    + by rewrite lookup_app_r, Nat.sub_diag by lia.
  - apply IH. simpl in *; lia.
Qed.

Lemma parents_in_level_run (levels par_inds : list Z)
    (parents_row_and_col : list (Z * Z)) (max_level : Z) :
  Forall (λ p, 0 ≤ p < Z.of_nat (length levels)) par_inds →
  length par_inds = length parents_row_and_col →
  np_max levels = Returns max_level →
  compute_parents_in_level levels par_inds parents_row_and_col
  = Returns ((λ k : nat,
                snd <$> filter (λ pr, levels !! Z.to_nat (fst pr) = Some (Z.of_nat k))
                          (zip par_inds parents_row_and_col))
             <$> seq 0 (Z.to_nat max_level)).
Proof.
  intros Hin Hlen HM. unfold compute_parents_in_level.
  rewrite (mapM_Ok _ (λ p, levels !!! Z.to_nat p)).
  2:{ eapply Forall_impl; [exact Hin|]. intros p Hp. simpl in Hp.
      destruct (lookup_lt_is_Some_2 levels (Z.to_nat p) ltac:(lia)) as [x Hx].
      rewrite <- (Z2Nat.id p) at 1 by lia.
      by rewrite (np_get_in_range _ _ x Hx), (list_lookup_total_correct _ _ _ Hx). }
  cbn [lift mbind outcome_bind]. rewrite HM. cbn [mbind outcome_bind].
  rewrite (mapM_Ok _ (λ l, snd <$> filter (λ pr, levels !!! Z.to_nat (fst pr) = l)
                              (zip par_inds parents_row_and_col))).
  2:{ apply Forall_forall. intros l _. unfold parents_in_current_level.
      by apply (parents_of_level_aux levels l par_inds parents_row_and_col []). }
  cbn [lift]. f_equal. unfold range. rewrite <- list_fmap_compose.
  replace (Z.to_nat (max_level - 0)) with (Z.to_nat max_level) by lia.
  apply list_fmap_ext. intros _ k _. simpl. f_equal.
  apply filter_ext_Forall, Forall_forall. intros [p r] Hpr. cbn [fst].
  apply elem_of_zip_l in Hpr. rewrite Forall_forall in Hin.
  specialize (Hin p Hpr). simpl in Hin.
  destruct (lookup_lt_is_Some_2 levels (Z.to_nat p) ltac:(lia)) as [x Hx].
  rewrite (list_lookup_total_correct _ _ _ Hx), Hx.
  split; intros E; [f_equal|injection E as E]; lia.
Qed.

(** X21: [compute_parents_in_level]: when every parent is the index of a branch
    and the table has one row per parent, the result has one group for
    each level from 0 to the largest level that occurs but one, and the
    group of a level holds, in table order, the rows of the parents at
    that level. *)
Theorem compute_parents_in_level_correct (levels par_inds : list Z)
    (parents_row_and_col : list (Z * Z)) :
  levels ≠ [] →
  Forall (λ p, 0 ≤ p < Z.of_nat (length levels)) par_inds →
  length par_inds = length parents_row_and_col →
  ∃ max_level groups,
    max_level ∈ levels ∧ Forall (λ l, l ≤ max_level) levels ∧
    compute_parents_in_level levels par_inds parents_row_and_col = Returns groups ∧
    length groups = Z.to_nat max_level ∧
    ∀ (k : nat) (g : list (Z * Z)), groups !! k = Some g →
      g = snd <$> filter (λ pr, levels !! Z.to_nat (fst pr) = Some (Z.of_nat k))
                    (zip par_inds parents_row_and_col).
Proof.
  intros Hne Hin Hlen.
  destruct (np_max_Returns levels Hne) as (M & HM & Hub & HinM).
  exists M. eexists. split; [done|]. split; [done|].
  split; [by apply parents_in_level_run|].
  split; [by rewrite length_fmap, length_seq|].
  intros k g. rewrite list_lookup_fmap.
  destruct (seq 0 (Z.to_nat M) !! k) as [k'|] eqn:Hk; [|done].
  apply lookup_seq in Hk as [-> _]. simpl. by intros [= <-].
Qed.

Lemma compute_parents_in_level_correct_witness :
  ∃ max_level groups,
    max_level ∈ [0; 1; 1; 2] ∧ Forall (λ l, l ≤ max_level) [0; 1; 1; 2] ∧
    compute_parents_in_level [0; 1; 1; 2] [0; 1] [(0, 0); (1, 1)] = Returns groups ∧
    length groups = Z.to_nat max_level ∧
    ∀ (k : nat) (g : list (Z * Z)), groups !! k = Some g →
      g = snd <$> filter (λ pr, [0; 1; 1; 2] !! Z.to_nat (fst pr) = Some (Z.of_nat k))
                    (zip [0; 1] [(0, 0); (1, 1)]).
Proof.
  apply (compute_parents_in_level_correct [0; 1; 1; 2] [0; 1] [(0, 0); (1, 1)]);
    [done| |reflexivity].
  repeat constructor; simpl; lia.
Defined.

Example compute_parents_in_level_sample :
  compute_parents_in_level [0; 1; 1; 2] [0; 1] [(0, 0); (1, 1)]
  = Returns [[(0, 0)]; [(1, 1)]].
Proof. reflexivity. Qed.

End by_level.

(** ** Level groups of a whole tree *)

Section level_groups.
Local Open Scope Z_scope.

Lemma elem_of_snd_filter_zip {A B} (P : A → Prop) `{!∀ x, Decision (P x)}
    (a : list A) (bs : list B) (x : B) :
  x ∈ snd <$> filter (λ lr, P (fst lr)) (zip a bs)
  ↔ ∃ (i : nat) (y : A), a !! i = Some y ∧ P y ∧ bs !! i = Some x.
Proof.
  rewrite list_elem_of_fmap. split.
  - intros ([y x'] & -> & Hin). apply list_elem_of_filter in Hin as [HP Hin].
    apply elem_of_lookup_zip_with in Hin as (i & y' & x'' & [= -> ->] & Ha & Hb).
    by exists i, y'.
  - intros (i & y & Ha & HP & Hb). exists (y, x). split; [done|].
    apply list_elem_of_filter. split; [done|].
    apply elem_of_lookup_zip_with. by exists i, y, x.
Qed.

Lemma branch_edges_columns (ps : list Z) (s : nat) :
  parent_branch_index <$> zip_with BranchEdge ps (Z.of_nat <$> seq s (length ps)) = ps ∧
  child_branch_index <$> zip_with BranchEdge ps (Z.of_nat <$> seq s (length ps))
  = Z.of_nat <$> seq s (length ps).
Proof.
  revert s. induction ps as [|p ps IH]; intros s; [done|].
  destruct (IH (S s)) as [IH1 IH2]. csimpl. by rewrite IH1, IH2.
Qed.

(** X22: In a tree with a single root, given first, whose branches follow their
    parents, the whole chain from the parent array to the level groups
    succeeds, and in every level iteration the two groups talk about the
    same branch points: a child row [(b, k)] of the group has its parent
    row [(parent of b, k)] in the group of parents, and every parent row
    of the group has at least one such child. *)
Theorem level_groups_share_branchpoints (ps : list Z) :
  (∀ (i : nat) (p : Z), ps !! i = Some p → 0 ≤ p ≤ Z.of_nat i) →
  ∃ levels par_inds child_inds child_belongs_to_branchpoint tables cg pg,
    compute_levels (-1 :: ps) = Ok levels ∧
    compute_children_and_parents (branch_edges_of (-1 :: ps))
      = (par_inds, child_inds, child_belongs_to_branchpoint) ∧
    compute_morphology_indices_in_levels (length par_inds)
      child_belongs_to_branchpoint par_inds child_inds = Ok tables ∧
    compute_children_in_level levels (children tables) = Returns cg ∧
    compute_parents_in_level levels par_inds (parents tables) = Returns pg ∧
    length cg = length pg ∧
    ∀ (l : nat) (gc gp : list (Z * Z)), cg !! l = Some gc → pg !! l = Some gp →
      (∀ b k, (b, k) ∈ gc →
         ∃ p, (-1 :: ps) !! Z.to_nat b = Some p ∧ (p, k) ∈ gp) ∧
      (∀ p k, (p, k) ∈ gp →
         ∃ b, (-1 :: ps) !! Z.to_nat b = Some p ∧ (b, k) ∈ gc).
Proof.
  intros Hps.
  assert (topologically_sorted (-1 :: ps)) as Hsorted.
  { intros [|i] p Hp; [left; by injection Hp|]. right. simpl in Hp.
    pose proof (Hps i p Hp). lia. }
  (* levels *)
  destruct (levels_loop_upto (-1 :: ps) Hsorted (-1 :: ps) 0
              (replicate (length (-1 :: ps)) 0))
    as (levels & Hrun & Hlen & Hinv).
  { done. }
  { split; [by rewrite length_replicate|]. intros b p Hb. lia. }
  destruct levels as [|l0 ls]; [done|].
  assert (l0 = 0) as ->.
  { destruct (Hinv 0%nat (-1) ltac:(simpl; lia) eq_refl) as [H0 _].
    specialize (H0 eq_refl). by injection H0. }
  assert (length ls = length ps) as Hls by (simpl in Hlen; lia).
  (* tables *)
  unfold compute_children_and_parents, branch_edges_of.
  replace (Nat.sub (length (-1 :: ps)) 1) with (length ps) by (simpl; lia).
  change (drop 1 (-1 :: ps)) with ps.
  destruct (branch_edges_columns ps 1) as [-> ->].
  set (par_inds := unique ps).
  set (cbtb := remap_to_consecutive ps).
  set (child_inds := Z.of_nat <$> seq 1 (length ps)).
  assert (length cbtb = length ps) as Hcbtb.
  { unfold cbtb, remap_to_consecutive, unique_inverse. by rewrite length_fmap. }
  assert (length child_inds = length ps) as Hchild.
  { unfold child_inds. by rewrite length_fmap, length_seq. }
  destruct (np_max_Returns (0 :: ls) ltac:(done)) as (M & HM & _ & _).
  exists (0 :: ls), par_inds, child_inds, cbtb. eexists. eexists _, _.
  split; [exact Hrun|]. split; [done|].
  split; [apply compute_morphology_indices_in_levels_Ok; [lia|done]|].
  cbn [children parents].
  split.
  { apply (children_in_level_run 0 ls _ M); [lia| |done].
    rewrite length_zip. lia. }
  split.
  { apply (parents_in_level_run _ _ _ M); [| |done].
    - apply Forall_forall. intros p Hp. apply (proj1 (elem_of_unique ps p)) in Hp.
      apply list_elem_of_lookup in Hp as [i Hi].
      pose proof (Hps i p Hi). apply lookup_lt_Some in Hi. simpl. lia.
    - by rewrite length_zip, length_fmap, length_seq, Nat.min_id. }
  split; [by rewrite !length_fmap|].
  assert (∀ (i : nat) (p : Z), ps !! i = Some p →
            ∃ lp : Z, (0 :: ls) !! Z.to_nat p = Some lp ∧ ls !! i = Some (lp + 1))
    as Hlev.
  { intros i p Hi. pose proof (Hps i p Hi) as Hr.
    destruct (Hinv (S i) p) as [_ Hn]; [apply lookup_lt_Some in Hi; simpl; lia|done|].
    apply Hn. lia. }
  intros l gc gp. rewrite !list_lookup_fmap.
  destruct (seq 0 (Z.to_nat M) !! l) as [l'|] eqn:Hl; [|done].
  apply lookup_seq in Hl as [-> _]. simpl. intros [= <-] [= <-]. split.
  - intros b k Hin.
    destruct (proj1 (elem_of_snd_filter_zip (λ y, y = Z.of_nat l + 1)
                       ls (zip child_inds cbtb) (b, k)) Hin)
      as (i & y & Hy & Hyl & Hrow).
    cbv beta in Hyl. subst y.
    apply lookup_zip_with_Some in Hrow as (b' & k' & [= -> ->] & Hb' & Hk').
    unfold child_inds in Hb'. rewrite list_lookup_fmap in Hb'.
    destruct (seq 1 (length ps) !! i) as [j|] eqn:Hj; [|done].
    apply lookup_seq in Hj as [-> Hi]. injection Hb' as <-.
    destruct (lookup_lt_is_Some_2 ps i Hi) as [p Hp].
    exists p. split; [by rewrite Nat2Z.id|].
    destruct (Hlev i p Hp) as (lp & Hlp & Hli).
    assert (lp = Z.of_nat l) as -> by (rewrite Hy in Hli; injection Hli; lia).
    unfold cbtb in Hk'. rewrite (remap_to_consecutive_lookup ps i p Hp) in Hk'.
    injection Hk' as <-.
    assert (par_inds !! index_of p (unique ps) = Some p) as Hk.
    { apply index_of_elem_of; [apply NoDup_unique|].
      apply elem_of_unique. by eapply list_elem_of_lookup_2. }
    refine (proj2 (elem_of_snd_filter_zip
              (λ q, (0 :: ls) !! Z.to_nat q = Some (Z.of_nat l))
              par_inds (zip par_inds (Z.of_nat <$> seq 0 (length par_inds)))
              (p, Z.of_nat (index_of p (unique ps)))) _).
    exists (index_of p (unique ps)), p. split; [done|]. split; [done|].
    rewrite lookup_zip_with, Hk. simpl.
    rewrite list_lookup_fmap, lookup_seq_lt; [done|].
    by eapply lookup_lt_Some.
  - intros p k Hin.
    destruct (proj1 (elem_of_snd_filter_zip
                (λ q, (0 :: ls) !! Z.to_nat q = Some (Z.of_nat l))
                par_inds (zip par_inds (Z.of_nat <$> seq 0 (length par_inds)))
                (p, k)) Hin)
      as (j & q & Hq & Hlq & Hrow).
    cbv beta in Hlq.
    apply lookup_zip_with_Some in Hrow as (p' & k' & [= -> ->] & Hp' & Hk').
    assert (q = p') as -> by congruence.
    rewrite list_lookup_fmap in Hk'.
    destruct (seq 0 (length par_inds) !! j) as [j'|] eqn:Hj; [|done].
    apply lookup_seq in Hj as [-> _]. simpl in Hk'. injection Hk' as <-.
    assert (p' ∈ ps) as Hmem.
    { apply elem_of_unique. by eapply list_elem_of_lookup_2. }
    apply list_elem_of_lookup in Hmem as [i Hi].
    exists (Z.of_nat (1 + i)). split; [by rewrite Nat2Z.id|].
    destruct (Hlev i p' Hi) as (lp & Hlp & Hli).
    assert (lp = Z.of_nat l) as -> by congruence.
    refine (proj2 (elem_of_snd_filter_zip (λ y, y = Z.of_nat l + 1)
              ls (zip child_inds cbtb) (Z.of_nat (1 + i), Z.of_nat j)) _).
    exists i, (Z.of_nat l + 1). split; [done|]. split; [done|].
    rewrite lookup_zip_with. unfold child_inds.
    rewrite list_lookup_fmap, lookup_seq_lt by (by eapply lookup_lt_Some).
    simpl. unfold cbtb. rewrite (remap_to_consecutive_lookup ps i p' Hi). simpl.
    by rewrite (index_of_lookup _ j p' (NoDup_unique ps) Hp').
Qed.

Lemma level_groups_share_branchpoints_witness :
  ∃ levels par_inds child_inds child_belongs_to_branchpoint tables cg pg,
    compute_levels (-1 :: [0; 0; 1; 1; 3]) = Ok levels ∧
    compute_children_and_parents (branch_edges_of (-1 :: [0; 0; 1; 1; 3]))
      = (par_inds, child_inds, child_belongs_to_branchpoint) ∧
    compute_morphology_indices_in_levels (length par_inds)
      child_belongs_to_branchpoint par_inds child_inds = Ok tables ∧
    compute_children_in_level levels (children tables) = Returns cg ∧
    compute_parents_in_level levels par_inds (parents tables) = Returns pg ∧
    length cg = length pg ∧
    ∀ (l : nat) (gc gp : list (Z * Z)), cg !! l = Some gc → pg !! l = Some gp →
      (∀ b k, (b, k) ∈ gc →
         ∃ p, (-1 :: [0; 0; 1; 1; 3]) !! Z.to_nat b = Some p ∧ (p, k) ∈ gp) ∧
      (∀ p k, (p, k) ∈ gp →
         ∃ b, (-1 :: [0; 0; 1; 1; 3]) !! Z.to_nat b = Some p ∧ (b, k) ∈ gc).
Proof.
  apply (level_groups_share_branchpoints [0; 0; 1; 1; 3]).
  intros i p Hi. do 5 (destruct i as [|i]; [inversion Hi; lia|]). inversion Hi.
Defined.

Example level_groups_sample :
  compute_children_in_level [0; 1; 1; 2; 2; 3]
    [(1, 0); (2, 0); (3, 1); (4, 1); (5, 2)]
  = Returns [[(1, 0); (2, 0)]; [(3, 1); (4, 1)]; [(5, 2)]] ∧
  compute_parents_in_level [0; 1; 1; 2; 2; 3] [0; 1; 3] [(0, 0); (1, 1); (3, 2)]
  = Returns [[(0, 0)]; [(1, 1)]; [(3, 2)]].
Proof. split; reflexivity. Qed.

End level_groups.

(** ** Merging the level groups of several cells *)

Section merging.
Local Open Scope Z_scope.

(** X23: With [exclude_first=True], the default, [merge_cells] never returns:
    the first cell raises [NotImplementedError], and without any cell the
    maximum of an empty list is refused. *)
Theorem merge_cells_exclude_first (cumsum_num_branches cumsum_num_branchpoints : list Z)
    (arrs : list (list (list (Z * Z)))) :
  merge_cells cumsum_num_branches cumsum_num_branchpoints arrs true
  = Raises (match arrs with [] => ValueError | _ :: _ => NotImplementedError end).
Proof. by destruct arrs. Qed.

Lemma py_get_Ok {A} (l : list A) (i : nat) (x : A) :
  l !! i = Some x → py_get l i = Ok x.
Proof. intros H. unfold py_get. by rewrite H. Qed.

Lemma merge_cells_loop_Returns (cnb cnbp : list Z) (arrs : list (list (list (Z * Z)))) :
  ∀ i : nat,
    (i + length arrs ≤ length cnb)%nat → (i + length arrs ≤ length cnbp)%nat →
    merge_cells_loop cnb cnbp false i arrs
    = Returns ((λ catt : nat * list (list (Z * Z)),
                  shift_rows (cnb !!! fst catt) (cnbp !!! fst catt) <$> snd catt)
               <$> zip (seq i (length arrs)) arrs).
Proof.
  induction arrs as [|att arrs IH]; intros i Hnb Hnbp; [done|].
  cbn [merge_cells_loop merge_cells_shift length seq zip zip_with] in *.
  destruct (lookup_lt_is_Some_2 cnb i ltac:(lia)) as [a Ha].
  destruct (lookup_lt_is_Some_2 cnbp i ltac:(lia)) as [b Hb].
  rewrite (mapM_Ok _ (shift_rows a b)).
  2:{ apply Forall_forall. intros lvl _.
      by rewrite (py_get_Ok _ _ _ Ha), (py_get_Ok _ _ _ Hb). }
  cbn [lift mbind outcome_bind]. rewrite IH by lia. cbn [mbind outcome_bind].
  rewrite fmap_cons. cbn [fst snd].
  by rewrite (list_lookup_total_correct _ _ _ Ha), (list_lookup_total_correct _ _ _ Hb).
Qed.

Lemma py_max_Returns (l : list nat) :
  l ≠ [] → ∃ m, py_max l = Returns m ∧ Forall (λ x, (x ≤ m)%nat) l ∧ m ∈ l.
Proof.
  destruct l as [|x l]; [done|]. intros _. eexists. split; [done|].
  induction l as [|y l [IH1 IH2]]; simpl.
  - split; [by constructor|by left].
  - apply Forall_cons in IH1 as [Hx Hl]. split.
    + constructor; [lia|]. constructor; [lia|].
      eapply Forall_impl; [exact Hl|]. intros z Hz. simpl in Hz. lia.
    + destruct (Nat.max_spec y (foldr Nat.max x l)) as [[_ ->]|[_ ->]].
      * apply elem_of_cons in IH2 as [->|?]; [by left|]. by do 2 right.
      * right. by left.
Qed.

Lemma omap_lookup_fmap {A B C} (f : A → list B → list C) (i : nat)
    (l : list (A * list (list B))) :
  omap (λ p : list (list C), p !! i)
    ((λ catt : A * list (list B), f (fst catt) <$> snd catt) <$> l)
  = omap (λ catt : A * list (list B), f (fst catt) <$> (snd catt !! i)) l.
Proof.
  induction l as [|[c att] l IH]; [done|].
  rewrite fmap_cons. cbn [omap list_omap fst snd].
  rewrite list_lookup_fmap.
  change (list_omap ?g ?k) with (omap g k). rewrite IH.
  by destruct (att !! i).
Qed.

(** X24: With [exclude_first=False] and an offset for every cell, [merge_cells]
    returns one group per level, as many as the deepest cell has levels,
    and the group of level [i] is the concatenation, cell after cell, of
    the rows that the cells have at level [i], each row shifted by the two
    offsets of its cell; a cell with fewer levels contributes nothing. *)
Theorem merge_cells_correct (cumsum_num_branches cumsum_num_branchpoints : list Z)
    (arrs : list (list (list (Z * Z)))) :
  arrs ≠ [] →
  (length arrs ≤ length cumsum_num_branches)%nat →
  (length arrs ≤ length cumsum_num_branchpoints)%nat →
  ∃ merged max_len,
    merge_cells cumsum_num_branches cumsum_num_branchpoints arrs false
      = Returns merged ∧
    max_len ∈ (length <$> arrs) ∧
    Forall (λ att, (length att ≤ max_len)%nat) arrs ∧
    length merged = max_len ∧
    ∀ (i : nat) (g : list (Z * Z)), merged !! i = Some g →
      g = mjoin (omap (λ catt : nat * list (list (Z * Z)),
                         fmap (λ r : Z * Z,
                                 (fst r + cumsum_num_branches !!! fst catt,
                                  snd r + cumsum_num_branchpoints !!! fst catt))
                         <$> (snd catt !! i))
                   (zip (seq 0 (length arrs)) arrs)).
Proof.
  intros Hne Hnb Hnbp. unfold merge_cells.
  rewrite merge_cells_loop_Returns by (simpl; lia). cbn [mbind outcome_bind].
  destruct (py_max_Returns ((λ att : list (list (Z * Z)), length att) <$> arrs))
    as (m & Hm & Hub & Hin).
  { by destruct arrs. }
  rewrite Hm. cbn [mbind outcome_bind]. eexists _, m.
  split; [done|]. split; [done|].
  split; [by apply Forall_fmap in Hub|].
  split; [by rewrite length_fmap, length_seq|].
  intros i g. rewrite list_lookup_fmap.
  destruct (seq 0 m !! i) as [i'|] eqn:Hi; [|done].
  apply lookup_seq in Hi as [-> _]. simpl. intros [= <-].
  f_equal.
  apply (omap_lookup_fmap
           (λ c, shift_rows (cumsum_num_branches !!! c)
                   (cumsum_num_branchpoints !!! c))).
Qed.

Lemma merge_cells_correct_witness :
  ∃ merged max_len,
    merge_cells [0; 3; 5] [0; 1; 2]
      [[[(0, 0)]; [(1, 1); (2, 1)]]; [[(0, 0)]]] false = Returns merged ∧
    max_len = 2%nat ∧ length merged = max_len.
Proof.
  destruct (merge_cells_correct [0; 3; 5] [0; 1; 2]
              [[[(0, 0)]; [(1, 1); (2, 1)]]; [[(0, 0)]]])
    as (merged & max_len & Hrun & Hin & Hub & Hlen & _);
    [done|simpl; lia|simpl; lia|].
  exists merged, max_len. split; [exact Hrun|]. split; [|exact Hlen].
  apply Forall_cons in Hub as [Hub _]. simpl in Hub, Hin.
  apply elem_of_cons in Hin as [->|Hin]; [done|].
  apply list_elem_of_singleton in Hin. lia.
Defined.

Example merge_cells_sample :
  merge_cells [0; 3; 5] [0; 1; 2]
    [[[(0, 0)]; [(1, 1); (2, 1)]]; [[(0, 0)]]] false
  = Returns [[(0, 0); (3, 1)]; [(1, 1); (2, 1)]].
Proof. reflexivity. Qed.

End merging.

(** ** Locations along a branch *)

Section locations.
Local Open Scope Q_scope.

Lemma argmin_from_best (l : list Q) :
  ∀ (best_i i : nat) (best : Q),
    Forall (λ y, best < y) l → argmin_from best_i best i l = best_i.
Proof.
  induction l as [|y l IH]; intros best_i i best Hall; [done|].
  apply Forall_cons in Hall as [Hy Hl]. cbn [argmin_from].
  destruct (Qlt_le_dec y best) as [Hlt|_]; [lra|]. by apply IH.
Qed.

Lemma argmin_from_later (l : list Q) :
  ∀ (best_i i k : nat) (best x : Q),
    l !! k = Some x → x < best →
    (∀ (j : nat) (y : Q), j ≠ k → l !! j = Some y → x < y) →
    argmin_from best_i best i l = (i + k)%nat.
Proof.
  induction l as [|y l IH]; intros best_i i k best x Hk Hx Hothers; [done|].
  cbn [argmin_from]. destruct k as [|k].
  - injection Hk as ->. destruct (Qlt_le_dec x best) as [_|Hle]; [|lra].
    rewrite argmin_from_best; [lia|].
    apply Forall_forall. intros z [j Hj]%list_elem_of_lookup.
    by apply (Hothers (S j) z).
  - simpl in Hk.
    assert (x < y) as Hxy by (by apply (Hothers 0%nat y)).
    assert (∀ (j : nat) (z : Q), j ≠ k → l !! j = Some z → x < z) as Hrest.
    { intros j z Hj Hz. apply (Hothers (S j) z); [lia|done]. }
    destruct (Qlt_le_dec y best).
    + rewrite (IH i (S i) k y x Hk Hxy Hrest). lia.
    + rewrite (IH best_i (S i) k best x Hk Hx Hrest). lia.
Qed.

Lemma np_argmin_strict (a : list Q) (k : nat) (x : Q) :
  a !! k = Some x →
  (∀ (j : nat) (y : Q), j ≠ k → a !! j = Some y → x < y) →
  np_argmin a = Returns k.
Proof.
  intros Hk Hothers. destruct a as [|a0 a]; [done|]. cbn [np_argmin]. f_equal.
  destruct k as [|k].
  - injection Hk as ->. apply argmin_from_best, Forall_forall.
    intros z [j Hj]%list_elem_of_lookup. by apply (Hothers (S j) z).
  - simpl in Hk. rewrite (argmin_from_later a 0 1 k a0 x Hk); [done| |].
    + by apply (Hothers 0%nat a0).
    + intros j z Hj Hz. apply (Hothers (S j) z); [lia|done].
Qed.

Lemma linspace_centres (ncomp : Z) :
  (0 < ncomp)%Z →
  ∃ locs,
    linspace ((1 # 2) / inject_Z ncomp) (1 - (1 # 2) / inject_Z ncomp) ncomp
      = Returns locs ∧
    length locs = Z.to_nat ncomp ∧
    ∀ (i : nat) (c : Q), locs !! i = Some c →
      c == ((1 # 2) + inject_Z (Z.of_nat i)) / inject_Z ncomp.
Proof.
  intros Hn. unfold linspace. rewrite bool_decide_eq_false_2 by lia.
  assert (0 < inject_Z ncomp) as Hq.
  { unfold Qlt. simpl. lia. }
  case_bool_decide as H1.
  - subst ncomp. eexists. split; [done|]. split; [done|].
    intros [|i] c Hc; [|done]. injection Hc as <-. simpl. field.
  - eexists. split; [done|]. split; [by rewrite length_fmap, length_seq|].
    intros i c. rewrite list_lookup_fmap.
    destruct (seq 0 (Z.to_nat ncomp) !! i) as [i'|] eqn:Hi; [|done].
    apply lookup_seq in Hi as [-> _]. simpl. intros [= <-].
    assert (0 < inject_Z (ncomp - 1)) as Hq1.
    { unfold Qlt. simpl. lia. }
    assert (inject_Z (ncomp - 1) == inject_Z ncomp - 1) as Hsub.
    { unfold Qeq, Qminus, Qplus, Qopp. simpl. lia. }
    field_simplify_eq; [|split; lra]. rewrite Hsub. ring.
Qed.

(** X25: Round trip: the location that [loc_of_index] gives to a compartment of
    a branch is mapped back by [local_index_of_loc] to the position of the
    compartment in the branch. *)
Theorem local_index_of_loc_of_index (cumsum_leading_zero : list Z → list Z)
    (global_comp_index global_branch_index : Z) (ncomp_per_branch : list Z)
    (ncomp off : Z) :
  np_get ncomp_per_branch global_branch_index = Ok ncomp →
  np_get (cumsum_leading_zero ncomp_per_branch) global_branch_index = Ok off →
  (0 ≤ global_comp_index - off < ncomp)%Z →
  ∃ loc,
    loc_of_index cumsum_leading_zero global_comp_index global_branch_index
      ncomp_per_branch = Ok (Some loc) ∧
    local_index_of_loc loc global_branch_index ncomp_per_branch
      = Returns (global_comp_index - off)%Z.
Proof.
  intros Hncomp Hoff Hidx.
  set (idx := (global_comp_index - off)%Z) in *.
  assert (0 < inject_Z ncomp) as Hq.
  { unfold Qlt. simpl. lia. }
  unfold loc_of_index. rewrite Hoff. cbn [mbind result_bind].
  rewrite Hncomp. cbn [mbind result_bind]. rewrite fdiv_Some by lra.
  eexists. split; [done|]. fold idx.
  unfold local_index_of_loc. rewrite Hncomp. cbn [lift mbind outcome_bind].
  rewrite bool_decide_eq_false_2 by lia.
  destruct (linspace_centres ncomp ltac:(lia)) as (locs & -> & Hlen & Hlocs).
  cbn [mbind outcome_bind].
  destruct (lookup_lt_is_Some_2 locs (Z.to_nat idx) ltac:(lia)) as [c Hc].
  rewrite (np_argmin_strict _ (Z.to_nat idx) (Qabs (c - (((1 # 2) + inject_Z idx) / inject_Z ncomp)))).
  - cbn [mbind outcome_bind]. f_equal. lia.
  - by rewrite list_lookup_fmap, Hc.
  - intros j y Hj. rewrite list_lookup_fmap.
    destruct (locs !! j) as [cj|] eqn:Hcj; [|done]. intros [= <-].
    pose proof (Hlocs _ _ Hc) as Ec. pose proof (Hlocs _ _ Hcj) as Ecj.
    rewrite Z2Nat.id in Ec by lia.
    assert (c - ((1 # 2) + inject_Z idx) / inject_Z ncomp == 0) as E0.
    { rewrite Ec. ring. }
    rewrite E0. change (Qabs 0) with 0.
    assert (¬ cj - ((1 # 2) + inject_Z idx) / inject_Z ncomp == 0) as Hnz.
    { rewrite Ecj. intros E.
      assert (inject_Z (Z.of_nat j) == inject_Z idx) as E'.
      { apply (Qmult_inj_r _ _ (/ inject_Z ncomp)).
        - intros Hinv. apply (Qinv_lt_0_compat _) in Hq. lra.
        - unfold Qdiv in E. lra. }
      apply inject_Z_injective || idtac. unfold Qeq in E'. simpl in E'. lia. }
    pose proof (Qabs_nonneg (cj - ((1 # 2) + inject_Z idx) / inject_Z ncomp)) as Hge.
    destruct (Qle_lt_or_eq _ _ Hge) as [?|Heq]; [done|].
    exfalso. apply Hnz. symmetry in Heq.
    revert Heq. apply Qabs_case; intros ? ?; lra.
Qed.

Lemma local_index_of_loc_of_index_witness :
  ∃ loc,
    loc_of_index (λ _, [0; 4; 7; 9]%Z) 5 1 [4; 3; 2]%Z = Ok (Some loc) ∧
    local_index_of_loc loc 1 [4; 3; 2]%Z = Returns (5 - 4)%Z.
Proof.
  apply (local_index_of_loc_of_index (λ _, [0; 4; 7; 9]%Z) 5 1 [4; 3; 2]%Z 3 4);
    [reflexivity|reflexivity|lia].
Defined.

End locations.

(** ** Summed conductances at the ends of the branches *)

Section summed_conds.
Local Open Scope Q_scope.

Lemma has_shape_row (m : list (list Q)) (B nseg r : nat) :
  has_shape m B nseg → (r < B)%nat →
  ∃ row, m !! r = Some row ∧ length row = nseg.
Proof.
  intros [Hlen Hrows] Hr.
  destruct (lookup_lt_is_Some_2 m r ltac:(lia)) as [row Hrow].
  exists row. split; [done|]. rewrite Forall_forall in Hrows.
  apply Hrows. by eapply list_elem_of_lookup_2.
Qed.

Lemma add_at_in_range (m : list (list Q)) (B nseg : nat) (r c : Z) (v : Q) :
  has_shape m B nseg →
  (0 ≤ r < Z.of_nat B)%Z → (0 ≤ c < Z.of_nat nseg)%Z →
  has_shape (add_at m r c v) B nseg ∧
  ∀ r' k : nat, (r' < B)%nat → (k < nseg)%nat →
    cell (add_at m r c v) r' k
    = if decide (r = Z.of_nat r' ∧ c = Z.of_nat k)
      then cell m r' k + v else cell m r' k.
Proof.
  intros Hshape Hr Hc.
  destruct (has_shape_row m B nseg (Z.to_nat r) Hshape ltac:(lia))
    as (row & Hrow & Hlrow).
  unfold add_at. rewrite Hrow, bool_decide_eq_true_2 by lia.
  destruct Hshape as [Hlen Hrows]. split.
  - split; [by rewrite length_insert|].
    apply Forall_insert; [done|]. by rewrite length_alter.
  - intros r' k Hr' Hk. unfold cell.
    destruct (decide (Z.to_nat r = r')) as [<-|Hne].
    + rewrite list_lookup_total_insert_eq by lia.
      rewrite (list_lookup_total_correct _ _ _ Hrow).
      destruct (decide (Z.to_nat c = k)) as [<-|Hnk].
      * rewrite list_lookup_total_alter_eq by lia.
        rewrite decide_True by lia. done.
      * rewrite list_lookup_total_alter_ne by done.
        rewrite decide_False by lia. done.
    + rewrite list_lookup_total_insert_ne by done.
      rewrite decide_False by lia. done.
Qed.

Lemma foldl_add_at {X} (step : list (list Q) → X * Q → list (list Q))
    (target : X → Z * Z) (B nseg : nat) (updates : list (X * Q)) :
  Forall (λ xv, (0 ≤ fst (target (fst xv)) < Z.of_nat B)%Z ∧
                (0 ≤ snd (target (fst xv)) < Z.of_nat nseg)%Z ∧
                ∀ m, has_shape m B nseg →
                  step m xv = add_at m (fst (target (fst xv)))
                                (snd (target (fst xv))) (snd xv)) updates →
  ∀ m, has_shape m B nseg →
    has_shape (foldl step m updates) B nseg ∧
    ∀ r k : nat, (r < B)%nat → (k < nseg)%nat →
      cell (foldl step m updates) r k
      == cell m r k
         + Qsum (snd <$> filter (λ xv, target (fst xv) = (Z.of_nat r, Z.of_nat k))
                           updates).
Proof.
  induction 1 as [|[x v] updates (Hr & Hc & Hstep) Hrest IH]; intros m Hshape.
  - split; [done|]. intros r k _ _. unfold Qsum. simpl. ring.
  - cbn [foldl]. simpl in Hr, Hc. rewrite (Hstep m Hshape). cbn [fst snd].
    destruct (add_at_in_range m B nseg _ _ v Hshape Hr Hc) as [Hshape' Hcell].
    destruct (IH _ Hshape') as [Hfinal Hsum]. split; [done|].
    intros r k Hrlt Hklt. rewrite (Hsum r k Hrlt Hklt), (Hcell r k Hrlt Hklt).
    rewrite filter_cons. cbn [fst].
    destruct (target x) as [tr tc] eqn:Ht. cbn [fst snd].
    destruct (decide (tr = Z.of_nat r ∧ tc = Z.of_nat k)) as [[-> ->]|Hne].
    + rewrite decide_True by done. rewrite fmap_cons.
      unfold Qsum. cbn [foldr snd]. ring.
    + rewrite decide_False by (intros [= -> ->]; tauto). reflexivity.
Qed.

Lemma jnp_get_in_range {A} `{Inhabited A} (a : list A) (i : nat) (x : A) :
  a !! i = Some x → jnp_get a (Z.of_nat i) = Ok x.
Proof.
  intros Hi. pose proof (lookup_lt_Some _ _ _ Hi) as Hlt.
  unfold jnp_get. destruct a as [|a0 a]; [done|].
  rewrite bool_decide_eq_false_2 by lia. f_equal.
  replace (Z.to_nat (Z.max 0 (Z.min (Z.of_nat i) (Z.of_nat (length (a0 :: a)) - 1))))
    with i by lia.
  by apply list_lookup_total_correct.
Qed.

Lemma snd_filter_zip_fmap {A B} (P : B → Prop) `{!∀ x, Decision (P x)}
    (h : A → B) (g : A → Q) (l : list A) :
  snd <$> filter (λ xv, P (fst xv)) (zip (h <$> l) (g <$> l))
  = g <$> filter (λ x, P (h x)) l.
Proof.
  induction l as [|x l IH]; [done|].
  rewrite !fmap_cons. cbn [zip zip_with]. rewrite !filter_cons. cbn [fst].
  destruct (decide (P (h x))); [rewrite !fmap_cons; cbn [snd]|]; by rewrite IH.
Qed.

Lemma filter_nothing {A} (P : A → Prop) `{!∀ x, Decision (P x)} (l : list A) :
  (∀ x, ¬ P x) → filter P l = [].
Proof.
  intros HP. induction l as [|x l IH]; [done|].
  by rewrite filter_cons_False.
Qed.

(** X27: [update_summed_coupling_conds] on a tree: when the children and their
    parents are indices of branches and every branch has [nseg >= 1]
    compartments, the matrix keeps its shape; the last compartment of a
    row gains the backward conductances of the children that are this row,
    its first compartment gains the forward conductances of the children
    whose parent is this row, and nothing else changes. *)
Theorem update_summed_coupling_conds_correct (summed_conds : list (list Q))
    (child_inds : list Z) (conds_fwd conds_bwd : list Q) (parents : list Z)
    (B nseg : nat) :
  has_shape summed_conds B nseg → (1 ≤ nseg)%nat →
  length conds_fwd = B → length conds_bwd = B → length parents = B →
  Forall (λ c, (0 ≤ c < Z.of_nat B)%Z ∧
               (0 ≤ parents !!! Z.to_nat c < Z.of_nat B)%Z) child_inds →
  ∃ updated,
    CellSums.update_summed_coupling_conds summed_conds child_inds
      conds_fwd conds_bwd parents = Ok updated ∧
    has_shape updated B nseg ∧
    ∀ r k : nat, (r < B)%nat → (k < nseg)%nat →
      cell updated r k
      == cell summed_conds r k
         + (if decide (k = (nseg - 1)%nat)
            then Qsum ((λ c, conds_bwd !!! Z.to_nat c)
                       <$> filter (λ c, c = Z.of_nat r) child_inds)
            else 0)
         + (if decide (k = 0%nat)
            then Qsum ((λ c, conds_fwd !!! Z.to_nat c)
                       <$> filter (λ c, parents !!! Z.to_nat c = Z.of_nat r)
                             child_inds)
            else 0).
Proof.
  intros Hshape Hnseg Hfwd Hbwd Hpar Hin.
  unfold CellSums.update_summed_coupling_conds.
  assert (∀ {A} `{Inhabited A} (a : list A), length a = B →
            mapM (jnp_get a) child_inds
            = Ok ((λ c, a !!! Z.to_nat c) <$> child_inds)) as Hget.
  { intros A ? a Ha. apply mapM_Ok. eapply Forall_impl; [exact Hin|].
    intros c [Hc _]. simpl in Hc.
    destruct (lookup_lt_is_Some_2 a (Z.to_nat c) ltac:(lia)) as [x Hx].
    rewrite <- (Z2Nat.id c) at 1 by lia.
    by rewrite (jnp_get_in_range _ _ x Hx), (list_lookup_total_correct _ _ _ Hx). }
  rewrite (Hget _ _ conds_bwd Hbwd). cbn [mbind result_bind].
  rewrite (Hget _ _ parents Hpar). cbn [mbind result_bind].
  rewrite (Hget _ _ conds_fwd Hfwd). cbn [mbind result_bind].
  eexists. split; [done|].
  (* first pass: the last column *)
  destruct (foldl_add_at add_last_column
              (λ c, (c, Z.of_nat nseg - 1)%Z) B nseg
              (zip child_inds ((λ c, conds_bwd !!! Z.to_nat c) <$> child_inds)))
    with (m := summed_conds) as [Hshape1 Hcell1]; [|done|].
  { apply Forall_forall. intros [c v] Hcv. apply elem_of_zip_l in Hcv.
    rewrite Forall_forall in Hin. destruct (Hin c Hcv) as [Hc _].
    cbn [fst snd]. split; [done|]. split; [lia|].
    intros m Hm. unfold add_last_column.
    rewrite bool_decide_eq_false_2 by lia.
    destruct (has_shape_row m B nseg (Z.to_nat c) Hm ltac:(lia))
      as (row & -> & ->). done. }
  (* second pass: the first column *)
  destruct (foldl_add_at add_first_column
              (λ p, (p, 0)%Z) B nseg
              (zip ((λ c, parents !!! Z.to_nat c) <$> child_inds)
                   ((λ c, conds_fwd !!! Z.to_nat c) <$> child_inds)))
    with (m := foldl add_last_column summed_conds
                 (zip child_inds ((λ c, conds_bwd !!! Z.to_nat c) <$> child_inds)))
    as [Hshape2 Hcell2]; [|done|].
  { apply Forall_forall. intros [p v] Hpv. apply elem_of_zip_l in Hpv.
    apply list_elem_of_fmap in Hpv as (c & -> & Hc).
    rewrite Forall_forall in Hin. destruct (Hin c Hc) as [_ Hp].
    cbn [fst snd]. split; [done|]. split; [lia|]. done. }
  split; [done|]. intros r k Hr Hk.
  rewrite (Hcell2 r k Hr Hk), (Hcell1 r k Hr Hk).
  assert (∀ a b c d : Q, b == c → a == d → a + b == d + c) as Hadd
    by (intros ???? -> ->; reflexivity).
  apply Hadd; [|apply Hadd; [|reflexivity]].
  - (* forward part *)
    case_decide as Hk0.
    + subst k.
      pose proof (snd_filter_zip_fmap (λ p, p = Z.of_nat r)
                    (λ c, parents !!! Z.to_nat c)
                    (λ c, conds_fwd !!! Z.to_nat c) child_inds) as E.
      cbv beta in E. rewrite <- E. clear E.
      erewrite (list_filter_iff _ (λ xv, fst xv = Z.of_nat r)); [reflexivity|].
      intros [p v]. cbn [fst]. split; [by intros [= ->]|by intros ->].
    + rewrite filter_nothing; [reflexivity|].
      intros [p v] [= _ Hk']. lia.
  - (* backward part *)
    case_decide as Hkl.
    + subst k.
      pose proof (snd_filter_zip_fmap (λ c, c = Z.of_nat r) (λ c, c)
                    (λ c, conds_bwd !!! Z.to_nat c) child_inds) as E.
      cbv beta in E. rewrite list_fmap_id in E. rewrite <- E. clear E.
      erewrite (list_filter_iff _ (λ xv, fst xv = Z.of_nat r)); [reflexivity|].
      intros [c v]. cbn [fst]. split; [by intros [= ->]|].
      intros ->. f_equal. lia.
    + rewrite filter_nothing; [reflexivity|].
      intros [c v] [= _ Hk']. lia.
Qed.

Lemma update_summed_coupling_conds_correct_witness :
  ∃ updated,
    CellSums.update_summed_coupling_conds
      [[1; 2; 3]; [4; 5; 6]; [7; 8; 9]] [1; 2]%Z [0; 10; 20] [0; 100; 200]
      [-1; 0; 0]%Z = Ok updated ∧
    has_shape updated 3 3 ∧
    ∀ r k : nat, (r < 3)%nat → (k < 3)%nat →
      cell updated r k
      == cell [[1; 2; 3]; [4; 5; 6]; [7; 8; 9]] r k
         + (if decide (k = (3 - 1)%nat)
            then Qsum ((λ c, [0; 100; 200] !!! Z.to_nat c)
                       <$> filter (λ c, c = Z.of_nat r) [1; 2]%Z)
            else 0)
         + (if decide (k = 0%nat)
            then Qsum ((λ c, [0; 10; 20] !!! Z.to_nat c)
                       <$> filter (λ c, [-1; 0; 0]%Z !!! Z.to_nat c = Z.of_nat r)
                             [1; 2]%Z)
            else 0).
Proof.
  apply (update_summed_coupling_conds_correct
           [[1; 2; 3]; [4; 5; 6]; [7; 8; 9]] [1; 2]%Z [0; 10; 20] [0; 100; 200]
           [-1; 0; 0]%Z 3 3); try reflexivity; try lia.
  - split; [reflexivity|]. repeat constructor.
  - repeat constructor; simpl; lia.
Defined.

Example update_summed_coupling_conds_sample :
  CellSums.update_summed_coupling_conds
    [[1; 2; 3]; [4; 5; 6]; [7; 8; 9]] [1; 2]%Z [0; 10; 20] [0; 100; 200]
    [-1; 0; 0]%Z
  = Ok [[31; 2; 3]; [4; 5; 106]; [7; 8; 209]].
Proof. reflexivity. Qed.

End summed_conds.

(** ** Radii of the compartments *)

Section radiuses.
Local Open Scope Q_scope.

Lemma linspace_Returns (start stop : Q) (num : Z) :
  (0 ≤ num)%Z →
  ∃ l, linspace start stop num = Returns l ∧ length l = Z.to_nat num.
Proof.
  intros Hnum. unfold linspace. rewrite bool_decide_eq_false_2 by lia.
  case_bool_decide as H1.
  - subst num. by eexists.
  - eexists. split; [done|]. by rewrite length_fmap, length_seq.
Qed.

Lemma np_index_py_pos (n : nat) (b : Z) :
  (- Z.of_nat n ≤ b < Z.of_nat n)%Z →
  np_index n b = Ok (py_pos n b) ∧ (py_pos n b < n)%nat.
Proof.
  intros Hb. unfold np_index, py_pos.
  repeat case_bool_decide; try lia; (split; [done|lia]).
Qed.

Lemma forallb_positive (l : list Q) :
  forallb (λ r, if Qlt_le_dec 0 r then true else false) l = true
  ↔ Forall (λ r, 0 < r) l.
Proof.
  induction l as [|x l IH]; simpl.
  - split; [constructor|done].
  - rewrite andb_true_iff, IH, Forall_cons.
    destruct (Qlt_le_dec 0 x); split; intros [? ?]; try done; try lra; auto.
Qed.

Lemma length_join_rows {A} (f : A → list Q) (n : nat) (l : list A) :
  Forall (λ x, length (f x) = n) l →
  length (mjoin (f <$> l)) = (length l * n)%nat.
Proof.
  induction 1 as [|x l Hx Hl IH]; [done|].
  csimpl. rewrite length_app, IH, Hx. lia.
Qed.

(** X28: [build_radiuses_from_xyzr] is where the radii are guarded: for
    [ncomp > 0], valid branch indices and radius functions that return one
    radius per location, it reads [ncomp] radii per listed branch; with a
    [min_radius] every radius below it is raised to it, so the result is
    bounded below by [min_radius]; without one the radii are returned
    unchanged exactly when all are strictly positive, and the call fails
    with an [AssertionError] otherwise. *)
Theorem build_radiuses_from_xyzr_guard (radius_fns : list (list Q → list Q))
    (branch_indices : list Z) (ncomp : Z) :
  (0 < ncomp)%Z →
  Forall (λ b, (- Z.of_nat (length radius_fns) ≤ b < Z.of_nat (length radius_fns))%Z)
    branch_indices →
  Forall (λ f : list Q → list Q, ∀ l, length (f l) = length l) radius_fns →
  ∃ range_ raw,
    linspace (1 / inject_Z ncomp / 2) (1 - 1 / inject_Z ncomp / 2) ncomp
      = Returns range_ ∧
    raw = raw_radiuses radius_fns branch_indices range_ ∧
    length raw = (length branch_indices * Z.to_nat ncomp)%nat ∧
    (∀ m : Q,
       ∃ clipped,
         build_radiuses_from_xyzr radius_fns branch_indices (Some m) ncomp
           = Returns clipped ∧
         Forall (λ r, m <= r) clipped ∧
         Forall2 (λ r c, c = if Qlt_le_dec r m then m else r) raw clipped) ∧
    (Forall (λ r, 0 < r) raw →
       build_radiuses_from_xyzr radius_fns branch_indices None ncomp = Returns raw) ∧
    (¬ Forall (λ r, 0 < r) raw →
       build_radiuses_from_xyzr radius_fns branch_indices None ncomp
       = Raises AssertionError).
Proof.
  intros Hn Hidx Hfns.
  destruct (linspace_Returns (1 / inject_Z ncomp / 2) (1 - 1 / inject_Z ncomp / 2)
              ncomp ltac:(lia)) as (range_ & Hlin & Hlen).
  exists range_, (raw_radiuses radius_fns branch_indices range_).
  split; [done|]. split; [done|].
  set (row := λ b, default (λ _, []) (radius_fns !! py_pos (length radius_fns) b) range_).
  assert (Forall (λ b, length (row b) = length range_) branch_indices) as Hrows.
  { eapply Forall_impl; [exact Hidx|]. intros b Hb. simpl in Hb.
    destruct (np_index_py_pos _ _ Hb) as [_ Hlt].
    destruct (lookup_lt_is_Some_2 radius_fns _ Hlt) as [f Hf].
    unfold row. rewrite Hf. simpl. rewrite Forall_forall in Hfns.
    apply Hfns. by eapply list_elem_of_lookup_2. }
  assert (∀ min_radius,
    build_radiuses_from_xyzr radius_fns branch_indices min_radius ncomp
    = match min_radius with
      | None =>
          if forallb (λ r, if Qlt_le_dec 0 r then true else false)
               (raw_radiuses radius_fns branch_indices range_)
          then Returns (raw_radiuses radius_fns branch_indices range_)
          else Raises AssertionError
      | Some m =>
          Returns ((λ r, if Qlt_le_dec r m then m else r)
                   <$> raw_radiuses radius_fns branch_indices range_)
      end) as Hbuild.
  { intros min_radius. unfold build_radiuses_from_xyzr.
    rewrite bool_decide_eq_false_2 by lia. rewrite Hlin. cbn [mbind outcome_bind].
    rewrite (mapM_Ok _ row).
    2:{ eapply Forall_impl; [exact Hidx|]. intros b Hb. simpl in Hb.
        destruct (np_index_py_pos _ _ Hb) as [Hi Hlt].
        destruct (lookup_lt_is_Some_2 radius_fns _ Hlt) as [f Hf].
        unfold np_get. rewrite Hi. cbn [mbind result_bind].
        rewrite (list_lookup_total_correct _ _ _ Hf). unfold row. by rewrite Hf. }
    cbn [lift mbind outcome_bind].
    assert (np_asarray_rows (row <$> branch_indices) = Returns (row <$> branch_indices))
      as ->; [|done].
    unfold np_asarray_rows. destruct branch_indices as [|b0 bs]; [done|].
    rewrite fmap_cons, <- fmap_cons. rewrite bool_decide_eq_true_2; [done|].
    apply Forall_fmap. eapply Forall_impl; [exact Hrows|].
    intros b Hb. simpl. rewrite Hb. apply Forall_cons in Hrows as [-> _]. done. }
  split.
  { unfold raw_radiuses. fold row.
    by rewrite (length_join_rows row (length range_)), Hlen. }
  split; [|split].
  - intros m. rewrite (Hbuild (Some m)). eexists. split; [done|]. split.
    + apply Forall_fmap, Forall_forall. intros r _. simpl.
      destruct (Qlt_le_dec r m); lra.
    + apply Forall2_fmap_r, Forall_Forall2_diag, Forall_forall. done.
  - intros Hpos. rewrite (Hbuild None).
    by rewrite (proj2 (forallb_positive _) Hpos).
  - intros Hneg. rewrite (Hbuild None).
    destruct (forallb _ _) eqn:E; [|done].
    by apply forallb_positive in E.
Qed.

Lemma build_radiuses_from_xyzr_guard_witness :
  ∃ range_ raw,
    linspace (1 / inject_Z 2 / 2) (1 - 1 / inject_Z 2 / 2) 2 = Returns range_ ∧
    raw = raw_radiuses [(λ l, (λ x, x * 2) <$> l); (λ l, (λ x, 1 - 2 * x) <$> l)]
            [0; 1; -2]%Z range_ ∧
    length raw = (length [0; 1; -2]%Z * Z.to_nat 2)%nat ∧
    (∀ m : Q,
       ∃ clipped,
         build_radiuses_from_xyzr
           [(λ l, (λ x, x * 2) <$> l); (λ l, (λ x, 1 - 2 * x) <$> l)]
           [0; 1; -2]%Z (Some m) 2 = Returns clipped ∧
         Forall (λ r, m <= r) clipped ∧
         Forall2 (λ r c, c = if Qlt_le_dec r m then m else r) raw clipped) ∧
    (Forall (λ r, 0 < r) raw →
       build_radiuses_from_xyzr
         [(λ l, (λ x, x * 2) <$> l); (λ l, (λ x, 1 - 2 * x) <$> l)]
         [0; 1; -2]%Z None 2 = Returns raw) ∧
    (¬ Forall (λ r, 0 < r) raw →
       build_radiuses_from_xyzr
         [(λ l, (λ x, x * 2) <$> l); (λ l, (λ x, 1 - 2 * x) <$> l)]
         [0; 1; -2]%Z None 2 = Raises AssertionError).
Proof.
  apply (build_radiuses_from_xyzr_guard
           [(λ l, (λ x, x * 2) <$> l); (λ l, (λ x, 1 - 2 * x) <$> l)]
           [0; 1; -2]%Z 2); [lia| |].
  - repeat constructor; simpl; lia.
  - repeat constructor; intros l; by rewrite length_fmap.
Defined.

Example build_radiuses_from_xyzr_negative :
  build_radiuses_from_xyzr
    [(λ l, (λ x, x * 2) <$> l); (λ l, (λ x, 1 - 2 * x) <$> l)] [0; 1]%Z None 2
  = Raises AssertionError.
Proof. reflexivity. Qed.

End radiuses.

(** ** Linearly interpolated segments *)

Section segments.
Local Open Scope Q_scope.






Lemma transpose_lookup (cols : nat) (m : list (list Q)) (b : nat) :
  (b < cols)%nat →
  transpose cols m !! b = Some ((λ row : list Q, row !!! b) <$> m).
Proof.
  intros Hb. unfold transpose. by rewrite list_lookup_fmap, lookup_seq_lt.
Qed.



End segments.

(** ** Number of neighbours *)

Section neighbours.
Local Open Scope nat_scope.

Lemma set_at1_length (acc : list Q) (iv : Z * Q) :
  length (set_at1 acc iv) = length acc.
Proof.
  destruct iv as [i v]. unfold set_at1. case_bool_decide; [|done].
  by rewrite length_insert.
Qed.

Lemma foldl_set_at1_length (ivs : list (Z * Q)) (acc : list Q) :
  length (foldl set_at1 acc ivs) = length acc.
Proof.
  revert acc. induction ivs as [|iv ivs IH]; intros acc; [done|].
  simpl. by rewrite IH, set_at1_length.
Qed.

Lemma set_at1_in_range (acc : list Q) (i : nat) (v : Q) :
  i < length acc → set_at1 acc (Z.of_nat i, v) = <[i := v]> acc.
Proof.
  intros Hi. unfold set_at1.
  rewrite (bool_decide_eq_false_2 (Z.of_nat i < 0)%Z) by lia.
  rewrite bool_decide_eq_true_2 by lia. by rewrite Nat2Z.id.
Qed.

Lemma first_comp_unique (n b b' j : nat) :
  j < n → b * n + j = b' * n → b = b' ∧ j = 0.
Proof.
  intros Hj E. destruct (lt_eq_lt_dec b b') as [[Hlt| ->]|Hgt].
  - pose proof (Nat.mul_le_mono_r (S b) b' n ltac:(lia)). simpl in *. lia.
  - lia.
  - pose proof (Nat.mul_le_mono_r (S b') b n ltac:(lia)). simpl in *. lia.
Qed.

Lemma comp_index_lt (n B b j : nat) : b < B → j < n → b * n + j < B * n.
Proof.
  intros Hb Hj.
  pose proof (Nat.mul_le_mono_r (S b) B n ltac:(lia)). simpl in *. lia.
Qed.

Local Arguments set_at1 : simpl never.

(** The scatter at the first compartments of the first [B'] branches. *)
Lemma foldl_set_at1_first_comps (n : nat) (a vals : list Q) (B' : nat) :
  1 ≤ n → B' ≤ length vals → B' * n ≤ length a →
  ∀ b j, j < n → b * n + j < length a →
  foldl set_at1 a
    (zip ((λ b : nat, (Z.of_nat b * Z.of_nat n)%Z) <$> seq 0 B')
         (firstn B' vals)) !! (b * n + j)
  = if decide (j = 0 ∧ b < B') then vals !! b else a !! (b * n + j).
Proof.
  intros Hn. induction B' as [|B' IH]; intros HB Ha b j Hj Hk.
  - simpl. rewrite decide_False by lia. done.
  - destruct (lookup_lt_is_Some_2 vals B' ltac:(lia)) as [v Hv].
    rewrite seq_S, fmap_app, (take_S_r _ _ _ Hv). simpl.
    rewrite zip_with_app
      by (rewrite length_fmap, length_seq, length_take; lia).
    rewrite foldl_app. simpl.
    replace (Z.of_nat B' * Z.of_nat n)%Z with (Z.of_nat (B' * n)) by lia.
    rewrite set_at1_in_range by (rewrite foldl_set_at1_length; nia).
    destruct (decide (b * n + j = B' * n)) as [E|E].
    + destruct (first_comp_unique n b B' j Hj E) as [-> ->].
      rewrite E, list_lookup_insert_eq by (rewrite foldl_set_at1_length; nia).
      by rewrite decide_True by lia.
    + rewrite list_lookup_insert_ne by done.
      rewrite IH by (done || lia).
      destruct (decide (j = 0 ∧ b < B')) as [[-> Hb]|Hne].
      * by rewrite decide_True by lia.
      * rewrite decide_False; [done|]. intros [-> Hb]. apply Hne.
        split; [done|]. destruct (decide (b = B')) as [->|]; [|lia].
        exfalso. apply E. lia.
Qed.

Lemma set_at_nonempty (x : list Q) (i : Z) (v : Q) :
  x ≠ [] → set_at x i v = Ok (set_at1 x (i, v)).
Proof. intros Hx. unfold set_at. by destruct x. Qed.

(** X30: [get_num_neighbours] on an array without any compartment raises
    [IndexError].  With at least one branch, at least one compartment per
    branch and one number of children per branch, the result has one
    entry per compartment; the first compartment of branch [b] holds
    [num_children[b] + 1], the last compartment of branch 0 holds [1]
    (when it is not also its first one), and every other compartment,
    the last compartments of the other branches included, holds [2]. *)
Theorem get_num_neighbours_correct (num_children : list Z)
    (ncomp_per_branch num_branches : nat) :
  (num_branches * ncomp_per_branch = 0 →
     get_num_neighbours num_children ncomp_per_branch num_branches
     = Raise IndexError) ∧
  (1 ≤ ncomp_per_branch → 1 ≤ num_branches →
   length num_children = num_branches →
   ∃ res,
     get_num_neighbours num_children ncomp_per_branch num_branches = Ok res ∧
     length res = num_branches * ncomp_per_branch ∧
     ∀ b j c, num_children !! b = Some c → j < ncomp_per_branch →
       res !! (b * ncomp_per_branch + j)
       = Some (if decide (j = 0) then (inject_Z c + 1)%Q
               else if decide (b = 0 ∧ j = ncomp_per_branch - 1)
                    then 1%Q else (2 * 1)%Q)).
Proof.
  split.
  { intros Hz. unfold get_num_neighbours. by rewrite Hz. }
  intros Hn HB Hlen. unfold get_num_neighbours.
  set (n := ncomp_per_branch) in *. set (B := num_branches) in *.
  set (vals := (λ c : Z, (inject_Z c + 1)%Q) <$> num_children).
  set (x0 := (λ one : Q, (2 * one)%Q) <$> replicate (B * n) 1%Q).
  assert (length x0 = B * n) as Hx0
    by (unfold x0; by rewrite length_fmap, length_replicate).
  assert (0 < B * n) as Hpos by (by apply (comp_index_lt n B 0 0)).
  rewrite (set_at_nonempty x0)
    by (intros E; apply (f_equal length) in E; simpl in E; lia).
  cbn [mbind result_bind].
  set (a0 := set_at1 _ _).
  assert (length a0 = B * n) as Ha0
    by (unfold a0; by rewrite set_at1_length).
  rewrite broadcast_to_same_length
    by (unfold vals; by rewrite !length_fmap, length_seq).
  cbn [mbind result_bind]. eexists. split; [done|].
  split; [by rewrite foldl_set_at1_length|].
  intros b j c Hc Hj.
  pose proof (lookup_lt_Some _ _ _ Hc) as Hb. rewrite Hlen in Hb.
  assert (length vals = B) as Hlv by (unfold vals; by rewrite length_fmap).
  pose proof (comp_index_lt n B b j Hb Hj) as Hbj.
  rewrite <- (firstn_all vals), Hlv.
  rewrite (foldl_set_at1_first_comps n a0 vals B) by (done || lia).
  destruct (decide (j = 0)) as [->|Hj0].
  - rewrite decide_True by done. unfold vals.
    by rewrite list_lookup_fmap, Hc.
  - rewrite decide_False by lia. unfold a0.
    pose proof (comp_index_lt n B 0 (n - 1) ltac:(lia) ltac:(lia)) as Hlast.
    simpl in Hlast.
    replace (Z.of_nat n - 1)%Z with (Z.of_nat (n - 1)) by lia.
    rewrite set_at1_in_range by lia.
    destruct (decide (b = 0 ∧ j = n - 1)) as [[-> ->]|Hne].
    + simpl. rewrite list_lookup_insert_eq by lia. done.
    + rewrite list_lookup_insert_ne by (destruct b; simpl; lia).
      unfold x0. rewrite list_lookup_fmap, lookup_replicate_2 by done.
      done.
Qed.

Lemma get_num_neighbours_correct_witness :
  get_num_neighbours [] 2 0 = Raise IndexError ∧
  ∃ res, get_num_neighbours [2; 0; 0]%Z 2 3 = Ok res ∧ length res = 6.
Proof.
  split.
  - apply (proj1 (get_num_neighbours_correct [] 2 0)). reflexivity.
  - destruct (proj2 (get_num_neighbours_correct [2; 0; 0]%Z 2 3))
      as (res & Hres & Hlen & _).
    + lia.
    + lia.
    + reflexivity.
    + exists res. split; [exact Hres | exact Hlen].
Defined.

Example get_num_neighbours_sample :
  get_num_neighbours [2; 0; 0]%Z 2 3
  = Ok [inject_Z 2 + 1; 1; inject_Z 0 + 1; 2 * 1; inject_Z 0 + 1; 2 * 1]%Q.
Proof. reflexivity. Qed.
End neighbours.
